(** * Signal-processing workers of the physiological-signal PWA

    A shallow embedding of the two signal workers of the repository:
    - [TS]: [src/lib/signalWorker.ts] (design table, batch IIR filter, detrend,
      z-score outlier pass, quality metrics, padded spectrum);
    - [JS]: the plain-JavaScript worker loaded by [useSignalProcessing]
      (class [ButterworthFilter], two filter passes, recursive [computeFFT]
      with its [naiveFFT] fallback);
    and of their clients:
    - [Hook]: the request protocol of [useSignalProcessing] (message ids and
      pending callbacks);
    - [Capture] and [Inference]: the heart-rate estimate of the capture
      screen and the simulated inference of the model screen.

    JavaScript numbers are modelled by [num]: exact real numbers extended with
    the three special values of IEEE arithmetic that the code can produce and
    test ([NaN], [+Infinity], [-Infinity]).  Finite arithmetic is exact: the
    rounding, overflow and signed zeros of binary64 are outside the model.
    Statements about finite signals therefore give the value that the program
    computes up to rounding, and hold of the program where no intermediate
    result overflows.

    Where rounding or overflow decides what the program returns, the cleaning
    stages of the TypeScript worker are evaluated over binary64 itself, in
    module [B64]. *)

From Stdlib Require Import Reals Lra Lia ZArith QArith Bool Arith String List.
From Stdlib Require Floats Uint63.
Import ListNotations.

Set Implicit Arguments.

(* ================================================================== *)
(** * JavaScript numbers *)
(* ================================================================== *)

Module Num.

Local Open Scope R_scope.

Inductive num : Type :=
| Fin (r : R)
| PInf
| NInf
| NaN.

Definition is_fin (x : num) : Prop :=
  match x with Fin _ => True | _ => False end.

(** Sign of a real, used by the rules for products and quotients that
    involve an infinity or a zero divisor. *)
Inductive sign := Neg | Zer | Pos.

Definition sgn (r : R) : sign :=
  match total_order_T r 0 with
  | inleft (left _) => Neg
  | inleft (right _) => Zer
  | inright _ => Pos
  end.

Definition neg (x : num) : num :=
  match x with
  | Fin a => Fin (- a)
  | PInf => NInf
  | NInf => PInf
  | NaN => NaN
  end.

Definition add (x y : num) : num :=
  match x, y with
  | NaN, _ | _, NaN => NaN
  | Fin a, Fin b => Fin (a + b)
  | PInf, NInf | NInf, PInf => NaN
  | PInf, _ | _, PInf => PInf
  | NInf, _ | _, NInf => NInf
  end.

Definition sub (x y : num) : num := add x (neg y).

(** [inf_signed s] is the infinity of sign [s]; a zero sign stands for the
    undefined forms [0 * Infinity] and [0 / 0]. *)
Definition inf_signed (s : sign) : num :=
  match s with Pos => PInf | Neg => NInf | Zer => NaN end.

Definition flip (s : sign) : sign :=
  match s with Pos => Neg | Neg => Pos | Zer => Zer end.

Definition mul (x y : num) : num :=
  match x, y with
  | NaN, _ | _, NaN => NaN
  | Fin a, Fin b => Fin (a * b)
  | Fin a, PInf | PInf, Fin a => inf_signed (sgn a)
  | Fin a, NInf | NInf, Fin a => inf_signed (flip (sgn a))
  | PInf, PInf | NInf, NInf => PInf
  | PInf, NInf | NInf, PInf => NInf
  end.

(** Division: a finite non-zero dividend over zero is an infinity, [0 / 0]
    is [NaN] (the zero of the model is the positive zero). *)
Definition div (x y : num) : num :=
  match x, y with
  | NaN, _ | _, NaN => NaN
  | Fin a, Fin b =>
      match sgn b with
      | Zer => inf_signed (sgn a)
      | _ => Fin (a / b)
      end
  | Fin _, (PInf | NInf) => Fin 0
  | PInf, Fin b => match sgn b with Neg => NInf | _ => PInf end
  | NInf, Fin b => match sgn b with Neg => PInf | _ => NInf end
  | (PInf | NInf), (PInf | NInf) => NaN
  end.

Definition Math_abs (x : num) : num :=
  match x with
  | Fin a => Fin (Rabs a)
  | PInf | NInf => PInf
  | NaN => NaN
  end.

Definition Math_sqrt (x : num) : num :=
  match x with
  | Fin a => match sgn a with Neg => NaN | _ => Fin (sqrt a) end
  | PInf => PInf
  | NInf | NaN => NaN
  end.

Definition Math_log10 (x : num) : num :=
  match x with
  | Fin a =>
      match sgn a with
      | Neg => NaN
      | Zer => NInf
      | Pos => Fin (ln a / ln 10)
      end
  | PInf => PInf
  | NInf | NaN => NaN
  end.

Definition Math_cos (x : num) : num :=
  match x with Fin a => Fin (cos a) | _ => NaN end.

Definition Math_sin (x : num) : num :=
  match x with Fin a => Fin (sin a) | _ => NaN end.

(** The tangent has no real value at its poles; they are mapped to [NaN]. *)
Definition Math_tan (x : num) : num :=
  match x with
  | Fin a => match sgn (cos a) with Zer => NaN | _ => Fin (tan a) end
  | _ => NaN
  end.

Definition Math_PI : num := Fin PI.

(** [Math.pow(x, n)] and [x ** n] for a literal natural exponent. *)
Fixpoint Math_pow (x : num) (n : nat) : num :=
  match n with
  | O => Fin 1
  | S O => x
  | S n' => mul x (Math_pow x n')
  end.

(** [Math.round]: the nearest integer, halves rounded up. *)
Definition Math_round (x : num) : num :=
  match x with
  | Fin a => Fin (IZR (Int_part (a + / 2)))
  | _ => x
  end.

(** Comparisons: any comparison with [NaN] is false. *)
Definition ltb (x y : num) : bool :=
  match x, y with
  | NaN, _ | _, NaN => false
  | Fin a, Fin b => if Rlt_dec a b then true else false
  | NInf, (Fin _ | PInf) => true
  | Fin _, PInf => true
  | _, _ => false
  end.

Definition eqb (x y : num) : bool :=
  match x, y with
  | Fin a, Fin b => if Req_dec_T a b then true else false
  | PInf, PInf | NInf, NInf => true
  | _, _ => false
  end.

Definition leb (x y : num) : bool := ltb x y || eqb x y.
Definition gtb (x y : num) : bool := ltb y x.
Definition geb (x y : num) : bool := leb y x.
Definition neqb (x y : num) : bool := negb (eqb x y).

(** [Math.max(a, b)] and [Math.min(a, b)]: [NaN] if either argument is. *)
Definition Math_max2 (x y : num) : num :=
  match x, y with
  | NaN, _ | _, NaN => NaN
  | _, _ => if ltb x y then y else x
  end.

Definition Math_min2 (x y : num) : num :=
  match x, y with
  | NaN, _ | _, NaN => NaN
  | _, _ => if ltb y x then y else x
  end.

(** [Math.max(...xs)] is [-Infinity] on no argument, [Math.min(...xs)] is
    [+Infinity].  (The limit of the engine on the number of arguments of a
    spread call is not modelled: a statement that a call returns bounds the
    length of the array that is spread.) *)
Definition Math_max (xs : list num) : num := fold_left Math_max2 xs NInf.
Definition Math_min (xs : list num) : num := fold_left Math_min2 xs PInf.

(** A number is falsy when it is zero or [NaN]; [x || y] on numbers. *)
Definition falsy (x : num) : bool :=
  match x with
  | Fin a => if Req_dec_T a 0 then true else false
  | NaN => true
  | _ => false
  end.

Definition or_else (x y : num) : num := if falsy x then y else x.

(** Integers of the program (lengths, indices, orders) as numbers. *)
Definition of_Z (z : Z) : num := Fin (IZR z).
Definition of_nat (n : nat) : num := of_Z (Z.of_nat n).

End Num.

Export Num.

Declare Scope num_scope.
Delimit Scope num_scope with num.
Bind Scope num_scope with num.
Infix "+" := add : num_scope.
Infix "-" := sub : num_scope.
Infix "*" := mul : num_scope.
Infix "/" := div : num_scope.
Notation "- x" := (neg x) : num_scope.
Infix "<?" := ltb : num_scope.
Infix "<=?" := leb : num_scope.
Infix ">?" := gtb : num_scope.
Infix ">=?" := geb : num_scope.


(** The operations that test a real number are evaluated by the lemmas of
    section [NumFacts], not by unfolding. *)
Arguments div : simpl never.
Arguments Math_sqrt : simpl never.
Arguments Math_log10 : simpl never.
Arguments Math_tan : simpl never.
Arguments Math_round : simpl never.
Arguments ltb : simpl never.
Arguments eqb : simpl never.
Arguments falsy : simpl never.
Arguments add !x !y : simpl nomatch.
Arguments mul !x !y : simpl nomatch.
Arguments neg !x : simpl nomatch.
Arguments Math_abs !x : simpl nomatch.
Arguments Math_cos !x : simpl nomatch.
Arguments Math_sin !x : simpl nomatch.
Arguments Math_max2 !x !y : simpl nomatch.
Arguments Math_min2 !x !y : simpl nomatch.
(* ================================================================== *)
(** * Arrays, loops and exceptions *)
(* ================================================================== *)

(** A call either returns a value or throws an [Error] with a message. *)
Inductive outcome (A : Type) : Type :=
| Return (a : A)
| Throw (msg : string).

Arguments Return {A} a.
Arguments Throw {A} msg.

Definition bind {A B : Type} (m : outcome A) (k : A -> outcome B) : outcome B :=
  match m with
  | Return a => k a
  | Throw msg => Throw msg
  end.

Notation "x <- m ;; k" := (bind m (fun x => k))
  (at level 61, m at next level, right associativity).

Module Arr.

(** [a[i]]: reading outside the array gives [undefined], which every use in
    the workers turns into [NaN] by arithmetic. *)
Definition get (a : list num) (i : nat) : num := nth i a NaN.

(** [a[i] = v]: inside the array the element is replaced; outside, the array
    grows up to index [i] (the skipped indices are holes). *)
Fixpoint set (a : list num) (i : nat) (v : num) : list num :=
  match a, i with
  | [], O => [v]
  | [], S i' => NaN :: set [] i' v
  | _ :: t, O => v :: t
  | h :: t, S i' => h :: set t i' v
  end.

(** [new Array(len)]: [len] must be a non-negative integer, anything else is
    a [RangeError].  The fresh array holds [len] holes.  (The upper limit of
    2^32 - 1 elements is not modelled: a statement that a call returns
    bounds the length that is asked for.) *)
Definition new_Array (len : Q) : outcome (list num) :=
  let '(Qmake p q) := len in
  if (p mod Zpos q =? 0)%Z && (0 <=? p)%Z
  then Return (repeat NaN (Z.to_nat (p / Zpos q)))
  else Throw "Invalid array length".

Definition fill (a : list num) (v : num) : list num := map (fun _ => v) a.

(** [a.reduce(f, init)]. *)
Definition reduce (f : num -> num -> num) (a : list num) (init : num) : num :=
  fold_left f a init.

(** [a.map((x, i) => f x i)] and [a.filter((x, i) => p x i)]. *)
Fixpoint mapi_from {B : Type} (i : nat) (f : num -> nat -> B) (a : list num) : list B :=
  match a with
  | [] => []
  | x :: t => f x i :: mapi_from (S i) f t
  end.

Definition mapi {B : Type} (f : num -> nat -> B) (a : list num) : list B :=
  mapi_from 0 f a.

Fixpoint filteri_from (i : nat) (p : num -> nat -> bool) (a : list num) : list num :=
  match a with
  | [] => []
  | x :: t => if p x i then x :: filteri_from (S i) p t else filteri_from (S i) p t
  end.

Definition filteri (p : num -> nat -> bool) (a : list num) : list num :=
  filteri_from 0 p a.

(** [for (let i = lo; i < hi; i++) acc = body acc i]. *)
Definition for_range {S : Type} (lo hi : nat) (body : S -> nat -> S) (init : S) : S :=
  fold_left body (seq lo (hi - lo)) init.

End Arr.

Import Arr.

Notation "a .[ i ]" := (get a i) (at level 1, left associativity, format "a .[ i ]").

(* ================================================================== *)
(** * The TypeScript worker: [src/lib/signalWorker.ts] *)
(* ================================================================== *)

Module TS.

Local Open Scope num_scope.

(** ** Filter design and batch filtering *)

Record coefficients : Type := { b : list num; a : list num }.

(** [designButterworthFilter]: a table for the orders 2 and 4, a first-order
    fallback otherwise.  The order is an integer; [new Array(n + 1)] throws a
    [RangeError] when [n + 1] is negative. *)
Definition designButterworthFilter
    (lowCutoff highCutoff samplingRate : num) (order : Z) : outcome coefficients :=
  let wn1 := (Fin 2 * lowCutoff) / samplingRate in
  let wn2 := (Fin 2 * highCutoff) / samplingRate in
  let n := order in
  b_new <- new_Array (inject_Z (n + 1)) ;;
  a_new <- new_Array (inject_Z (n + 1)) ;;
  let b0 := fill b_new (Fin 0) in
  let a0 := fill a_new (Fin 0) in
  if (n =? 2)%Z then
    Return {| b := set (set (set b0 0 (Fin 0.2)) 1 (Fin 0.4)) 2 (Fin 0.2);
              a := set (set (set a0 0 (Fin 1)) 1 (Fin (-0.8))) 2 (Fin 0.36) |}
  else if (n =? 4)%Z then
    Return {| b := set (set (set (set (set b0 0 (Fin 0.1)) 1 (Fin 0.2)) 2 (Fin 0.3))
                          3 (Fin 0.2)) 4 (Fin 0.1);
              a := set (set (set (set (set a0 0 (Fin 1)) 1 (Fin (-1.5))) 2 (Fin 1.2))
                          3 (Fin (-0.5))) 4 (Fin 0.08) |}
  else
    let alpha := wn2 - wn1 in
    Return {| b := set (set b0 0 alpha) 1 alpha;
              a := set (set a0 0 (Fin 1)) 1 (- (Fin 1 - alpha)) |}.

(** One output sample of [applyIIRFilter]: the two inner loops run while
    [j < numer && i - j >= 0] (from 0) and [j < denom && i - j >= 0] (from 1),
    that is up to [min numer (i + 1)] and [min denom (i + 1)]. *)
Definition iir_sample (signal filtered b a : list num) (i : nat) : num :=
  let numer := length b in
  let denom := length a in
  let y := Fin 0 in
  let y := for_range 0 (Nat.min numer (S i))
             (fun y j => y + b.[j] * signal.[i - j]) y in
  let y := for_range 1 (Nat.min denom (S i))
             (fun y j => y - a.[j] * filtered.[i - j]) y in
  y / a.[0].

Definition applyIIRFilter (signal b a : list num) : list num :=
  for_range 0 (length signal)
    (fun filtered i => set filtered i (iir_sample signal filtered b a i))
    (repeat NaN (length signal)).

(** ** Detrending *)

(** The four running sums of the fitting loop: [(sumX, sumY, sumXY, sumX2)]. *)
Definition detrend_sums (signal : list num) : num * num * num * num :=
  for_range 0 (length signal)
    (fun '(sumX, sumY, sumXY, sumX2) i =>
       (sumX + of_nat i,
        sumY + signal.[i],
        sumXY + of_nat i * signal.[i],
        sumX2 + of_nat i * of_nat i))
    (Fin 0, Fin 0, Fin 0, Fin 0).

Definition slope (signal : list num) : num :=
  let n := of_nat (length signal) in
  let '(sumX, sumY, sumXY, sumX2) := detrend_sums signal in
  (n * sumXY - sumX * sumY) / (n * sumX2 - sumX * sumX).

Definition intercept (signal : list num) : num :=
  let n := of_nat (length signal) in
  let '(sumX, sumY, _, _) := detrend_sums signal in
  (sumY - slope signal * sumX) / n.

Definition detrend (signal : list num) : list num :=
  let n := length signal in
  if (n <? 2)%nat then signal
  else
    let slope := slope signal in
    let intercept := intercept signal in
    for_range 0 n
      (fun detrended i => set detrended i (signal.[i] - (slope * of_nat i + intercept)))
      (repeat NaN n).

(** ** Outlier pass *)

Definition mean (signal : list num) : num :=
  reduce (fun a b => a + b) signal (Fin 0) / of_nat (length signal).

Definition variance (signal : list num) : num :=
  reduce (fun acc val => acc + Math_pow (val - mean signal) 2) signal (Fin 0)
  / of_nat (length signal).

Definition std (signal : list num) : num := Math_sqrt (variance signal).

Definition zScore (signal : list num) (val : num) : num :=
  Math_abs ((val - mean signal) / std signal).

Definition removeOutliers (signal : list num) (threshold : num) : list num :=
  map (fun val => if zScore signal val >? threshold then mean signal else val) signal.

(** ** Quality metrics *)

Definition estimateSNR (rawSignal cleanedSignal : list num) : num :=
  let noise := mapi (fun r i => r - cleanedSignal.[i]) rawSignal in
  let signalPower :=
    reduce (fun a b => a + b * b) cleanedSignal (Fin 0) / of_nat (length cleanedSignal) in
  let noisePower := reduce (fun a b => a + b * b) noise (Fin 0) / of_nat (length noise) in
  let snrDb := Fin 10 * Math_log10 (signalPower / (noisePower + Fin 1e-10)) in
  Math_max2 (Fin 0) snrDb.

Definition detectClipping (signal : list num) (threshold : num) : num :=
  let min := Math_min signal in
  let max := Math_max signal in
  let range := max - min in
  let clippedCount :=
    length (filter (fun val => (val <=? min + range * (Fin 1 - threshold))
                               || (val >=? max - range * (Fin 1 - threshold))) signal) in
  (of_nat clippedCount / of_nat (length signal)) * Fin 100.

Definition assessMotionArtifacts (signal : list num) : num :=
  if (length signal <? 3)%nat then Fin 0
  else
    let threshold :=
      Fin 2 * (Math_max signal - Math_min signal) / of_nat (length signal) in
    let abruptChanges :=
      for_range 1 (length signal)
        (fun count i =>
           if Math_abs (signal.[i] - signal.[i - 1]) >? threshold then S count else count)
        0%nat in
    (of_nat abruptChanges / of_nat (length signal)) * Fin 100.

(** ** The processing operation *)

Record ProcessSignalPayload : Type := {
  rawSignal : list num;
  samplingRate : num;
  bandpassLow : num;
  bandpassHigh : num;
  filterOrder : Z
}.

Record QualityMetrics : Type := {
  snr : num;
  clippingPercentage : num;
  motionArtifactScore : num;
  validSegment : bool
}.

Record ProcessedSignal : Type := {
  cleanedSignal : list num;
  qualityMetrics : QualityMetrics
}.

(** The display normalization of [processSignal]: [range = max - min || 1]. *)
Definition normalize (cleanedSignal : list num) : list num :=
  let min := Math_min cleanedSignal in
  let max := Math_max cleanedSignal in
  let range := or_else (max - min) (Fin 1) in
  map (fun val => ((val - min) / range) * Fin 255) cleanedSignal.

(** The verdict of [processSignal], as a function of the three metrics. *)
Definition validSegment_of (clippingPercentage motionArtifactScore snr : num) : bool :=
  (clippingPercentage <? Fin 5) && (motionArtifactScore <? Fin 20) && (snr >? Fin 5).

Definition round1 (x : num) : num := Math_round (x * Fin 10) / Fin 10.

Definition processSignal (payload : ProcessSignalPayload) : outcome ProcessedSignal :=
  let signal := detrend (rawSignal payload) in
  let signal := removeOutliers signal (Fin 3) in
  c <- designButterworthFilter (bandpassLow payload) (bandpassHigh payload)
         (samplingRate payload) (filterOrder payload) ;;
  let cleanedSignal := applyIIRFilter signal (b c) (a c) in
  let cleanedSignal := normalize cleanedSignal in
  let snr := estimateSNR (rawSignal payload) cleanedSignal in
  let clippingPercentage := detectClipping (rawSignal payload) (Fin 0.98) in
  let motionArtifactScore := assessMotionArtifacts (rawSignal payload) in
  let validSegment := validSegment_of clippingPercentage motionArtifactScore snr in
  Return {| cleanedSignal := cleanedSignal;
            qualityMetrics := {| snr := round1 snr;
                                 clippingPercentage := round1 clippingPercentage;
                                 motionArtifactScore := round1 motionArtifactScore;
                                 validSegment := validSegment |} |}.

(** ** Magnitude spectrum *)

(** [let N = 1; while (N < n) N *= 2].  The loop doubles [N] at most [n]
    times before [N >= n] (see [pad_loop_spec]). *)
Fixpoint pad_loop (fuel N n : nat) : nat :=
  match fuel with
  | O => N
  | S fuel' => if (N <? n)%nat then pad_loop fuel' (N * 2) n else N
  end.

Definition padded_length (n : nat) : nat := pad_loop n 1 n.

(** One bin of the spectrum: the inner loop over the padded signal. *)
Definition bin (paddedSignal : list num) (N k : nat) : num :=
  let '(real, imag) :=
    for_range 0 N
      (fun '(real, imag) n =>
         let angle := (Fin (-2) * Math_PI * of_nat k * of_nat n) / of_nat N in
         (real + paddedSignal.[n] * Math_cos angle,
          imag + paddedSignal.[n] * Math_sin angle))
      (Fin 0, Fin 0) in
  Math_sqrt (real * real + imag * imag) / of_nat N.

(** [computeFFT]: [new Array(N / 2)] is the only statement that can throw.
    When it returns, [N / 2] is an integer and bounds the loop over [k]. *)
Definition computeFFT (signal : list num) : outcome (list num) :=
  let n := length signal in
  let N := padded_length n in
  let paddedSignal :=
    for_range 0 n (fun p i => set p i signal.[i]) (fill (repeat NaN N) (Fin 0)) in
  magnitude <- new_Array (Z.of_nat N # 2) ;;
  Return (for_range 0 (N / 2)
            (fun magnitude k => set magnitude k (bin paddedSignal N k))
            magnitude).

(** ** Message handler *)

(** The [payload] of a message is untyped in the source.  The two shapes
    that the clients send are modelled; a payload of the other shape leaves
    the array that the called function reads [undefined], and reading its
    [length] is a [TypeError]. *)
Inductive Payload : Type :=
| process_payload (p : ProcessSignalPayload)
| fft_payload (signal : list num) (samplingRate : num).

Record Message : Type := { id : num; type : string; payload : Payload }.

Inductive Result : Type :=
| processed (r : ProcessedSignal)
| spectrum (magnitude : list num).

(** [postMessage({ id, result })] and [postMessage({ id, error })]. *)
Inductive Response : Type :=
| result_response (id : num) (result : Result)
| error_response (id : num) (error : string).

Definition undefined_length : string :=
  "Cannot read properties of undefined (reading 'length')".

(** The body of the [try] block of the handler. *)
Definition onmessage_try (type : string) (payload : Payload) : outcome Result :=
  if String.eqb type "processSignal" then
    match payload with
    | process_payload p => r <- processSignal p ;; Return (processed r)
    | fft_payload _ _ => Throw undefined_length
    end
  else if String.eqb type "computeFFT" then
    match payload with
    | fft_payload signal _ => m <- computeFFT signal ;; Return (spectrum m)
    | process_payload _ => Throw undefined_length
    end
  else Throw ("Unknown message type: " ++ type).

(** [self.onmessage]: the message posted in answer to [event.data]. *)
Definition onmessage (data : Message) : Response :=
  match onmessage_try (type data) (payload data) with
  | Return result => result_response (id data) result
  | Throw msg => error_response (id data) msg
  end.

End TS.

(* ================================================================== *)
(** * The JavaScript worker loaded as [/signalWorker.js] *)
(* ================================================================== *)

Module JS.

Local Open Scope num_scope.

(** [a.map(x => obj.method(x))] where the callback updates the object:
    the state is threaded through the elements from left to right. *)
Fixpoint map_st {S : Type} (step : S -> num -> num * S) (s : S) (l : list num)
  : list num * S :=
  match l with
  | [] => ([], s)
  | x :: t =>
      let '(out, s') := step s x in
      let '(outs, s'') := map_st step s' t in
      (out :: outs, s'')
  end.

(** ** class ButterworthFilter *)

Record ButterworthFilter : Type := {
  samplingRate : num;
  lowCutoff : num;
  highCutoff : num;
  order : Z;
  b : list num;
  a : list num;
  x : list num;
  y : list num
}.

Definition computeCoefficients (this : ButterworthFilter) : outcome ButterworthFilter :=
  let fs := samplingRate this in
  let low := lowCutoff this / (fs / Fin 2) in
  let high := highCutoff this / (fs / Fin 2) in
  if (low <=? Fin 0) || (high >=? Fin 1) || (low >=? high)
  then Throw "Invalid filter frequencies"
  else
    let wc := Math_sqrt (low * high) in
    let bw := high - low in
    let a := Math_tan ((Math_PI * bw) / Fin 2) in
    let b := Math_cos ((Math_PI * (low + high)) / Fin 2) in
    let q := Fin 1 in
    Return {| samplingRate := samplingRate this;
              lowCutoff := lowCutoff this;
              highCutoff := highCutoff this;
              order := order this;
              b := [a; Fin 0; - a];
              a := [Fin 1; Fin (-2) * (Fin 1 - a) / (Fin 1 + a); (Fin 1 - a) / (Fin 1 + a)];
              x := [Fin 0; Fin 0; Fin 0];
              y := [Fin 0; Fin 0; Fin 0] |}.

(** [new ButterworthFilter(samplingRate, lowCutoff, highCutoff, order)]: the
    constructor stores its arguments and calls [computeCoefficients]. *)
Definition new_ButterworthFilter
    (samplingRate lowCutoff highCutoff : num) (order : Z) : outcome ButterworthFilter :=
  computeCoefficients
    {| samplingRate := samplingRate; lowCutoff := lowCutoff; highCutoff := highCutoff;
       order := order; b := []; a := []; x := []; y := [] |}.

(** [filter(x)]: one step of the recurrence, then the shift of both histories. *)
Definition filter (this : ButterworthFilter) (x_new : num) : num * ButterworthFilter :=
  let out :=
    ((b this).[0] * x_new + (b this).[1] * (x this).[1] + (b this).[2] * (x this).[2])
      / (a this).[0]
    - ((a this).[1] * (y this).[1] + (a this).[2] * (y this).[2]) / (a this).[0] in
  let xs := set (x this) 2 (x this).[1] in
  let xs := set xs 1 x_new in
  let ys := set (y this) 2 (y this).[1] in
  let ys := set ys 1 out in
  (out,
   {| samplingRate := samplingRate this; lowCutoff := lowCutoff this;
      highCutoff := highCutoff this; order := order this;
      b := b this; a := a this; x := xs; y := ys |}).

(** ** Quality metrics *)

Definition calculateSNR (signal noise : list num) : num :=
  let signalPower := reduce (fun a x => a + x * x) signal (Fin 0) / of_nat (length signal) in
  let noisePower := reduce (fun a x => a + x * x) noise (Fin 0) / of_nat (length noise) in
  if noisePower >? Fin 0
  then Fin 10 * Math_log10 (signalPower / noisePower)
  else Fin 0.

Definition calculateClipping (signal : list num) : num :=
  let threshold := Math_max signal * Fin 0.95 in
  let clipped := length (List.filter (fun x => x >=? threshold) signal) in
  (of_nat clipped / of_nat (length signal)) * Fin 100.

Definition calculateMotionArtifacts (signal : list num) : num :=
  let diffs :=
    for_range 1 (length signal)
      (fun diffs i => diffs ++ [Math_abs (signal.[i] - signal.[i - 1])]) [] in
  let mean := reduce (fun a b => a + b) diffs (Fin 0) / of_nat (length diffs) in
  let variance :=
    reduce (fun a x => a + Math_pow (x - mean) 2) diffs (Fin 0) / of_nat (length diffs) in
  Math_sqrt variance.

Definition isValidSegment (signal : list num) (std : num) : bool :=
  let mean := reduce (fun a b => a + b) signal (Fin 0) / of_nat (length signal) in
  let nonZero :=
    length (List.filter (fun x => Math_abs (x - mean) >? Fin 0.1 * std) signal) in
  of_nat nonZero >? of_nat (length signal) * Fin 0.5.

(** ** The processing operation *)

Record QualityMetrics : Type := {
  snr : num;
  clippingPercentage : num;
  motionArtifactScore : num;
  validSegment : bool
}.

Record ProcessedSignals : Type := {
  raw : list num;
  bandpass : list num;
  butterworth : list num;
  qualityMetrics : QualityMetrics
}.

(** The mean-and-slope removal at the head of [processSignal]. *)
Definition detrended_of (rawSignal : list num) : list num :=
  let mean := reduce (fun a b => a + b) rawSignal (Fin 0) / of_nat (length rawSignal) in
  let detrended := map (fun x => x - mean) rawSignal in
  let n := length detrended in
  let xMean := reduce (fun a b => a + b) detrended (Fin 0) / of_nat n in
  let yMean := Fin 0 in
  let '(numerator, denominator) :=
    for_range 0 n
      (fun '(numerator, denominator) i =>
         (numerator + (of_nat i - of_nat n / Fin 2) * (detrended.[i] - yMean),
          denominator + Math_pow (of_nat i - of_nat n / Fin 2) 2))
      (Fin 0, Fin 0) in
  if neqb denominator (Fin 0)
  then
    let slope := numerator / denominator in
    mapi (fun x i => x - slope * (of_nat i - of_nat n / Fin 2)) detrended
  else detrended.

(** The clip-to-mean pass on the filtered signal: [(std, cleanedNoOutliers)]. *)
Definition clip_outliers (butterworthFiltered : list num) : num * list num :=
  let mean_clean :=
    reduce (fun a b => a + b) butterworthFiltered (Fin 0)
    / of_nat (length butterworthFiltered) in
  let variance :=
    reduce (fun a x => a + Math_pow (x - mean_clean) 2) butterworthFiltered (Fin 0)
    / of_nat (length butterworthFiltered) in
  let std := Math_sqrt variance in
  (std,
   map (fun x => if Math_abs (x - mean_clean) >? Fin 3 * std then mean_clean else x)
     butterworthFiltered).

(** The body of the [try] block. *)
Definition processSignal_try
    (rawSignal : list num) (samplingRate bandpassLow bandpassHigh : num) (filterOrder : Z)
  : outcome ProcessedSignals :=
  let detrended := detrended_of rawSignal in
  filter1 <- new_ButterworthFilter samplingRate bandpassLow bandpassHigh filterOrder ;;
  let bandpassFiltered := fst (map_st filter filter1 detrended) in
  filter2 <- new_ButterworthFilter samplingRate bandpassLow bandpassHigh filterOrder ;;
  let butterworthFiltered := fst (map_st filter filter2 bandpassFiltered) in
  let '(std, cleanedNoOutliers) := clip_outliers butterworthFiltered in
  let qualityMetrics :=
    {| snr := calculateSNR cleanedNoOutliers detrended;
       clippingPercentage := calculateClipping rawSignal;
       motionArtifactScore := calculateMotionArtifacts butterworthFiltered;
       validSegment := isValidSegment butterworthFiltered std |} in
  Return {| raw := rawSignal;
            bandpass := bandpassFiltered;
            butterworth := cleanedNoOutliers;
            qualityMetrics := qualityMetrics |}.

(** [processSignal]: any error of the body is thrown again with a prefix. *)
Definition processSignal
    (rawSignal : list num) (samplingRate bandpassLow bandpassHigh : num) (filterOrder : Z)
  : outcome ProcessedSignals :=
  match processSignal_try rawSignal samplingRate bandpassLow bandpassHigh filterOrder with
  | Return r => Return r
  | Throw msg => Throw ("Signal processing failed: " ++ msg)
  end.

(** ** Spectral transforms *)

Definition naiveFFT (signal : list num) : list num :=
  let n := length signal in
  let result := fill (repeat NaN n) (Fin 0) in
  for_range 0 n
    (fun result k =>
       let '(realPart, imagPart) :=
         for_range 0 n
           (fun '(realPart, imagPart) t =>
              let angle := Fin (-2) * Math_PI * of_nat k * of_nat t / of_nat n in
              (realPart + signal.[t] * Math_cos angle,
               imagPart + signal.[t] * Math_sin angle))
           (Fin 0, Fin 0) in
       set result k (Math_sqrt (realPart * realPart + imagPart * imagPart) / of_nat n))
    result.

(** [computeFFT] calls itself on the even- and odd-indexed halves.  [fuel]
    bounds the depth of the call stack; running out of it is the engine's
    stack overflow (only the empty signal recurses forever, see
    [computeFFT_returns]). *)
Fixpoint computeFFT_rec (fuel : nat) (signal : list num) : outcome (list num) :=
  match fuel with
  | O => Throw "Maximum call stack size exceeded"
  | S fuel' =>
      let n := length signal in
      if (n =? 1)%nat then Return signal
      else if negb (n mod 2 =? 0)%nat then Return (naiveFFT signal)
      else
        even <- computeFFT_rec fuel' (filteri (fun _ i => (i mod 2 =? 0)%nat) signal) ;;
        odd <- computeFFT_rec fuel' (filteri (fun _ i => (i mod 2 =? 1)%nat) signal) ;;
        let result := fill (repeat NaN n) (Fin 0) in
        Return
          (for_range 0 (n / 2)
             (fun result k =>
                let t := Fin (-2) * Math_PI * of_nat k / of_nat n in
                let re := Math_cos t in
                let im := Math_sin t in
                let result := set result k (even.[k] + (re * odd.[k] - im * Fin 0)) in
                set result (k + n / 2) (even.[k] - (re * odd.[k] - im * Fin 0)))
             result)
  end.

Definition computeFFT (signal : list num) (samplingRate : num) : outcome (list num) :=
  computeFFT_rec (S (length signal)) signal.

(** ** Message handler *)

(** The [payload] of a message: the two shapes that the hook sends.  A
    payload of the other shape leaves the array that the called function
    reads [undefined]; the method or property read on it is a [TypeError]. *)
Inductive Payload : Type :=
| process_payload (rawSignal : list num) (samplingRate bandpassLow bandpassHigh : num)
    (filterOrder : Z)
| fft_payload (signal : list num) (samplingRate : num).

Record Message : Type := { id : num; type : string; payload : Payload }.

Inductive Result : Type :=
| processed (r : ProcessedSignals)
| spectrum (result : list num).

(** [{ id, result, error }]: [None] stands for [null]. *)
Record Response : Type := {
  response_id : num;
  result : option Result;
  error : option string
}.

Definition undefined_reduce : string :=
  "Cannot read properties of undefined (reading 'reduce')".

Definition undefined_length : string :=
  "Cannot read properties of undefined (reading 'length')".

(** The body of the [try] block of the handler. *)
Definition onmessage_try (type : string) (payload : Payload) : outcome Result :=
  if String.eqb type "processSignal" then
    match payload with
    | process_payload rawSignal samplingRate bandpassLow bandpassHigh filterOrder =>
        r <- processSignal rawSignal samplingRate bandpassLow bandpassHigh filterOrder ;;
        Return (processed r)
    | fft_payload _ _ => Throw ("Signal processing failed: " ++ undefined_reduce)
    end
  else if String.eqb type "computeFFT" then
    match payload with
    | fft_payload signal samplingRate =>
        r <- computeFFT signal samplingRate ;; Return (spectrum r)
    | process_payload _ _ _ _ _ => Throw undefined_length
    end
  else Throw ("Unknown message type: " ++ type).

(** [self.onmessage]: the message posted in answer to [event.data]. *)
Definition onmessage (data : Message) : Response :=
  match onmessage_try (type data) (payload data) with
  | Return r => {| response_id := id data; result := Some r; error := None |}
  | Throw msg => {| response_id := id data; result := None; error := Some msg |}
  end.

End JS.

(* ================================================================== *)
(** * The clients of the workers *)
(* ================================================================== *)

(** ** The hook [useSignalProcessing] ([src/hooks/useSignalProcessing.ts]) *)

Module Hook.

Section UseSignalProcessing.

(** The callbacks stored by the hook: each one settles the promise of the
    call that created it. *)
Variable Callback : Type.

(** Key equality of a [Map]. *)
Definition sameValueZero (x y : num) : bool :=
  match x, y with
  | NaN, NaN => true
  | _, _ => eqb x y
  end.

(** [Map<number, Function>]: bindings in insertion order, one per key. *)
Definition Map : Type := list (num * Callback).

Fixpoint Map_get (m : Map) (key : num) : option Callback :=
  match m with
  | [] => None
  | (k, v) :: rest => if sameValueZero k key then Some v else Map_get rest key
  end.

Fixpoint Map_set (m : Map) (key : num) (value : Callback) : Map :=
  match m with
  | [] => [(key, value)]
  | (k, v) :: rest =>
      if sameValueZero k key then (k, value) :: rest else (k, v) :: Map_set rest key value
  end.

Fixpoint Map_delete (m : Map) (key : num) : Map :=
  match m with
  | [] => []
  | (k, v) :: rest => if sameValueZero k key then rest else (k, v) :: Map_delete rest key
  end.

(** The two refs of the hook that outlive a call. *)
Record refs : Type := {
  messageIdRef : nat;
  pendingCallbacksRef : Map
}.

Definition initial : refs := {| messageIdRef := 0; pendingCallbacksRef := [] |}.

(** The common tail of [processSignalChunk] and [computeFFT] once the worker
    exists: [const id = messageIdRef.current++], the callback stored under
    [id], and the message posted to the worker. *)
Definition postRequest (type : string) (payload : JS.Payload) (callback : Callback)
    (s : refs) : refs * JS.Message :=
  let id := of_nat (messageIdRef s) in
  ({| messageIdRef := S (messageIdRef s);
      pendingCallbacksRef := Map_set (pendingCallbacksRef s) id callback |},
   {| JS.id := id; JS.type := type; JS.payload := payload |}).

(** A setting read from the store is a number or [undefined]; [x || d]. *)
Definition setting_or (setting : option num) (default : num) : num :=
  match setting with
  | Some v => or_else v default
  | None => default
  end.

Definition order_or (setting : option Z) (default : Z) : Z :=
  match setting with
  | Some v => if (v =? 0)%Z then default else v
  | None => default
  end.

Definition processSignalChunk (rawSignal : list num) (samplingRate : num)
    (bandpassLow bandpassHigh : option num) (filterOrder : option Z)
    (callback : Callback) (s : refs) : refs * JS.Message :=
  postRequest "processSignal"
    (JS.process_payload rawSignal samplingRate
       (setting_or bandpassLow (Fin 0.5)) (setting_or bandpassHigh (Fin 4.0))
       (order_or filterOrder 4))
    callback s.

Definition computeFFT (signal : list num) (samplingRate : num)
    (callback : Callback) (s : refs) : refs * JS.Message :=
  postRequest "computeFFT" (JS.fft_payload signal samplingRate) callback s.

(** What a callback does to its promise. *)
Inductive settlement : Type :=
| resolve (result : option JS.Result)
| reject (message : string).

(** [if (error)] on a string or [null]. *)
Definition truthy (error : option string) : bool :=
  match error with
  | Some message => negb (String.eqb message "")
  | None => false
  end.

Definition settle (data : JS.Response) : settlement :=
  if truthy (JS.error data)
  then reject (match JS.error data with Some message => message | None => "" end)
  else resolve (JS.result data).

(** [workerRef.current.onmessage]: the callback stored under the id of the
    answer is called and deleted; an answer without a stored callback is
    dropped. *)
Definition onmessage (data : JS.Response) (s : refs)
  : refs * option (Callback * settlement) :=
  match Map_get (pendingCallbacksRef s) (JS.response_id data) with
  | Some callback =>
      ({| messageIdRef := messageIdRef s;
          pendingCallbacksRef := Map_delete (pendingCallbacksRef s) (JS.response_id data) |},
       Some (callback, settle data))
  | None => (s, None)
  end.

(** The events of a session, and the refs after a sequence of them. *)
Inductive event : Type :=
| request (type : string) (payload : JS.Payload) (callback : Callback)
| answer (data : JS.Response).

Definition step (s : refs) (e : event) : refs :=
  match e with
  | request type payload callback => fst (postRequest type payload callback s)
  | answer data => fst (onmessage data s)
  end.

Definition run (events : list event) : refs := fold_left step events initial.

End UseSignalProcessing.

End Hook.

(** ** The capture screen (component [CameraCapture]) *)

Module Capture.

Local Open Scope num_scope.

(** [estimateHeartRate]: [None] stands for [null]. *)
Definition estimateHeartRate (samplingRate : num) (signal : list num) : option num :=
  if of_nat (length signal) <? samplingRate * Fin 5 then None
  else
    let threshold := reduce (fun a b => a + b) signal (Fin 0) / of_nat (length signal) in
    let '(peaks, wasBelowThreshold) :=
      for_range 1 (length signal)
        (fun '(peaks, wasBelowThreshold) i =>
           if (signal.[i] >? threshold) && wasBelowThreshold then (S peaks, false)
           else if signal.[i] <=? threshold then (peaks, true)
           else (peaks, wasBelowThreshold))
        (0%nat, true) in
    let secondsElapsed := of_nat (length signal) / samplingRate in
    let hr := Math_round ((of_nat peaks / secondsElapsed) * Fin 60) in
    if (hr >? Fin 40) && (hr <? Fin 200) then Some hr else None.

End Capture.

(** ** The model screen: the simulated inference *)

Module Inference.

Local Open Scope num_scope.



End Inference.

(* ================================================================== *)
(** * The cleaning stages of the TypeScript worker over binary64 *)
(* ================================================================== *)

(** The stages of [src/lib/signalWorker.ts] that produce the cleaned signal,
    once more, over the kernel's binary64 numbers: every sum, product and
    quotient rounds and overflows as the IEEE 754 operation of the program
    does.  The definitions follow the source statement by statement, as those
    of [TS] do; they are for the inputs on which rounding or overflow decides
    what the program returns. *)

Module B64.

Import PrimFloat.

Local Open Scope float_scope.

Set Warnings "-inexact-float".

(** A length or an index as a number (exact below 2^53). *)
Definition of_nat (n : nat) : float := of_uint63 (Uint63.of_Z (Z.of_nat n)).

(** [a[i]]: [undefined] outside the array, [NaN] in arithmetic. *)
Definition get (a : list float) (i : nat) : float := nth i a nan.

(** [a[i] = v]. *)
Fixpoint set (a : list float) (i : nat) (v : float) : list float :=
  match a, i with
  | [], O => [v]
  | [], S i' => nan :: set [] i' v
  | _ :: t, O => v :: t
  | h :: t, S i' => h :: set t i' v
  end.

(** [new Array(len)]: a [RangeError] unless [len] is an integer from 0 to
    2^32 - 1. *)
Definition new_Array (len : Z) : outcome (list float) :=
  if (0 <=? len)%Z && (len <? 4294967296)%Z
  then Return (repeat nan (Z.to_nat len))
  else Throw "Invalid array length".

Definition fill (a : list float) (v : float) : list float := map (fun _ => v) a.

Definition reduce (f : float -> float -> float) (a : list float) (init : float) : float :=
  fold_left f a init.

(** [Math.min(...xs)] and [Math.max(...xs)]: [NaN] as soon as one argument
    is [NaN].  (The order of the two zeros and the limit of the engine on
    the number of spread arguments are not modelled.) *)
Definition Math_min2 (x y : float) : float :=
  if is_nan x || is_nan y then nan else if y <? x then y else x.

Definition Math_max2 (x y : float) : float :=
  if is_nan x || is_nan y then nan else if x <? y then y else x.

Definition Math_min (xs : list float) : float := fold_left Math_min2 xs infinity.
Definition Math_max (xs : list float) : float := fold_left Math_max2 xs neg_infinity.

(** [x || y] on numbers: [x] is falsy when it is a zero or [NaN]. *)
Definition or_else (x y : float) : float := if is_nan x || (x =? 0) then y else x.

(** ** Detrending *)

Definition detrend_sums (signal : list float) : float * float * float * float :=
  for_range 0 (length signal)
    (fun '(sumX, sumY, sumXY, sumX2) i =>
       (sumX + of_nat i,
        sumY + get signal i,
        sumXY + of_nat i * get signal i,
        sumX2 + of_nat i * of_nat i))
    (0, 0, 0, 0).

Definition detrend (signal : list float) : list float :=
  let n := length signal in
  if (n <? 2)%nat then signal
  else
    let '(sumX, sumY, sumXY, sumX2) := detrend_sums signal in
    let slope := (of_nat n * sumXY - sumX * sumY) / (of_nat n * sumX2 - sumX * sumX) in
    let intercept := (sumY - slope * sumX) / of_nat n in
    for_range 0 n
      (fun detrended i => set detrended i (get signal i - (slope * of_nat i + intercept)))
      (repeat nan n).

(** ** Outlier pass *)

Definition mean (signal : list float) : float :=
  reduce (fun a b => a + b) signal 0 / of_nat (length signal).

(** [(val - mean) ** 2] is taken as the binary64 product of the difference
    with itself. *)
Definition variance (signal : list float) : float :=
  reduce (fun acc val => acc + (val - mean signal) * (val - mean signal)) signal 0
  / of_nat (length signal).

Definition std (signal : list float) : float := sqrt (variance signal).

Definition zScore (signal : list float) (val : float) : float :=
  abs ((val - mean signal) / std signal).

Definition removeOutliers (signal : list float) (threshold : float) : list float :=
  map (fun val => if threshold <? zScore signal val then mean signal else val) signal.

(** ** Filter design and batch filtering *)

Record coefficients : Type := { b : list float; a : list float }.

Definition designButterworthFilter
    (lowCutoff highCutoff samplingRate : float) (order : Z) : outcome coefficients :=
  let wn1 := (2 * lowCutoff) / samplingRate in
  let wn2 := (2 * highCutoff) / samplingRate in
  let n := order in
  b_new <- new_Array (n + 1) ;;
  a_new <- new_Array (n + 1) ;;
  let b0 := fill b_new 0 in
  let a0 := fill a_new 0 in
  if (n =? 2)%Z then
    Return {| b := set (set (set b0 0 0.2) 1 0.4) 2 0.2;
              a := set (set (set a0 0 1) 1 (-0.8)) 2 0.36 |}
  else if (n =? 4)%Z then
    Return {| b := set (set (set (set (set b0 0 0.1) 1 0.2) 2 0.3) 3 0.2) 4 0.1;
              a := set (set (set (set (set a0 0 1) 1 (-1.5)) 2 1.2) 3 (-0.5)) 4 0.08 |}
  else
    let alpha := wn2 - wn1 in
    Return {| b := set (set b0 0 alpha) 1 alpha;
              a := set (set a0 0 1) 1 (- (1 - alpha)) |}.

Definition iir_sample (signal filtered b a : list float) (i : nat) : float :=
  let numer := length b in
  let denom := length a in
  let y := 0 in
  let y := for_range 0 (Nat.min numer (S i))
             (fun y j => y + get b j * get signal (i - j)) y in
  let y := for_range 1 (Nat.min denom (S i))
             (fun y j => y - get a j * get filtered (i - j)) y in
  y / get a 0.

Definition applyIIRFilter (signal b a : list float) : list float :=
  for_range 0 (length signal)
    (fun filtered i => set filtered i (iir_sample signal filtered b a i))
    (repeat nan (length signal)).

(** ** The cleaned signal of [processSignal] *)

Definition normalize (cleanedSignal : list float) : list float :=
  let min := Math_min cleanedSignal in
  let max := Math_max cleanedSignal in
  let range := or_else (max - min) 1 in
  map (fun val => ((val - min) / range) * 255) cleanedSignal.

(** The statements of [processSignal] up to the normalization: the
    [cleanedSignal] of the object it returns. *)
Definition cleanedSignal
    (rawSignal : list float) (samplingRate bandpassLow bandpassHigh : float)
    (filterOrder : Z) : outcome (list float) :=
  let signal := detrend rawSignal in
  let signal := removeOutliers signal 3 in
  c <- designButterworthFilter bandpassLow bandpassHigh samplingRate filterOrder ;;
  Return (normalize (applyIIRFilter signal (b c) (a c))).

Set Warnings "inexact-float".

End B64.

(* ================================================================== *)
(** * Real-valued counterparts and example inputs *)
(* ================================================================== *)

(** The statements about finite signals are phrased with the sums below,
    over the reals; the lemmas further down relate them to the loops of the
    workers. *)

Section Counterparts.

Local Open Scope R_scope.

(** [acc_sum g a xs]: the value of a [reduce] that adds [g x] for every
    sample [x] to the start value [a]. *)
Definition acc_sum (g : R -> R) (a : R) (xs : list R) : R :=
  fold_left (fun acc x => acc + g x) xs a.

(** [isum f k] is the sum of [f 0 .. f (k - 1)]. *)
Fixpoint isum (f : nat -> R) (k : nat) : R :=
  match k with
  | O => 0
  | S k' => isum f k' + f k'
  end.

Definition all_fin (l : list num) : Prop := Forall is_fin l.

(** Samples that are integers of magnitude at most [bound]: binary64
    represents them, and their sums and differences below 2^53, without
    rounding. *)
Definition integer_samples (bound : Z) (xs : list R) : Prop :=
  forall x, In x xs -> exists z : Z, x = IZR z /\ (Z.abs z <= bound)%Z.

(** Mean and variance of a non-empty finite signal. *)
Definition meanR (xs : list R) : R :=
  acc_sum (fun x => x) 0 xs / IZR (Z.of_nat (length xs)).

Definition varianceR (xs : list R) : R :=
  acc_sum (fun x => (x + - meanR xs) * (x + - meanR xs)) 0 xs / IZR (Z.of_nat (length xs)).

(** Slope and intercept of the line fitted by [TS.detrend], and the
    residuals it returns for a finite signal of at least two samples. *)
Definition slopeR (xs : list R) : R :=
  let n := INR (length xs) in
  (n * isum (fun i => INR i * nth i xs 0) (length xs)
   - isum INR (length xs) * isum (fun i => nth i xs 0) (length xs))
  / (n * isum (fun i => INR i * INR i) (length xs)
     - isum INR (length xs) * isum INR (length xs)).

Definition interceptR (xs : list R) : R :=
  (isum (fun i => nth i xs 0) (length xs) - slopeR xs * isum INR (length xs))
  / INR (length xs).

Definition residuals (xs : list R) : list R :=
  map (fun i => nth i xs 0 + - (slopeR xs * INR i + interceptR xs)) (seq 0 (length xs)).

(** One bin of [TS.computeFFT]: the magnitude of the direct Fourier sum. *)
Definition binR (ps : list R) (N k : nat) : R :=
  let re := isum (fun n => nth n ps 0 * cos (-2 * PI * INR k * INR n / INR N)) N in
  let im := isum (fun n => nth n ps 0 * sin (-2 * PI * INR k * INR n / INR N)) N in
  sqrt (re * re + im * im) / INR N.

(** One pass of a filter object over a signal: [signal.map(x => f.filter(x))]. *)
Definition pass (f : JS.ButterworthFilter) (signal : list num) : list num :=
  fst (JS.map_st JS.filter f signal).

(** The recurrence computed by a filter object whose histories are
    [x = [_, x1, x2]] and [y = [_, y1, y2]]: the second-order direct-form
    difference equation. *)
Fixpoint biquad (b a : list num) (x1 x2 y1 y2 : num) (signal : list num) : list num :=
  match signal with
  | [] => []
  | x0 :: rest =>
      let out :=
        sub (div (add (add (mul b.[0] x0) (mul b.[1] x1)) (mul b.[2] x2)) a.[0])
            (div (add (mul a.[1] y1) (mul a.[2] y2)) a.[0]) in
      out :: biquad b a x0 x1 out y1 rest
  end.

(** The filtered signal in front of the normalization of [TS.processSignal]. *)
Definition filtered_of (payload : TS.ProcessSignalPayload) (c : TS.coefficients) : list num :=
  TS.applyIIRFilter
    (TS.removeOutliers (TS.detrend (TS.rawSignal payload)) (Fin 3)) (TS.b c) (TS.a c).

(** What the spec's sentence on the pipeline describes: the same design
    applied twice in cascade in front of the normalization. *)
Definition cascade_cleaned (payload : TS.ProcessSignalPayload) (c : TS.coefficients)
  : list num :=
  let once :=
    TS.applyIIRFilter (TS.removeOutliers (TS.detrend (TS.rawSignal payload)) (Fin 3))
      (TS.b c) (TS.a c) in
  TS.normalize (TS.applyIIRFilter once (TS.b c) (TS.a c)).

(** The input of the spec's outlier example. *)
Definition spike_input : list num := map Fin [0; 0; 0; 0; 100].

(** The signal of the spec's cross-validation example for the transforms. *)
Definition comb8 : list num := map Fin [1; 0; 0; 0; 1; 0; 0; 0].

(** A run of the JavaScript worker, [processSignal([1, -1], 4, 0.5, 1.5, 2)]:
    the raw signal and the filter object its design yields
    ([tan (PI / 4) = 1]). *)
Definition swing : list num := [Fin 1; Fin (-1)].

Definition unit_band : JS.ButterworthFilter :=
  {| JS.samplingRate := Fin 4; JS.lowCutoff := Fin 0.5; JS.highCutoff := Fin 1.5;
     JS.order := 2;
     JS.b := [Fin 1; Fin 0; Fin (-1)];
     JS.a := [Fin 1; Fin 0; Fin 0];
     JS.x := [Fin 0; Fin 0; Fin 0];
     JS.y := [Fin 0; Fin 0; Fin 0] |}.

(** A run of the TypeScript worker on [[1, -1, -1, 1]] at 30 Hz with the
    order-2 table of its designer. *)
Definition zigzag : list num := map Fin [1; -1; -1; 1].

Definition table2 : TS.coefficients :=
  {| TS.b := [Fin 0.2; Fin 0.4; Fin 0.2]; TS.a := [Fin 1; Fin (-0.8); Fin 0.36] |}.

Definition zigzag_payload : TS.ProcessSignalPayload :=
  {| TS.rawSignal := zigzag; TS.samplingRate := Fin 30;
     TS.bandpassLow := Fin 0.5; TS.bandpassHigh := Fin 4; TS.filterOrder := 2 |}.

End Counterparts.

(* ================================================================== *)
(** * The batch filter, sample by sample *)
(* ================================================================== *)

Section FilterCounterparts.

Local Open Scope R_scope.

(** The first [k] output samples of [TS.applyIIRFilter], one after the
    other: sample [k] is computed from the samples in front of it. *)
Fixpoint iir_prefix (signal b a : list num) (k : nat) : list num :=
  match k with
  | O => []
  | S k' =>
      let filtered := iir_prefix signal b a k' in
      filtered ++ [TS.iir_sample signal filtered b a k']
  end.

End FilterCounterparts.

(* ================================================================== *)
(** * Counterparts of the mean-and-slope removal *)
(* ================================================================== *)

Section DetrendCounterparts.

Local Open Scope R_scope.




(** The samples [p, p + q, p + 2 q, ...] of a straight line. *)
Definition ramp (p q : R) (n : nat) : list R := map (fun i => p + q * INR i) (seq 0 n).

End DetrendCounterparts.

(* ================================================================== *)
(** * Evaluation of the number operations on finite values *)
(* ================================================================== *)

Section NumFacts.

Local Open Scope R_scope.

Lemma sgn_Pos (r : R) : 0 < r -> sgn r = Pos.
Proof.
  intros H. unfold sgn. destruct (total_order_T r 0) as [[Hlt | Heq] | Hgt]; try lra; reflexivity.
Qed.

Lemma sgn_Neg (r : R) : r < 0 -> sgn r = Neg.
Proof.
  intros H. unfold sgn. destruct (total_order_T r 0) as [[Hlt | Heq] | Hgt]; try lra; reflexivity.
Qed.

Lemma sgn_Zer (r : R) : r = 0 -> sgn r = Zer.
Proof.
  intros H. unfold sgn. destruct (total_order_T r 0) as [[Hlt | Heq] | Hgt]; try lra; reflexivity.
Qed.

Lemma div_Fin (p q : R) : q <> 0 -> div (Fin p) (Fin q) = Fin (p / q).
Proof.
  intros H. unfold div. destruct (total_order_T q 0) as [[Hlt | Heq] | Hgt].
  - rewrite sgn_Neg by assumption. reflexivity.
  - contradiction.
  - rewrite sgn_Pos by assumption. reflexivity.
Qed.

Lemma div_Fin_zero_zero (p q : R) : p = 0 -> q = 0 -> div (Fin p) (Fin q) = NaN.
Proof.
  intros Hp Hq. unfold div. rewrite (sgn_Zer Hq), (sgn_Zer Hp). reflexivity.
Qed.

Lemma ltb_Fin_true (p q : R) : p < q -> ltb (Fin p) (Fin q) = true.
Proof. intros H. unfold ltb. destruct (Rlt_dec p q); [reflexivity | contradiction]. Qed.

Lemma ltb_Fin_false (p q : R) : q <= p -> ltb (Fin p) (Fin q) = false.
Proof. intros H. unfold ltb. destruct (Rlt_dec p q); [lra | reflexivity]. Qed.

Lemma ltb_Fin_iff (p q : R) : ltb (Fin p) (Fin q) = true <-> p < q.
Proof.
  unfold ltb. destruct (Rlt_dec p q); split; intros; try assumption; try reflexivity;
    try discriminate; contradiction.
Qed.

Lemma eqb_Fin_true (p q : R) : p = q -> eqb (Fin p) (Fin q) = true.
Proof. intros H. unfold eqb. destruct (Req_dec_T p q); [reflexivity | contradiction]. Qed.

Lemma eqb_Fin_false (p q : R) : p <> q -> eqb (Fin p) (Fin q) = false.
Proof. intros H. unfold eqb. destruct (Req_dec_T p q); [contradiction | reflexivity]. Qed.

Lemma leb_Fin_true (p q : R) : p <= q -> leb (Fin p) (Fin q) = true.
Proof.
  intros [H | H]; unfold leb.
  - rewrite ltb_Fin_true by assumption. reflexivity.
  - rewrite eqb_Fin_true by assumption. apply orb_true_r.
Qed.

Lemma leb_Fin_false (p q : R) : q < p -> leb (Fin p) (Fin q) = false.
Proof.
  intros H. unfold leb. rewrite ltb_Fin_false by lra. rewrite eqb_Fin_false by lra. reflexivity.
Qed.

Lemma leb_Fin_iff (p q : R) : leb (Fin p) (Fin q) = true <-> p <= q.
Proof.
  split.
  - intros H. destruct (Rle_dec p q) as [Hle | Hn]; [assumption |].
    rewrite leb_Fin_false in H by lra. discriminate.
  - apply leb_Fin_true.
Qed.

Lemma sqrt_Fin (p : R) : 0 <= p -> Math_sqrt (Fin p) = Fin (sqrt p).
Proof.
  intros [H | H]; unfold Math_sqrt.
  - rewrite sgn_Pos by assumption. reflexivity.
  - rewrite sgn_Zer by (symmetry; assumption). reflexivity.
Qed.

Lemma log10_Fin (p : R) : 0 < p -> Math_log10 (Fin p) = Fin (ln p / ln 10).
Proof. intros H. unfold Math_log10. rewrite sgn_Pos by assumption. reflexivity. Qed.

Lemma falsy_Fin_true (p : R) : p = 0 -> falsy (Fin p) = true.
Proof. intros H. unfold falsy. destruct (Req_dec_T p 0); [reflexivity | contradiction]. Qed.

Lemma falsy_Fin_false (p : R) : p <> 0 -> falsy (Fin p) = false.
Proof. intros H. unfold falsy. destruct (Req_dec_T p 0); [contradiction | reflexivity]. Qed.

Lemma Fin_inj (p q : R) : Fin p = Fin q -> p = q.
Proof. intros H. injection H. trivial. Qed.

Lemma Fin_eq (p q : R) : p = q -> Fin p = Fin q.
Proof. intros H. rewrite H. reflexivity. Qed.

Lemma of_nat_INR (n : nat) : of_nat n = Fin (INR n).
Proof. unfold of_nat, of_Z. rewrite INR_IZR_INZ. reflexivity. Qed.

Lemma ltb_Fin_abs_false (c e : R) : - c <= e <= c -> ltb (Fin c) (Fin (Rabs e)) = false.
Proof.
  intros H. apply ltb_Fin_false. unfold Rabs. destruct (Rcase_abs e); lra.
Qed.

Lemma ltb_Fin_abs_true (c e : R) : c < e \/ e < - c -> ltb (Fin c) (Fin (Rabs e)) = true.
Proof.
  intros H. apply ltb_Fin_true. unfold Rabs. destruct (Rcase_abs e); lra.
Qed.

Lemma min2_Fin_l (p q : R) : p <= q -> Math_min2 (Fin p) (Fin q) = Fin p.
Proof. intros H. unfold Math_min2. rewrite ltb_Fin_false by exact H. reflexivity. Qed.

Lemma min2_Fin_r (p q : R) : q < p -> Math_min2 (Fin p) (Fin q) = Fin q.
Proof. intros H. unfold Math_min2. rewrite ltb_Fin_true by exact H. reflexivity. Qed.

Lemma max2_Fin_l (p q : R) : q <= p -> Math_max2 (Fin p) (Fin q) = Fin p.
Proof. intros H. unfold Math_max2. rewrite ltb_Fin_false by exact H. reflexivity. Qed.

Lemma max2_Fin_r (p q : R) : p < q -> Math_max2 (Fin p) (Fin q) = Fin q.
Proof. intros H. unfold Math_max2. rewrite ltb_Fin_true by exact H. reflexivity. Qed.

Lemma tan_Fin (p : R) : cos p <> 0 -> Math_tan (Fin p) = Fin (tan p).
Proof.
  intros H. unfold Math_tan.
  destruct (total_order_T (cos p) 0) as [[Hlt | Heq] | Hgt].
  - rewrite sgn_Neg by exact Hlt. reflexivity.
  - contradiction.
  - rewrite sgn_Pos by exact Hgt. reflexivity.
Qed.

Lemma sqrt_sq_sum (p q v : R) : p = v -> q = 0 -> 0 <= v -> sqrt (p * p + q * q) = v.
Proof. intros -> -> Hv. apply sqrt_lem_1; nra. Qed.

Lemma sqrt_Fin_sq (p q : R) : Math_sqrt (Fin (p * p + q * q)) = Fin (sqrt (p * p + q * q)).
Proof. apply sqrt_Fin. apply Rplus_le_le_0_compat; apply Rle_0_sqr. Qed.

(** Samples between -10 and 10 are within every magnitude limit [10 ^ k]. *)
Lemma within_magnitude (x : R) (k : nat) :
  (1 <= k)%nat -> -10 <= x <= 10 -> Rabs x <= 10 ^ k.
Proof.
  intros Hk Hx. apply Rle_trans with (10 ^ 1).
  - simpl. apply Rabs_le. lra.
  - apply Rle_pow; [lra | exact Hk].
Qed.

End NumFacts.

(** ** Evaluation at concrete inputs *)

(** Closed numerals of the program text: [of_nat 5] reads [Fin 5]. *)
Ltac is_nat_literal n :=
  lazymatch n with
  | O => idtac
  | S ?m => is_nat_literal m
  end.

Ltac of_nat_eval :=
  repeat match goal with
  | |- context [of_nat ?n] =>
      is_nat_literal n;
      let z := eval cbv in (Z.of_nat n) in change (of_nat n) with (Fin (IZR z))
  end.

(** Arithmetic on finite constants; side conditions are closed inequalities. *)
Ltac num_eval :=
  repeat first
    [ rewrite div_Fin by lra
    | progress cbn [add sub mul neg Math_abs] ].

(** [Math.min(...xs)] and [Math.max(...xs)] of a list of finite constants. *)
Ltac minmax_eval :=
  unfold Math_min, Math_max; cbn [map fold_left];
  change (Math_min2 PInf (Fin ?v)) with (Fin v);
  change (Math_max2 NInf (Fin ?v)) with (Fin v);
  repeat first
    [ rewrite min2_Fin_l by lra | rewrite min2_Fin_r by lra
    | rewrite max2_Fin_l by lra | rewrite max2_Fin_r by lra ].

(** Equality of two lists of finite constants, element by element. *)
Ltac fin_list :=
  repeat first
    [ reflexivity
    | apply Fin_eq; first [lra | unfold Q2R; cbn [Qnum Qden]; field; lra]
    | apply f_equal2 ].

(** One magnitude [sqrt (re * re + im * im) / n] with [re = v], [im = 0]. *)
Ltac bin_val v :=
  apply Fin_eq; rewrite (sqrt_sq_sum (v := v%R)) by lra; lra.

(* ================================================================== *)
(** * Sums over finite signals *)
(* ================================================================== *)

Section Sums.

Local Open Scope R_scope.

Lemma acc_sum_shift (g : R -> R) (xs : list R) (a : R) :
  acc_sum g a xs = a + acc_sum g 0 xs.
Proof.
  unfold acc_sum. revert a. induction xs as [| x xs IH]; intros a; simpl.
  - lra.
  - rewrite IH. rewrite (IH (0 + g x)). lra.
Qed.

Lemma acc_sum_cons (g : R -> R) (x : R) (xs : list R) :
  acc_sum g 0 (x :: xs) = g x + acc_sum g 0 xs.
Proof.
  unfold acc_sum at 1. simpl. fold (acc_sum g (0 + g x) xs).
  rewrite acc_sum_shift. lra.
Qed.

Lemma acc_sum_nonneg (g : R -> R) (xs : list R) :
  (forall x, 0 <= g x) -> 0 <= acc_sum g 0 xs.
Proof.
  intros Hg. induction xs as [| x xs IH].
  - unfold acc_sum. simpl. lra.
  - rewrite acc_sum_cons. specialize (Hg x). lra.
Qed.

Lemma acc_sum_zero (g : R -> R) (xs : list R) :
  (forall x, 0 <= g x) -> acc_sum g 0 xs = 0 -> forall x, In x xs -> g x = 0.
Proof.
  intros Hg. induction xs as [| y xs IH]; intros Hsum x Hin.
  - destruct Hin.
  - rewrite acc_sum_cons in Hsum.
    pose proof (acc_sum_nonneg g xs Hg) as Hrest. pose proof (Hg y) as Hy.
    destruct Hin as [-> | Hin].
    + lra.
    + apply IH; [lra | assumption].
Qed.

(** A [reduce] over finite samples whose step maps finite values to finite
    values is a finite sum. *)
Lemma reduce_Fin (f : num -> num) (g : R -> R) (xs : list R) (a : R) :
  (forall x, f (Fin x) = Fin (g x)) ->
  reduce (fun acc v => add acc (f v)) (map Fin xs) (Fin a) = Fin (acc_sum g a xs).
Proof.
  intros Hf. unfold reduce, acc_sum. revert a.
  induction xs as [| x xs IH]; intros a; simpl.
  - reflexivity.
  - rewrite Hf. simpl. apply IH.
Qed.

Lemma length_pos_INR (A : Type) (l : list A) : l <> [] -> 0 < IZR (Z.of_nat (length l)).
Proof.
  intros H. destruct l as [| h t]; [contradiction |].
  apply IZR_lt. simpl length. lia.
Qed.

End Sums.

(* ================================================================== *)
(** * Counting loops and arrays filled by index *)
(* ================================================================== *)

Section Loops.

Lemma for_range_0_S {S : Type} (body : S -> nat -> S) (init : S) (k : nat) :
  for_range 0 (Datatypes.S k) body init = body (for_range 0 k body init) k.
Proof.
  unfold for_range. rewrite !Nat.sub_0_r. rewrite seq_S, fold_left_app. reflexivity.
Qed.

Lemma for_range_0_0 {S : Type} (body : S -> nat -> S) (init : S) :
  for_range 0 0 body init = init.
Proof. reflexivity. Qed.

Lemma for_range_empty {S : Type} (body : S -> nat -> S) (init : S) (lo hi : nat) :
  (hi <= lo)%nat -> for_range lo hi body init = init.
Proof.
  intros H. unfold for_range. replace (hi - lo)%nat with 0%nat by lia. reflexivity.
Qed.

Lemma for_range_S {S : Type} (body : S -> nat -> S) (init : S) (lo hi : nat) :
  (lo <= hi)%nat ->
  for_range lo (Datatypes.S hi) body init = body (for_range lo hi body init) hi.
Proof.
  intros H. unfold for_range.
  replace (Datatypes.S hi - lo)%nat with (Datatypes.S (hi - lo)) by lia.
  rewrite seq_S, fold_left_app. simpl. replace (lo + (hi - lo))%nat with hi by lia.
  reflexivity.
Qed.

Lemma set_length_in (l : list num) (i : nat) (v : num) :
  (i < length l)%nat -> length (set l i v) = length l.
Proof.
  revert i. induction l as [| h t IH]; intros i Hi; simpl in Hi; [lia |].
  destruct i as [| i]; simpl; [reflexivity |]. rewrite IH by lia. reflexivity.
Qed.

Lemma set_app_head (l1 l2 : list num) (d v : num) :
  set (l1 ++ d :: l2) (length l1) v = l1 ++ v :: l2.
Proof.
  induction l1 as [| h t IH]; simpl; [reflexivity |]. rewrite IH. reflexivity.
Qed.

(** A loop that assigns [g i] to every index of a fresh array of length [n]
    produces the array of the values [g 0 .. g (n - 1)], provided that [g i]
    reads the array under construction below index [i] only. *)
Lemma fill_loop_prefix (g : list num -> nat -> num) (h : nat -> num) (d : num) (n k : nat) :
  (k <= n)%nat ->
  (forall i l2, (i < k)%nat -> g (map h (seq 0 i) ++ l2) i = h i) ->
  for_range 0 k (fun arr i => set arr i (g arr i)) (repeat d n)
  = map h (seq 0 k) ++ repeat d (n - k).
Proof.
  induction k as [| k IH]; intros Hk Hg.
  - rewrite for_range_0_0. rewrite Nat.sub_0_r. reflexivity.
  - rewrite for_range_0_S. rewrite IH by (try lia; intros i l2 Hi; apply Hg; lia).
    rewrite Hg by lia.
    replace (n - k)%nat with (Datatypes.S (n - Datatypes.S k)) by lia.
    cbn [repeat].
    replace k with (length (map h (seq 0 k))) at 3
      by (rewrite length_map, length_seq; reflexivity).
    rewrite set_app_head. rewrite seq_S, map_app. cbn [map Nat.add].
    rewrite <- app_assoc. reflexivity.
Qed.

Lemma fill_loop (g : list num -> nat -> num) (h : nat -> num) (d : num) (n : nat) :
  (forall i l2, (i < n)%nat -> g (map h (seq 0 i) ++ l2) i = h i) ->
  for_range 0 n (fun arr i => set arr i (g arr i)) (repeat d n) = map h (seq 0 n).
Proof.
  intros Hg. rewrite (fill_loop_prefix g h d (le_n n) Hg).
  rewrite Nat.sub_diag. apply app_nil_r.
Qed.

Lemma get_map_Fin (xs : list R) (i : nat) :
  (i < length xs)%nat -> (map Fin xs).[i] = Fin (nth i xs 0%R).
Proof.
  intros Hi. unfold get.
  rewrite (nth_indep (map Fin xs) NaN (Fin 0%R)) by (rewrite length_map; exact Hi).
  apply (map_nth Fin).
Qed.

Lemma map_Fin_seq (xs : list R) :
  map Fin xs = map (fun i => Fin (nth i xs 0%R)) (seq 0 (length xs)).
Proof.
  apply nth_ext with (d := Fin 0%R) (d' := Fin 0%R).
  - rewrite !length_map, length_seq. reflexivity.
  - intros i Hi. rewrite length_map in Hi.
    rewrite (map_nth Fin).
    rewrite (nth_indep _ (Fin 0%R) ((fun i => Fin (nth i xs 0%R)) 0%nat))
      by (rewrite length_map, length_seq; exact Hi).
    rewrite (map_nth (fun i => Fin (nth i xs 0%R))).
    rewrite seq_nth by exact Hi. reflexivity.
Qed.

End Loops.

(* ================================================================== *)
(** * Finite values and finite arrays *)
(* ================================================================== *)

Section Finite.

Local Open Scope R_scope.

Lemma is_fin_inv (x : num) : is_fin x -> exists r, x = Fin r.
Proof. destruct x; simpl; intros H; try contradiction. eexists; reflexivity. Qed.

Lemma is_fin_add (x y : num) : is_fin x -> is_fin y -> is_fin (add x y).
Proof. destruct x, y; simpl; intros Hx Hy; try contradiction; exact I. Qed.

Lemma is_fin_neg (x : num) : is_fin x -> is_fin (neg x).
Proof. destruct x; simpl; trivial. Qed.

Lemma is_fin_sub (x y : num) : is_fin x -> is_fin y -> is_fin (sub x y).
Proof. intros Hx Hy. unfold sub. apply is_fin_add; [exact Hx | apply is_fin_neg; exact Hy]. Qed.

Lemma is_fin_mul (x y : num) : is_fin x -> is_fin y -> is_fin (mul x y).
Proof. destruct x, y; simpl; intros Hx Hy; try contradiction; exact I. Qed.

Lemma is_fin_div (x : num) (q : R) : is_fin x -> q <> 0 -> is_fin (div x (Fin q)).
Proof.
  intros Hx Hq. destruct (is_fin_inv x Hx) as [p ->]. rewrite div_Fin by exact Hq. exact I.
Qed.

Lemma all_fin_map_Fin (rs : list R) : all_fin (map Fin rs).
Proof. unfold all_fin. apply Forall_forall. intros x Hx.
  apply in_map_iff in Hx. destruct Hx as [r [<- _]]. exact I.
Qed.

Lemma all_fin_inv (l : list num) : all_fin l -> exists rs, l = map Fin rs.
Proof.
  unfold all_fin. induction l as [| x l IH]; intros H.
  - exists []. reflexivity.
  - inversion H as [| ? ? Hx Hl]; subst.
    destruct (is_fin_inv x Hx) as [r ->]. destruct (IH Hl) as [rs ->].
    exists (r :: rs). reflexivity.
Qed.

Lemma all_fin_get (l : list num) (i : nat) :
  all_fin l -> (i < length l)%nat -> is_fin l.[i].
Proof.
  intros Hl Hi. unfold get. unfold all_fin in Hl. rewrite Forall_forall in Hl.
  apply Hl. apply nth_In. exact Hi.
Qed.

Lemma all_fin_set (l : list num) (i : nat) (v : num) :
  all_fin l -> is_fin v -> (i <= length l)%nat -> all_fin (set l i v).
Proof.
  unfold all_fin. revert i. induction l as [| h t IH]; intros i Hl Hv Hi.
  - simpl in Hi. replace i with 0%nat by lia. simpl. constructor; [exact Hv | constructor].
  - inversion Hl as [| ? ? Hh Ht]; subst. destruct i as [| i]; simpl.
    + constructor; assumption.
    + constructor; [exact Hh |]. apply IH; [exact Ht | exact Hv | simpl in Hi; lia].
Qed.

Lemma set_length_le (l : list num) (i : nat) (v : num) :
  (i <= length l)%nat -> length (set l i v) = Nat.max (length l) (S i).
Proof.
  revert i. induction l as [| h t IH]; intros i Hi.
  - simpl in Hi. replace i with 0%nat by lia. reflexivity.
  - destruct i as [| i]; simpl.
    + lia.
    + rewrite IH by (simpl in Hi; lia). lia.
Qed.

Lemma get_set_same (l : list num) (i : nat) (v : num) :
  (i <= length l)%nat -> (set l i v).[i] = v.
Proof.
  unfold get. revert i. induction l as [| h t IH]; intros i Hi.
  - simpl in Hi. replace i with 0%nat by lia. reflexivity.
  - destruct i as [| i]; simpl; [reflexivity |]. apply IH. simpl in Hi. lia.
Qed.

Lemma get_set_other (l : list num) (i j : nat) (v : num) :
  (i <= length l)%nat -> i <> j -> (set l i v).[j] = l.[j].
Proof.
  unfold get. revert i j. induction l as [| h t IH]; intros i j Hi Hij.
  - simpl in Hi. replace i with 0%nat in * by lia. destruct j as [| j]; [contradiction |].
    simpl. destruct j; reflexivity.
  - destruct i as [| i], j as [| j]; simpl; try reflexivity; try contradiction.
    apply IH; [simpl in Hi; lia | lia].
Qed.

(** An invariant of a counting loop. *)
Lemma for_range_invariant {S : Type} (P : S -> Prop) (lo hi : nat)
    (body : S -> nat -> S) (init : S) :
  P init ->
  (forall s i, (lo <= i < hi)%nat -> P s -> P (body s i)) ->
  P (for_range lo hi body init).
Proof.
  intros Hinit Hstep.
  destruct (Nat.le_gt_cases hi lo) as [Hle | Hlt].
  - rewrite for_range_empty by exact Hle. exact Hinit.
  - assert (H : forall k, (lo <= k <= hi)%nat -> P (for_range lo k body init)).
    { induction k as [| k IH]; intros Hk.
      - rewrite for_range_empty by lia. exact Hinit.
      - destruct (Nat.eq_dec lo (Datatypes.S k)) as [-> | Hne].
        + rewrite for_range_empty by lia. exact Hinit.
        + rewrite for_range_S by lia. apply Hstep; [lia |]. apply IH. lia. }
    apply H. lia.
Qed.

End Finite.

(* ================================================================== *)
(** * The outlier pass ([TS.removeOutliers]) *)
(* ================================================================== *)

Section Outliers.

Local Open Scope R_scope.

Lemma ltb_NaN_r (x : num) : ltb x NaN = false.
Proof. destruct x; reflexivity. Qed.

Lemma removeOutliers_length (signal : list num) (threshold : num) :
  length (TS.removeOutliers signal threshold) = length signal.
Proof. unfold TS.removeOutliers. apply length_map. Qed.

Lemma mean_Fin (xs : list R) : xs <> [] -> TS.mean (map Fin xs) = Fin (meanR xs).
Proof.
  intros Hne. unfold TS.mean, meanR.
  rewrite (reduce_Fin (fun v => v) (fun x => x)) by reflexivity.
  rewrite length_map. unfold of_nat, of_Z.
  apply div_Fin. pose proof (length_pos_INR Hne). lra.
Qed.

Lemma variance_Fin (xs : list R) : xs <> [] -> TS.variance (map Fin xs) = Fin (varianceR xs).
Proof.
  intros Hne. unfold TS.variance, varianceR. rewrite (mean_Fin Hne).
  rewrite (reduce_Fin (fun v => Math_pow (sub v (Fin (meanR xs))) 2)
             (fun x => (x + - meanR xs) * (x + - meanR xs))) by reflexivity.
  rewrite length_map. unfold of_nat, of_Z.
  apply div_Fin. pose proof (length_pos_INR Hne). lra.
Qed.

Lemma varianceR_nonneg (xs : list R) : xs <> [] -> 0 <= varianceR xs.
Proof.
  intros Hne. unfold varianceR.
  pose proof (length_pos_INR Hne) as Hn.
  apply Rmult_le_pos.
  - apply acc_sum_nonneg. intros x. apply (Rle_0_sqr (x + - meanR xs)).
  - left. apply Rinv_0_lt_compat. exact Hn.
Qed.

Lemma std_Fin (xs : list R) : xs <> [] -> TS.std (map Fin xs) = Fin (sqrt (varianceR xs)).
Proof.
  intros Hne. unfold TS.std. rewrite (variance_Fin Hne).
  apply sqrt_Fin. apply varianceR_nonneg. exact Hne.
Qed.

(** A zero standard deviation forces every sample onto the mean. *)
Lemma zero_std_constant (xs : list R) :
  xs <> [] -> TS.std (map Fin xs) = Fin 0 -> forall x, In x xs -> x = meanR xs.
Proof.
  intros Hne Hstd x Hin.
  rewrite (std_Fin Hne) in Hstd. apply Fin_inj in Hstd.
  pose proof (varianceR_nonneg Hne) as Hv.
  apply sqrt_eq_0 in Hstd; [| exact Hv].
  pose proof (length_pos_INR Hne) as Hn.
  assert (Hsum : acc_sum (fun x => (x + - meanR xs) * (x + - meanR xs)) 0 xs = 0).
  { unfold varianceR in Hstd. unfold Rdiv in Hstd.
    apply Rmult_integral in Hstd. destruct Hstd as [H | H]; [exact H |].
    exfalso. apply (Rinv_neq_0_compat (IZR (Z.of_nat (length xs)))); [lra | exact H]. }
  pose proof (acc_sum_zero (fun x => (x + - meanR xs) * (x + - meanR xs)) xs
                (fun y => Rle_0_sqr (y + - meanR xs)) Hsum x Hin) as Hx.
  simpl in Hx. nra.
Qed.

Lemma acc_sum_repeat (g : R -> R) (c : R) (n : nat) :
  acc_sum g 0 (repeat c n) = INR n * g c.
Proof.
  induction n as [| n IH].
  - unfold acc_sum. simpl. lra.
  - cbn [repeat]. rewrite acc_sum_cons, IH, S_INR. lra.
Qed.

Lemma repeat_Fin (c : R) (n : nat) : repeat (Fin c) n = map Fin (repeat c n).
Proof. induction n as [| n IH]; [reflexivity |]. cbn [repeat map]. rewrite IH. reflexivity. Qed.

(** A constant signal has standard deviation zero. *)
Lemma constant_std (c : R) (n : nat) : TS.std (map Fin (repeat c (S n))) = Fin 0.
Proof.
  rewrite std_Fin by discriminate. apply Fin_eq.
  assert (Hn : 0 < INR (S n)) by (apply lt_0_INR; lia).
  assert (Hm : meanR (repeat c (S n)) = c).
  { unfold meanR. rewrite acc_sum_repeat, repeat_length, <- INR_IZR_INZ. field. lra. }
  assert (Hv : varianceR (repeat c (S n)) = 0).
  { unfold varianceR. rewrite Hm, acc_sum_repeat, repeat_length, <- INR_IZR_INZ. field. lra. }
  rewrite Hv. apply sqrt_0.
Qed.

End Outliers.

Section OutlierClaims.

Local Open Scope R_scope.

Lemma spike_mean : TS.mean spike_input = Fin 20.
Proof.
  unfold TS.mean, reduce, spike_input. cbn. of_nat_eval.
  rewrite div_Fin by lra. apply Fin_eq. lra.
Qed.

Lemma spike_std : TS.std spike_input = Fin 40.
Proof.
  unfold TS.std, TS.variance. rewrite spike_mean. unfold reduce, spike_input. cbn.
  of_nat_eval. rewrite div_Fin by lra. rewrite sqrt_Fin by lra. apply Fin_eq.
  apply sqrt_lem_1; lra.
Qed.

Lemma spike_zScore : TS.zScore spike_input (Fin 100) = Fin 2.
Proof.
  unfold TS.zScore. rewrite spike_mean, spike_std. cbn.
  rewrite div_Fin by lra. cbn. apply Fin_eq.
  replace ((100 + - (20)) / 40) with 2 by lra. apply Rabs_pos_eq. lra.
Qed.

Lemma spike_zScore_zero : TS.zScore spike_input (Fin 0) = Fin (1 / 2).
Proof.
  unfold TS.zScore. rewrite spike_mean, spike_std. cbn.
  rewrite div_Fin by lra. cbn. apply Fin_eq.
  replace ((0 + - (20)) / 40) with (- (1 / 2)) by lra.
  rewrite Rabs_Ropp. apply Rabs_pos_eq. lra.
Qed.

Lemma spike_unchanged : TS.removeOutliers spike_input (Fin 3) = spike_input.
Proof.
  unfold TS.removeOutliers.
  change (map _ spike_input) with
    [ (if gtb (TS.zScore spike_input (Fin 0)) (Fin 3) then TS.mean spike_input else Fin 0);
      (if gtb (TS.zScore spike_input (Fin 0)) (Fin 3) then TS.mean spike_input else Fin 0);
      (if gtb (TS.zScore spike_input (Fin 0)) (Fin 3) then TS.mean spike_input else Fin 0);
      (if gtb (TS.zScore spike_input (Fin 0)) (Fin 3) then TS.mean spike_input else Fin 0);
      (if gtb (TS.zScore spike_input (Fin 100)) (Fin 3) then TS.mean spike_input else Fin 100) ].
  rewrite spike_zScore, spike_zScore_zero. unfold gtb.
  rewrite !ltb_Fin_false by lra. reflexivity.
Qed.

(** C1 (as stated, refuted): on [[0,0,0,0,100]] with threshold 3 the pass does
    not put the mean in the place of the sample 100. *)
Lemma C1_spike_not_replaced :
  ~ ((TS.removeOutliers spike_input (Fin 3)).[4] = TS.mean spike_input
     /\ length (TS.removeOutliers spike_input (Fin 3)) = length spike_input).
Proof.
  rewrite spike_unchanged, spike_mean. intros [H _].
  unfold spike_input in H. cbn in H. apply Fin_inj in H. lra.
Qed.

(** C1 (amended): on [[0,0,0,0,100]] the mean is 20 and the population
    standard deviation 40, so the z-score of the sample 100 is 2, which does not
    exceed the threshold 3: [removeOutliers] returns the input unchanged, and
    five samples go in and five come out. *)
Theorem C1_spike_kept :
  TS.mean spike_input = Fin 20
  /\ TS.std spike_input = Fin 40
  /\ TS.zScore spike_input (Fin 100) = Fin 2
  /\ TS.removeOutliers spike_input (Fin 3) = spike_input
  /\ length (TS.removeOutliers spike_input (Fin 3)) = 5%nat.
Proof.
  split; [exact spike_mean |].
  split; [exact spike_std |].
  split; [exact spike_zScore |].
  split; [exact spike_unchanged |].
  rewrite removeOutliers_length. reflexivity.
Qed.

Lemma zero_std_unchanged (xs : list R) (threshold : num) :
  xs <> [] ->
  TS.std (map Fin xs) = Fin 0 ->
  (forall x, In x xs -> TS.zScore (map Fin xs) (Fin x) = NaN)
  /\ TS.removeOutliers (map Fin xs) threshold = map Fin xs.
Proof.
  intros Hne Hstd.
  assert (Hz : forall x, In x xs -> TS.zScore (map Fin xs) (Fin x) = NaN).
  { intros x Hin. unfold TS.zScore. rewrite Hstd, (mean_Fin Hne).
    pose proof (zero_std_constant Hne Hstd x Hin) as Hx.
    cbn. rewrite div_Fin_zero_zero by lra. reflexivity. }
  split; [exact Hz |].
  unfold TS.removeOutliers.
  transitivity (map (fun v : num => v) (map Fin xs)); [| apply map_id].
  apply map_ext_in. intros v Hv.
  apply in_map_iff in Hv. destruct Hv as [x [<- Hin]].
  rewrite (Hz x Hin). unfold gtb. rewrite ltb_NaN_r. reflexivity.
Qed.

(** C10 (amended): [removeOutliers] cannot fail: for every signal and
    threshold it returns a list of the length of the signal.  A constant
    signal whose sample is an integer [c] with [n * |c| <= 2^53] ([n] the
    number of samples, at least one) is returned unchanged, for every
    threshold: the sums of the mean are exact, the computed mean is [c], the
    standard deviation is 0, each z-score is the quotient [0 / 0], that is
    [NaN], and no comparison with [NaN] holds.  (For other constant signals
    the rounding of the mean decides.) *)
Theorem C10_zero_std_unchanged (signal : list num) (threshold : num) (c : Z) (n : nat) :
  length (TS.removeOutliers signal threshold) = length signal
  /\ ((Z.abs c * Z.of_nat (S n) <= 2 ^ 53)%Z ->
      TS.mean (repeat (of_Z c) (S n)) = of_Z c
      /\ TS.std (repeat (of_Z c) (S n)) = Fin 0
      /\ (forall x, In x (repeat (of_Z c) (S n)) ->
            TS.zScore (repeat (of_Z c) (S n)) x = NaN)
      /\ TS.removeOutliers (repeat (of_Z c) (S n)) threshold = repeat (of_Z c) (S n)).
Proof.
  split; [apply removeOutliers_length |].
  intros _. unfold of_Z. rewrite repeat_Fin.
  assert (Hne : repeat (IZR c) (S n) <> []) by discriminate.
  pose proof (constant_std (IZR c) n) as Hstd.
  destruct (zero_std_unchanged threshold Hne Hstd) as [Hz Hsame].
  split; [| split; [exact Hstd | split; [| exact Hsame]]].
  - rewrite (mean_Fin Hne). apply Fin_eq. symmetry.
    apply (zero_std_constant Hne Hstd). left. reflexivity.
  - intros x Hx. apply in_map_iff in Hx. destruct Hx as [r [<- Hr]].
    apply Hz. exact Hr.
Qed.

Lemma C10_zero_std_unchanged_witness :
  TS.mean (repeat (of_Z 5) 3) = of_Z 5
  /\ TS.std (repeat (of_Z 5) 3) = Fin 0
  /\ (forall x, In x (repeat (of_Z 5) 3) -> TS.zScore (repeat (of_Z 5) 3) x = NaN)
  /\ TS.removeOutliers (repeat (of_Z 5) 3) (Fin 3) = repeat (of_Z 5) 3.
Proof.
  apply (proj2 (C10_zero_std_unchanged [] (Fin 3) 5 2)).
  vm_compute. discriminate.
Defined.

End OutlierClaims.

Section OutlierRounding.

Import PrimFloat.

Set Warnings "-inexact-float".

(** C10 (as stated, refuted): in binary64 the mean of a constant signal is
    rounded.  For [[0.1, 0.1, 0.1]] the computed mean is
    [0.10000000000000002], so the z-score of every sample is the number 1
    and not [NaN].  For the constant signal of three samples [0.1 * 2^-490]
    the computed mean is one unit in the last place above the sample as
    well, and the squares of the deviations underflow to 0, so that the
    computed standard deviation is zero: the z-score of every sample is
    [+Infinity], which exceeds the threshold 3, every sample is replaced by
    the computed mean, and the signal that [removeOutliers] returns is not
    the one it was given. *)
Lemma C10_constant_signal_replaced :
  B64.mean [0.1; 0.1; 0.1]%float = 0.10000000000000002%float
  /\ B64.zScore [0.1; 0.1; 0.1]%float 0.1%float = 1%float
  /\ B64.mean [0x1.999999999999ap-494; 0x1.999999999999ap-494; 0x1.999999999999ap-494]%float
     = 0x1.999999999999bp-494%float
  /\ B64.std [0x1.999999999999ap-494; 0x1.999999999999ap-494; 0x1.999999999999ap-494]%float
     = 0%float
  /\ B64.zScore
       [0x1.999999999999ap-494; 0x1.999999999999ap-494; 0x1.999999999999ap-494]%float
       0x1.999999999999ap-494%float
     = infinity
  /\ B64.removeOutliers
       [0x1.999999999999ap-494; 0x1.999999999999ap-494; 0x1.999999999999ap-494]%float
       3%float
     = [0x1.999999999999bp-494; 0x1.999999999999bp-494; 0x1.999999999999bp-494]%float
  /\ B64.removeOutliers
       [0x1.999999999999ap-494; 0x1.999999999999ap-494; 0x1.999999999999ap-494]%float
       3%float
     <> [0x1.999999999999ap-494; 0x1.999999999999ap-494; 0x1.999999999999ap-494]%float.
Proof.
  split; [vm_compute; reflexivity |].
  split; [vm_compute; reflexivity |].
  split; [vm_compute; reflexivity |].
  split; [vm_compute; reflexivity |].
  split; [vm_compute; reflexivity |].
  split; [vm_compute; reflexivity |].
  intros H.
  apply (f_equal (fun l => PrimFloat.eqb (hd 0%float l) 0x1.999999999999ap-494%float)) in H.
  vm_compute in H. discriminate.
Qed.

Set Warnings "inexact-float".

End OutlierRounding.

(* ================================================================== *)
(** * Filter design: validation of the specification *)
(* ================================================================== *)

Section Design.

Local Open Scope R_scope.

Lemma new_Array_nonneg (z : Z) :
  (0 <= z)%Z -> new_Array (inject_Z z) = Return (repeat NaN (Z.to_nat z)).
Proof.
  intros Hz. unfold new_Array, inject_Z.
  rewrite Z.mod_1_r, Z.div_1_r. simpl.
  destruct (Z.leb_spec 0 z) as [_ | Hlt]; [reflexivity | lia].
Qed.

(** The designer of the TypeScript worker returns coefficients for every
    specification whose order is at least [-1]: it tests nothing else. *)
Lemma designButterworthFilter_returns (lowCutoff highCutoff samplingRate : num) (order : Z) :
  (-1 <= order)%Z ->
  exists c, TS.designButterworthFilter lowCutoff highCutoff samplingRate order = Return c.
Proof.
  intros Ho. unfold TS.designButterworthFilter.
  rewrite new_Array_nonneg by lia. cbn [bind].
  destruct (order =? 2)%Z; [eexists; reflexivity |].
  destruct (order =? 4)%Z; eexists; reflexivity.
Qed.

(** The class of the JavaScript worker rejects the three invalid shapes of a
    specification, given a positive sampling rate. *)
Lemma new_ButterworthFilter_invalid (fs low high : R) (order : Z) :
  0 < fs ->
  low <= 0 \/ fs / 2 <= high \/ high <= low ->
  JS.new_ButterworthFilter (Fin fs) (Fin low) (Fin high) order
  = Throw "Invalid filter frequencies".
Proof.
  intros Hfs Hbad. unfold JS.new_ButterworthFilter, JS.computeCoefficients.
  cbn [JS.samplingRate JS.lowCutoff JS.highCutoff].
  assert (Hd : fs / 2 <> 0) by lra.
  rewrite (div_Fin fs (q := 2)) by lra.
  rewrite !div_Fin by exact Hd.
  assert (Hi : 0 < / (fs / 2)) by (apply Rinv_0_lt_compat; lra).
  assert (Hone : (fs / 2) * / (fs / 2) = 1) by (apply Rinv_r; exact Hd).
  unfold geb.
  destruct Hbad as [H | [H | H]].
  - rewrite leb_Fin_true; [reflexivity |]. unfold Rdiv. nra.
  - rewrite (leb_Fin_true (p := 1)); [rewrite orb_true_r; reflexivity |].
    unfold Rdiv. nra.
  - rewrite (leb_Fin_true (p := high / (fs / 2))); [rewrite orb_true_r; reflexivity |].
    unfold Rdiv. nra.
Qed.

(** With such a specification [JS.processSignal] fails as a whole. *)
Lemma processSignal_invalid (fs low high : R) (order : Z) (rawSignal : list num) :
  0 < fs ->
  low <= 0 \/ fs / 2 <= high \/ high <= low ->
  JS.processSignal rawSignal (Fin fs) (Fin low) (Fin high) order
  = Throw "Signal processing failed: Invalid filter frequencies".
Proof.
  intros Hfs Hbad. unfold JS.processSignal, JS.processSignal_try.
  rewrite (new_ButterworthFilter_invalid order Hfs Hbad). reflexivity.
Qed.

(** C2 (the code at a specification with [lowCutoff = 0]): the designer of the
    TypeScript worker validates nothing and returns the coefficient vectors of
    its order-2 table, whereas the class of the JavaScript worker throws
    "Invalid filter frequencies" on the same specification. *)
Theorem C2_design_accepts_zero_cutoff :
  TS.designButterworthFilter (Fin 0) (Fin 4) (Fin 30) 2
  = Return {| TS.b := [Fin 0.2; Fin 0.4; Fin 0.2];
              TS.a := [Fin 1; Fin (-0.8); Fin 0.36] |}
  /\ JS.new_ButterworthFilter (Fin 30) (Fin 0) (Fin 4) 2
     = Throw "Invalid filter frequencies".
Proof.
  split; [reflexivity |].
  apply new_ButterworthFilter_invalid; [lra | left; lra].
Qed.

End Design.

(* ================================================================== *)
(** * Quality metrics: signal-to-noise ratio and the validity verdict *)
(* ================================================================== *)

Section Quality.

Local Open Scope R_scope.

(** The noise sequence of [estimateSNR] is finite when the cleaned signal
    covers the raw one. *)
Lemma noise_Fin (cleaned raw : list R) (i : nat) :
  (i + length raw <= length cleaned)%nat ->
  exists ns,
    mapi_from i (fun r j => sub r (map Fin cleaned).[j]) (map Fin raw) = map Fin ns
    /\ length ns = length raw.
Proof.
  revert i. induction raw as [| r raw IH]; intros i Hlen.
  - exists []. split; reflexivity.
  - simpl in Hlen. destruct (IH (S i)) as [ns [Hns Hl]]; [lia |].
    exists ((r + - nth i cleaned 0) :: ns). split.
    + simpl. rewrite Hns. rewrite get_map_Fin by lia. reflexivity.
    + simpl. rewrite Hl. reflexivity.
Qed.

(** The mean square of a non-empty finite signal. *)
Lemma power_Fin (xs : list R) :
  xs <> [] ->
  exists p,
    div (reduce (fun a b => add a (mul b b)) (map Fin xs) (Fin 0))
        (of_nat (length (map Fin xs))) = Fin p
    /\ 0 <= p.
Proof.
  intros Hne. pose proof (length_pos_INR Hne) as Hn.
  exists (acc_sum (fun x => x * x) 0 xs / IZR (Z.of_nat (length xs))). split.
  - rewrite (reduce_Fin (fun v => mul v v) (fun x => x * x)) by reflexivity.
    rewrite length_map. unfold of_nat, of_Z. apply div_Fin. lra.
  - apply Rmult_le_pos.
    + apply acc_sum_nonneg. intros x. apply (Rle_0_sqr x).
    + left. apply Rinv_0_lt_compat. exact Hn.
Qed.

Lemma estimateSNR_nonneg (raw cleaned : list R) :
  cleaned <> [] ->
  length raw = length cleaned ->
  exists v, TS.estimateSNR (map Fin raw) (map Fin cleaned) = Fin v /\ 0 <= v.
Proof.
  intros Hne Hlen. unfold TS.estimateSNR, mapi.
  destruct (@noise_Fin cleaned raw 0%nat) as [ns [-> Hns]]; [lia |].
  assert (Hnsne : ns <> []).
  { intros ->. destruct cleaned; [contradiction | simpl in *; lia]. }
  destruct (power_Fin Hne) as [sp [-> Hsp]].
  destruct (power_Fin Hnsne) as [np [-> Hnp]].
  cbn [add]. rewrite div_Fin by lra.
  assert (Hratio : 0 <= sp / (np + 1e-10)).
  { apply Rmult_le_pos; [exact Hsp |]. left. apply Rinv_0_lt_compat. lra. }
  destruct Hratio as [Hpos | Hzero].
  - rewrite log10_Fin by exact Hpos. cbn [mul]. unfold Math_max2.
    destruct (Rlt_dec 0 (10 * (ln (sp / (np + 1e-10)) / ln 10))) as [Hlt | Hge].
    + rewrite ltb_Fin_true by exact Hlt. eexists. split; [reflexivity | lra].
    + rewrite ltb_Fin_false by lra. exists 0. split; [reflexivity | lra].
  - unfold Math_log10. rewrite sgn_Zer by (symmetry; exact Hzero).
    unfold mul. rewrite sgn_Pos by lra. simpl. exists 0. split; [reflexivity | lra].
Qed.

(** Without noise power [calculateSNR] answers 0. *)
Lemma calculateSNR_no_noise (signal noise : list R) :
  (forall x, In x noise -> x = 0) ->
  JS.calculateSNR (map Fin signal) (map Fin noise) = Fin 0.
Proof.
  intros Hzero. unfold JS.calculateSNR.
  rewrite (reduce_Fin (fun v => mul v v) (fun x => x * x) noise) by reflexivity.
  assert (Hs : acc_sum (fun x => x * x) 0 noise = 0).
  { clear signal. induction noise as [| x noise IH].
    - reflexivity.
    - rewrite acc_sum_cons. rewrite IH by (intros y Hy; apply Hzero; right; exact Hy).
      rewrite (Hzero x) by (left; reflexivity). lra. }
  rewrite Hs. rewrite length_map. unfold gtb.
  destruct noise as [| x noise].
  - cbn [length]. of_nat_eval. rewrite div_Fin_zero_zero by reflexivity. reflexivity.
  - unfold of_nat, of_Z. rewrite div_Fin.
    + rewrite ltb_Fin_false; [reflexivity |]. unfold Rdiv. lra.
    + pose proof (@length_pos_INR R (x :: noise)) as Hn.
      assert (0 < IZR (Z.of_nat (length (x :: noise)))) by (apply Hn; discriminate). lra.
Qed.

Lemma log10_hundredth : ln (1 / 100) / ln 10 = -2.
Proof.
  assert (H10 : 0 < ln 10).
  { rewrite <- ln_1. apply ln_increasing; lra. }
  unfold Rdiv at 2. rewrite Rmult_1_l. rewrite ln_Rinv by lra.
  replace 100 with (10 * 10) by lra. rewrite ln_mult by lra.
  field. lra.
Qed.

Lemma calculateSNR_weak_signal : JS.calculateSNR [Fin 1] [Fin 10] = Fin (-20).
Proof.
  unfold JS.calculateSNR, reduce. cbn. of_nat_eval.
  rewrite !div_Fin by lra. unfold gtb. rewrite ltb_Fin_true by lra.
  rewrite log10_Fin by lra. cbn. apply Fin_eq.
  replace ((0 + 1 * 1) / 1 / ((0 + 10 * 10) / 1)) with (1 / 100) by lra.
  rewrite log10_hundredth. lra.
Qed.

(** C3 (as stated, refuted): [calculateSNR] of a signal ten times weaker than
    the noise is -20 dB, a negative value. *)
Lemma C3_calculateSNR_negative :
  JS.calculateSNR [Fin 1] [Fin 10] = Fin (-20)
  /\ geb (JS.calculateSNR [Fin 1] [Fin 10]) (Fin 0) = false.
Proof.
  rewrite calculateSNR_weak_signal. split; [reflexivity |].
  unfold geb. apply leb_Fin_false. lra.
Qed.

(** The floor of [estimateSNR]: whatever the ratio is, [Math.max(0, .)]
    returns [NaN], [+Infinity] or a finite value that is at least 0. *)
Lemma estimateSNR_floor (rawSignal cleanedSignal : list num) :
  TS.estimateSNR rawSignal cleanedSignal = NaN
  \/ TS.estimateSNR rawSignal cleanedSignal = PInf
  \/ exists v, TS.estimateSNR rawSignal cleanedSignal = Fin v /\ 0 <= v.
Proof.
  unfold TS.estimateSNR.
  destruct (mul (Fin 10) (Math_log10 _)) as [v | | |]; unfold Math_max2.
  - right. right. destruct (Rlt_dec 0 v) as [Hlt | Hge].
    + rewrite ltb_Fin_true by exact Hlt. exists v. split; [reflexivity | lra].
    + rewrite ltb_Fin_false by lra. exists 0. split; [reflexivity | lra].
  - right. left. reflexivity.
  - right. right. exists 0. split; [reflexivity | lra].
  - left. reflexivity.
Qed.

(** C3 (amended): [estimateSNR] never returns a negative value: for every
    pair of signals the floor [Math.max(0, .)] leaves [NaN], [+Infinity] or
    a finite value that is at least 0.  For equal-length non-empty signals
    whose samples are finite with magnitude at most 10^100 (no power can
    overflow) it returns a finite value that is at least 0, the denominator
    being kept positive by [1e-10].  [calculateSNR] answers 0 when the
    noise carries no power and applies no floor otherwise. *)
Theorem C3_snr_floor (rawSignal cleanedSignal : list num) (raw cleaned signal noise : list R) :
  (TS.estimateSNR rawSignal cleanedSignal = NaN
   \/ TS.estimateSNR rawSignal cleanedSignal = PInf
   \/ exists v, TS.estimateSNR rawSignal cleanedSignal = Fin v /\ 0 <= v)
  /\ (cleaned <> [] ->
      length raw = length cleaned ->
      (forall x, In x raw -> Rabs x <= 10 ^ 100) ->
      (forall x, In x cleaned -> Rabs x <= 10 ^ 100) ->
      exists v, TS.estimateSNR (map Fin raw) (map Fin cleaned) = Fin v /\ 0 <= v)
  /\ ((forall x, In x noise -> x = 0) ->
      JS.calculateSNR (map Fin signal) (map Fin noise) = Fin 0).
Proof.
  split; [apply estimateSNR_floor |]. split.
  - intros Hne Hlen _ _. apply estimateSNR_nonneg; assumption.
  - apply calculateSNR_no_noise.
Qed.

Lemma C3_snr_floor_witness :
  (exists v, TS.estimateSNR (map Fin [1; 2]) (map Fin [1; 1]) = Fin v /\ 0 <= v)
  /\ JS.calculateSNR (map Fin [3]) (map Fin [0]) = Fin 0.
Proof.
  destruct (C3_snr_floor [] [] [1; 2] [1; 1] [3] [0]) as [_ [Hts Hjs]]. split.
  - apply Hts.
    + discriminate.
    + reflexivity.
    + intros x [<- | [<- | []]]; apply within_magnitude; (lia || lra).
    + intros x [<- | [<- | []]]; apply within_magnitude; (lia || lra).
  - apply Hjs. intros x [<- | []]. reflexivity.
Defined.

End Quality.

(* ================================================================== *)
(** * Detrending ([TS.detrend]) *)
(* ================================================================== *)

Section Detrend.

Local Open Scope R_scope.

Lemma isum_ext (f g : nat -> R) (k : nat) :
  (forall i, (i < k)%nat -> f i = g i) -> isum f k = isum g k.
Proof.
  induction k as [| k IH]; intros H; simpl; [reflexivity |].
  rewrite IH by (intros i Hi; apply H; lia). rewrite H by lia. reflexivity.
Qed.

Lemma isum_plus (f g : nat -> R) (k : nat) :
  isum (fun i => f i + g i) k = isum f k + isum g k.
Proof. induction k as [| k IH]; simpl; [lra | rewrite IH; lra]. Qed.

Lemma isum_scal (c : R) (f : nat -> R) (k : nat) :
  isum (fun i => c * f i) k = c * isum f k.
Proof. induction k as [| k IH]; simpl; [lra | rewrite IH; lra]. Qed.

Lemma isum_const (c : R) (k : nat) : isum (fun _ => c) k = INR k * c.
Proof.
  induction k as [| k IH]; [simpl; lra |].
  rewrite S_INR. simpl isum. rewrite IH. lra.
Qed.

(** Closed forms of the index sums [sumX] and [sumX2]. *)
Lemma isum_index (k : nat) : 2 * isum INR k = INR k * (INR k - 1).
Proof.
  induction k as [| k IH]; [simpl; lra |].
  rewrite S_INR. simpl isum. lra.
Qed.

Lemma isum_index_sq (k : nat) :
  6 * isum (fun i => INR i * INR i) k = (INR k - 1) * INR k * (2 * INR k - 1).
Proof.
  induction k as [| k IH]; [simpl; lra |].
  rewrite S_INR. simpl isum. lra.
Qed.

(** The denominator of the slope is positive from two samples on. *)
Lemma fit_denominator_pos (n : nat) :
  (2 <= n)%nat ->
  0 < INR n * isum (fun i => INR i * INR i) n - isum INR n * isum INR n.
Proof.
  intros Hn. pose proof (isum_index n) as H1. pose proof (isum_index_sq n) as H2.
  assert (Hr : 2 <= INR n) by (apply (le_INR 2); exact Hn).
  set (sx := isum INR n) in *. set (sxx := isum (fun i => INR i * INR i) n) in *.
  set (m := INR n) in *.
  assert (Hsx : sx = m * (m - 1) / 2) by lra.
  assert (Hsxx : sxx = (m - 1) * m * (2 * m - 1) / 6) by lra.
  rewrite Hsx, Hsxx.
  replace (m * ((m - 1) * m * (2 * m - 1) / 6) - m * (m - 1) / 2 * (m * (m - 1) / 2))
    with (m * m * (m - 1) * (m + 1) / 12) by field.
  assert (0 < m * m) by nra. assert (0 < (m - 1) * (m + 1)) by nra.
  nra.
Qed.

(** The four sums of the fitting loop over a finite signal. *)
Lemma detrend_sums_Fin (xs : list R) :
  TS.detrend_sums (map Fin xs)
  = (Fin (isum INR (length xs)),
     Fin (isum (fun i => nth i xs 0) (length xs)),
     Fin (isum (fun i => INR i * nth i xs 0) (length xs)),
     Fin (isum (fun i => INR i * INR i) (length xs))).
Proof.
  unfold TS.detrend_sums. rewrite length_map.
  assert (H : forall k, (k <= length xs)%nat ->
    for_range 0 k
      (fun '(sumX, sumY, sumXY, sumX2) i =>
         (add sumX (of_nat i), add sumY (map Fin xs).[i],
          add sumXY (mul (of_nat i) (map Fin xs).[i]),
          add sumX2 (mul (of_nat i) (of_nat i))))
      (Fin 0, Fin 0, Fin 0, Fin 0)
    = (Fin (isum INR k), Fin (isum (fun i => nth i xs 0) k),
       Fin (isum (fun i => INR i * nth i xs 0) k),
       Fin (isum (fun i => INR i * INR i) k))).
  { induction k as [| k IH]; intros Hk; [reflexivity |].
    rewrite for_range_0_S. rewrite IH by lia.
    rewrite get_map_Fin by lia. rewrite of_nat_INR. reflexivity. }
  apply H. apply le_n.
Qed.

Lemma slope_Fin (xs : list R) :
  (2 <= length xs)%nat -> TS.slope (map Fin xs) = Fin (slopeR xs).
Proof.
  intros Hn. unfold TS.slope, slopeR. rewrite detrend_sums_Fin.
  rewrite length_map, of_nat_INR. cbn [mul sub add neg].
  pose proof (fit_denominator_pos Hn) as HD.
  rewrite div_Fin by lra. apply Fin_eq. unfold Rminus. reflexivity.
Qed.

Lemma intercept_Fin (xs : list R) :
  (2 <= length xs)%nat -> TS.intercept (map Fin xs) = Fin (interceptR xs).
Proof.
  intros Hn. unfold TS.intercept, interceptR. rewrite (slope_Fin xs Hn).
  rewrite detrend_sums_Fin. rewrite length_map, of_nat_INR. cbn [mul sub add neg].
  assert (Hr : 2 <= INR (length xs)) by (apply (le_INR 2); exact Hn).
  rewrite div_Fin by lra. apply Fin_eq. unfold Rminus. reflexivity.
Qed.


Lemma residuals_nth (xs : list R) (i : nat) :
  (i < length xs)%nat ->
  nth i (residuals xs) 0 = nth i xs 0 + - (slopeR xs * INR i + interceptR xs).
Proof.
  intros Hi. unfold residuals.
  rewrite (nth_indep _ 0 ((fun i => nth i xs 0 + - (slopeR xs * INR i + interceptR xs)) 0%nat))
    by (rewrite length_map, length_seq; exact Hi).
  rewrite (map_nth (fun i => nth i xs 0 + - (slopeR xs * INR i + interceptR xs))).
  rewrite seq_nth by exact Hi. reflexivity.
Qed.

Lemma detrend_Fin (xs : list R) :
  (2 <= length xs)%nat -> TS.detrend (map Fin xs) = map Fin (residuals xs).
Proof.
  intros Hn. unfold TS.detrend. rewrite length_map.
  destruct (Nat.ltb_spec (length xs) 2) as [Hlt | _]; [lia |].
  rewrite (slope_Fin xs Hn), (intercept_Fin xs Hn).
  rewrite (fill_loop
             (fun (_ : list num) i =>
                sub (map Fin xs).[i] (add (mul (Fin (slopeR xs)) (of_nat i)) (Fin (interceptR xs))))
             (fun i => Fin (nth i xs 0 + - (slopeR xs * INR i + interceptR xs)))).
  - unfold residuals. rewrite map_map. reflexivity.
  - intros i l2 Hi. rewrite get_map_Fin by exact Hi. rewrite of_nat_INR. reflexivity.
Qed.


(** The residuals are orthogonal to the constant and to the index. *)
Lemma residuals_sum (xs : list R) :
  (2 <= length xs)%nat ->
  isum (fun i => nth i (residuals xs) 0) (length xs) = 0.
Proof.
  intros Hn.
  rewrite (isum_ext (fun i => nth i (residuals xs) 0)
             (fun i => nth i xs 0 + (- slopeR xs * INR i + (- interceptR xs) * 1)))
    by (intros i Hi; rewrite residuals_nth by exact Hi; lra).
  rewrite isum_plus, isum_plus, isum_scal, isum_scal, isum_const.
  assert (Hr : 2 <= INR (length xs)) by (apply (le_INR 2); exact Hn).
  unfold interceptR. field. lra.
Qed.

Lemma residuals_moment (xs : list R) :
  (2 <= length xs)%nat ->
  isum (fun i => INR i * nth i (residuals xs) 0) (length xs) = 0.
Proof.
  intros Hn.
  rewrite (isum_ext (fun i => INR i * nth i (residuals xs) 0)
             (fun i => INR i * nth i xs 0
                       + (- slopeR xs * (INR i * INR i) + (- interceptR xs) * INR i)))
    by (intros i Hi; rewrite residuals_nth by exact Hi; lra).
  rewrite isum_plus, isum_plus, isum_scal, isum_scal.
  assert (Hr : 2 <= INR (length xs)) by (apply (le_INR 2); exact Hn).
  pose proof (fit_denominator_pos Hn) as HD.
  unfold interceptR, slopeR. field. lra.
Qed.

(** A sequence orthogonal to the constant and to the index has the zero line
    as its least-squares line. *)
Lemma orthogonal_optimal (r : nat -> R) (n : nat) (s c : R) :
  isum r n = 0 ->
  isum (fun i => INR i * r i) n = 0 ->
  isum (fun i => r i * r i) n
  <= isum (fun i => (r i - (s * INR i + c)) * (r i - (s * INR i + c))) n.
Proof.
  intros H0 H1.
  rewrite (isum_ext (fun i => (r i - (s * INR i + c)) * (r i - (s * INR i + c)))
             (fun i => r i * r i
                       + ((-2 * s) * (INR i * r i)
                          + ((-2 * c) * r i + (s * INR i + c) * (s * INR i + c)))))
    by (intros i Hi; ring).
  rewrite !isum_plus, !isum_scal, H0, H1.
  assert (Hsq : 0 <= isum (fun i => (s * INR i + c) * (s * INR i + c)) n).
  { clear H0 H1. induction n as [| k IH]; simpl; [lra |].
    apply Rplus_le_le_0_compat; [exact IH | apply Rle_0_sqr]. }
  lra.
Qed.

(** The line fitted by [detrend] is the least-squares line of the signal: no
    other line leaves a smaller sum of squared residuals. *)
Lemma fit_least_squares (xs : list R) (s c : R) :
  (2 <= length xs)%nat ->
  isum (fun i => nth i (residuals xs) 0 * nth i (residuals xs) 0) (length xs)
  <= isum (fun i => (nth i xs 0 - (s * INR i + c)) * (nth i xs 0 - (s * INR i + c)))
       (length xs).
Proof.
  intros Hn.
  rewrite (isum_ext (fun i => (nth i xs 0 - (s * INR i + c)) * (nth i xs 0 - (s * INR i + c)))
             (fun i => (nth i (residuals xs) 0
                        - ((s - slopeR xs) * INR i + (c - interceptR xs)))
                       * (nth i (residuals xs) 0
                          - ((s - slopeR xs) * INR i + (c - interceptR xs)))))
    by (intros i Hi; rewrite residuals_nth by exact Hi; ring).
  apply (orthogonal_optimal (fun i => nth i (residuals xs) 0)).
  - apply residuals_sum. exact Hn.
  - apply residuals_moment. exact Hn.
Qed.



End Detrend.

(* ================================================================== *)
(** * The padded magnitude spectrum ([TS.computeFFT]) *)
(* ================================================================== *)

Section PaddedSpectrum.

Local Open Scope R_scope.

(** The doubling loop: its result is a power of two, reaches [n], and is
    either 1 or below [2 * n]. *)
Lemma pad_loop_ge (fuel N n : nat) :
  (1 <= N)%nat -> (n <= N + fuel)%nat -> (n <= TS.pad_loop fuel N n)%nat.
Proof.
  revert N. induction fuel as [| fuel IH]; intros N HN Hn; simpl.
  - lia.
  - destruct (Nat.ltb_spec N n) as [Hlt | Hge]; [| exact Hge].
    apply IH; lia.
Qed.

Lemma pad_loop_pow2 (fuel N n : nat) :
  (exists k, N = 2 ^ k)%nat -> (exists k, TS.pad_loop fuel N n = 2 ^ k)%nat.
Proof.
  revert N. induction fuel as [| fuel IH]; intros N [k Hk]; simpl.
  - exists k. exact Hk.
  - destruct (Nat.ltb_spec N n) as [Hlt | Hge]; [| exists k; exact Hk].
    apply IH. exists (S k). rewrite Hk. simpl. lia.
Qed.

Lemma pad_loop_tight (fuel N n : nat) :
  (N = 1 \/ N < 2 * n)%nat ->
  (TS.pad_loop fuel N n = 1 \/ TS.pad_loop fuel N n < 2 * n)%nat.
Proof.
  revert N. induction fuel as [| fuel IH]; intros N HN; simpl.
  - exact HN.
  - destruct (Nat.ltb_spec N n) as [Hlt | Hge]; [| exact HN].
    apply IH. right. lia.
Qed.

(** [padded_length n] is the smallest power of two that is at least [n]. *)
Lemma pad_loop_spec (n : nat) :
  exists k,
    (TS.padded_length n = 2 ^ k
     /\ n <= 2 ^ k
     /\ forall j, n <= 2 ^ j -> 2 ^ k <= 2 ^ j)%nat.
Proof.
  unfold TS.padded_length.
  destruct (@pad_loop_pow2 n 1%nat n) as [k Hk]; [exists 0%nat; reflexivity |].
  pose proof (@pad_loop_ge n 1%nat n (le_n 1)) as Hge.
  pose proof (@pad_loop_tight n 1%nat n (or_introl eq_refl)) as Htight.
  exists k. rewrite Hk in *. split; [reflexivity |]. split; [apply Hge; lia |].
  intros j Hj. destruct Htight as [H1 | Hlt].
  - rewrite H1. pose proof (Nat.pow_nonzero 2 j). lia.
  - destruct (Nat.le_gt_cases k j) as [Hkj | Hjk].
    + apply Nat.pow_le_mono_r; lia.
    + exfalso. destruct k as [| k]; [lia |].
      assert (2 ^ j <= 2 ^ k)%nat by (apply Nat.pow_le_mono_r; lia).
      simpl in Hlt. lia.
Qed.

(** The padded copy of a finite signal. *)
Lemma padded_Fin (xs : list R) (N : nat) :
  (length xs <= N)%nat ->
  for_range 0 (length xs) (fun p i => set p i (map Fin xs).[i]) (fill (repeat NaN N) (Fin 0))
  = map Fin (xs ++ repeat 0 (N - length xs)).
Proof.
  intros HN.
  assert (Hfill : fill (repeat NaN N) (Fin 0) = repeat (Fin 0) N).
  { unfold fill. induction N as [| N IH]; simpl; [reflexivity |].
    clear HN. f_equal. clear IH. induction N; simpl; [reflexivity | f_equal; assumption]. }
  rewrite Hfill.
  rewrite (fill_loop_prefix (fun (_ : list num) i => (map Fin xs).[i])
             (fun i => Fin (nth i xs 0)) (Fin 0)).
  - rewrite map_app, <- map_Fin_seq. f_equal.
    generalize (N - length xs)%nat. intros m. induction m; simpl; [reflexivity | f_equal; assumption].
  - exact HN.
  - intros i l2 Hi. apply get_map_Fin. exact Hi.
Qed.

Lemma binR_nonneg (ps : list R) (N k : nat) : (0 < N)%nat -> 0 <= binR ps N k.
Proof.
  intros HN. unfold binR. apply Rmult_le_pos.
  - apply sqrt_pos.
  - left. apply Rinv_0_lt_compat. apply (lt_INR 0). exact HN.
Qed.

Lemma bin_Fin (ps : list R) (N k : nat) :
  length ps = N -> (0 < N)%nat -> TS.bin (map Fin ps) N k = Fin (binR ps N k).
Proof.
  intros Hlen HN. unfold TS.bin, binR.
  assert (HNr : 0 < INR N) by (apply (lt_INR 0); exact HN).
  assert (H : forall j, (j <= N)%nat ->
    for_range 0 j
      (fun '(real, imag) n =>
         (add real (mul (map Fin ps).[n] (Math_cos
            (div (mul (mul (mul (Fin (-2)) Math_PI) (of_nat k)) (of_nat n)) (of_nat N)))),
          add imag (mul (map Fin ps).[n] (Math_sin
            (div (mul (mul (mul (Fin (-2)) Math_PI) (of_nat k)) (of_nat n)) (of_nat N))))))
      (Fin 0, Fin 0)
    = (Fin (isum (fun n => nth n ps 0 * cos (-2 * PI * INR k * INR n / INR N)) j),
       Fin (isum (fun n => nth n ps 0 * sin (-2 * PI * INR k * INR n / INR N)) j))).
  { induction j as [| j IH]; intros Hj; [reflexivity |].
    rewrite for_range_0_S. rewrite IH by lia.
    rewrite get_map_Fin by lia. rewrite !of_nat_INR. unfold Math_PI. cbn [mul].
    rewrite div_Fin by lra. reflexivity. }
  rewrite (H N (le_n N)). cbn [mul add]. rewrite of_nat_INR.
  rewrite sqrt_Fin.
  - apply div_Fin. lra.
  - apply Rplus_le_le_0_compat; apply Rle_0_sqr.
Qed.

Lemma new_Array_half (m : nat) :
  new_Array (Z.of_nat (2 * m) # 2) = Return (repeat NaN m).
Proof.
  unfold new_Array.
  replace (Z.of_nat (2 * m)) with (Z.of_nat m * 2)%Z by lia.
  rewrite Z.mod_mul, Z.div_mul by lia. rewrite Nat2Z.id.
  destruct (Z.leb_spec 0 (Z.of_nat m * 2)%Z) as [_ | Hlt]; [reflexivity | lia].
Qed.

Lemma computeFFT_short (signal : list num) :
  (length signal <= 1)%nat -> TS.computeFFT signal = Throw "Invalid array length".
Proof.
  intros Hn. unfold TS.computeFFT.
  assert (HN : TS.padded_length (length signal) = 1%nat).
  { destruct (length signal) as [| [| m]]; [reflexivity | reflexivity | lia]. }
  rewrite HN. reflexivity.
Qed.

(** The spectrum of a finite signal of at least two samples. *)
Lemma computeFFT_Fin (xs : list R) :
  (2 <= length xs)%nat ->
  let N := TS.padded_length (length xs) in
  TS.computeFFT (map Fin xs)
  = Return (map Fin (map (binR (xs ++ repeat 0 (N - length xs)) N) (seq 0 (N / 2)))).
Proof.
  intros Hn N. unfold TS.computeFFT. rewrite length_map. fold N.
  destruct (pad_loop_spec (length xs)) as [k [HN [Hge _]]]. fold N in HN.
  assert (Hk : (1 <= k)%nat).
  { destruct k as [| k]; [simpl in Hge; lia | lia]. }
  assert (Heven : (N = 2 * (N / 2))%nat).
  { rewrite HN. destruct k as [| k]; [lia |].
    rewrite Nat.pow_succ_r'. rewrite (Nat.mul_comm 2 (2 ^ k)), Nat.div_mul by lia. lia. }
  rewrite padded_Fin by (rewrite HN; exact Hge).
  assert (Hnew : new_Array (Z.of_nat N # 2) = Return (repeat NaN (N / 2))).
  { rewrite Heven at 1. apply new_Array_half. }
  rewrite Hnew. cbn [bind]. f_equal.
  rewrite (fill_loop
             (fun (_ : list num) k => TS.bin (map Fin (xs ++ repeat 0 (N - length xs))) N k)
             (fun k => Fin (binR (xs ++ repeat 0 (N - length xs)) N k))).
  - rewrite map_map. reflexivity.
  - intros i l2 Hi. apply bin_Fin.
    + rewrite length_app, repeat_length. rewrite HN in *. lia.
    + lia.
Qed.

(** C9: on a finite signal of at least two samples [computeFFT] returns a
    magnitude sequence whose length is half the smallest power of two that is
    at least the input length, with every element finite and non-negative; on
    a signal of length 0 or 1 the padded length is 1, [new Array(0.5)] throws
    "Invalid array length", and no spectrum is returned. *)
Theorem C9_computeFFT_domain (xs : list R) (signal : list num) :
  ((2 <= length xs)%nat ->
   exists (mags : list R) (k : nat),
     TS.computeFFT (map Fin xs) = Return (map Fin mags)
     /\ (length xs <= 2 ^ k)%nat
     /\ (forall j, length xs <= 2 ^ j -> 2 ^ k <= 2 ^ j)%nat
     /\ length mags = (2 ^ k / 2)%nat
     /\ (forall m, In m mags -> 0 <= m))
  /\ ((length signal <= 1)%nat -> TS.computeFFT signal = Throw "Invalid array length").
Proof.
  split; [| apply computeFFT_short].
  intros Hn.
  destruct (pad_loop_spec (length xs)) as [k [HN [Hge Hmin]]].
  exists (map (binR (xs ++ repeat 0 (TS.padded_length (length xs) - length xs))
                 (TS.padded_length (length xs)))
            (seq 0 (TS.padded_length (length xs) / 2))), k.
  split; [apply (computeFFT_Fin xs Hn) |].
  split; [exact Hge |]. split; [exact Hmin |]. split.
  - rewrite length_map, length_seq, HN. reflexivity.
  - intros m Hm. apply in_map_iff in Hm. destruct Hm as [j [<- _]].
    apply binR_nonneg. rewrite HN. pose proof (Nat.pow_nonzero 2 k). lia.
Qed.

Lemma C9_computeFFT_domain_witness :
  (exists (mags : list R) (k : nat),
     TS.computeFFT (map Fin [1; 2; 3]) = Return (map Fin mags)
     /\ (3 <= 2 ^ k)%nat
     /\ (forall j, 3 <= 2 ^ j -> 2 ^ k <= 2 ^ j)%nat
     /\ length mags = (2 ^ k / 2)%nat
     /\ (forall m, In m mags -> 0 <= m))
  /\ TS.computeFFT [Fin 1] = Throw "Invalid array length".
Proof.
  destruct (C9_computeFFT_domain [1; 2; 3] [Fin 1]) as [Hlong Hshort].
  split.
  - apply Hlong. simpl. lia.
  - apply Hshort. simpl. lia.
Defined.

End PaddedSpectrum.

(* ================================================================== *)
(** * Least and greatest sample of a finite signal *)
(* ================================================================== *)

Section PipelineStages.

Local Open Scope R_scope.

(** Minimum and maximum of a finite array. *)
Lemma fold_min_Fin (ys : list R) (m : R) :
  fold_left Math_min2 (map Fin ys) (Fin m) = Fin (fold_left Rmin ys m).
Proof.
  revert m. induction ys as [| y ys IH]; intros m; [reflexivity |].
  cbn [map fold_left].
  assert (Hstep : Math_min2 (Fin m) (Fin y) = Fin (Rmin m y)).
  { unfold Math_min2, Rmin. destruct (Rle_dec m y) as [Hle | Hgt].
    - rewrite ltb_Fin_false by exact Hle. reflexivity.
    - rewrite ltb_Fin_true by lra. reflexivity. }
  rewrite Hstep. apply IH.
Qed.

Lemma fold_max_Fin (ys : list R) (m : R) :
  fold_left Math_max2 (map Fin ys) (Fin m) = Fin (fold_left Rmax ys m).
Proof.
  revert m. induction ys as [| y ys IH]; intros m; [reflexivity |].
  cbn [map fold_left].
  assert (Hstep : Math_max2 (Fin m) (Fin y) = Fin (Rmax m y)).
  { unfold Math_max2, Rmax. destruct (Rle_dec m y) as [Hle | Hgt].
    - destruct Hle as [Hlt | Heq].
      + rewrite ltb_Fin_true by exact Hlt. reflexivity.
      + rewrite ltb_Fin_false by lra. rewrite Heq. reflexivity.
    - rewrite ltb_Fin_false by lra. reflexivity. }
  rewrite Hstep. apply IH.
Qed.

Lemma fold_Rmin_le (ys : list R) (m : R) :
  fold_left Rmin ys m <= m /\ forall y, In y ys -> fold_left Rmin ys m <= y.
Proof.
  revert m. induction ys as [| z ys IH]; intros m; simpl.
  - split; [lra | intros y []].
  - destruct (IH (Rmin m z)) as [H1 H2].
    pose proof (Rmin_l m z). pose proof (Rmin_r m z).
    split; [lra |]. intros y [<- | Hy]; [lra | apply H2; exact Hy].
Qed.

Lemma fold_Rmax_ge (ys : list R) (m : R) :
  m <= fold_left Rmax ys m /\ forall y, In y ys -> y <= fold_left Rmax ys m.
Proof.
  revert m. induction ys as [| z ys IH]; intros m; simpl.
  - split; [lra | intros y []].
  - destruct (IH (Rmax m z)) as [H1 H2].
    pose proof (Rmax_l m z). pose proof (Rmax_r m z).
    split; [lra |]. intros y [<- | Hy]; [lra | apply H2; exact Hy].
Qed.

Lemma fold_Rmin_in (ys : list R) (m : R) : In (fold_left Rmin ys m) (m :: ys).
Proof.
  revert m. induction ys as [| z ys IH]; intros m; simpl.
  - left. reflexivity.
  - destruct (IH (Rmin m z)) as [H | H]; [| right; right; exact H].
    rewrite <- H. unfold Rmin. destruct (Rle_dec m z); [left | right; left]; reflexivity.
Qed.

Lemma fold_Rmax_in (ys : list R) (m : R) : In (fold_left Rmax ys m) (m :: ys).
Proof.
  revert m. induction ys as [| z ys IH]; intros m; simpl.
  - left. reflexivity.
  - destruct (IH (Rmax m z)) as [H | H]; [| right; right; exact H].
    rewrite <- H. unfold Rmax. destruct (Rle_dec m z); [right; left | left]; reflexivity.
Qed.

Lemma Math_min_Fin (ys : list R) :
  ys <> [] ->
  exists m, Math_min (map Fin ys) = Fin m /\ In m ys /\ forall y, In y ys -> m <= y.
Proof.
  intros Hne. destruct ys as [| y0 ys]; [contradiction |].
  exists (fold_left Rmin ys y0). split; [| split].
  - unfold Math_min. cbn [map fold_left].
    change (Math_min2 PInf (Fin y0)) with (Fin y0). apply fold_min_Fin.
  - apply fold_Rmin_in.
  - destruct (fold_Rmin_le ys y0) as [H1 H2].
    intros y [<- | Hy]; [exact H1 | apply H2; exact Hy].
Qed.

Lemma Math_max_Fin (ys : list R) :
  ys <> [] ->
  exists m, Math_max (map Fin ys) = Fin m /\ In m ys /\ forall y, In y ys -> y <= m.
Proof.
  intros Hne. destruct ys as [| y0 ys]; [contradiction |].
  exists (fold_left Rmax ys y0). split; [| split].
  - unfold Math_max. cbn [map fold_left].
    change (Math_max2 NInf (Fin y0)) with (Fin y0). apply fold_max_Fin.
  - apply fold_Rmax_in.
  - destruct (fold_Rmax_ge ys y0) as [H1 H2].
    intros y [<- | Hy]; [exact H1 | apply H2; exact Hy].
Qed.

End PipelineStages.

(* ================================================================== *)
(** * The recursive transform and the direct transform ([JS]) *)
(* ================================================================== *)

Section Trigonometry.

Local Open Scope R_scope.

Lemma cos_sin_nat_PI (k : nat) :
  cos (INR k * PI) = (if Nat.even k then 1 else -1) /\ sin (INR k * PI) = 0.
Proof.
  induction k as [| k [IHc IHs]].
  - simpl. rewrite Rmult_0_l. split; [apply cos_0 | apply sin_0].
  - rewrite S_INR. replace ((INR k + 1) * PI) with (INR k * PI + PI) by lra.
    rewrite cos_plus, sin_plus, IHc, IHs, cos_PI, sin_PI.
    rewrite Nat.even_succ, <- Nat.negb_even.
    destruct (Nat.even k); simpl; split; lra.
Qed.

Lemma cos_neg_nat_PI (k : nat) (x : R) :
  x = - (INR k * PI) -> cos x = if Nat.even k then 1 else -1.
Proof. intros ->. rewrite cos_neg. apply cos_sin_nat_PI. Qed.

Lemma sin_neg_nat_PI (k : nat) (x : R) : x = - (INR k * PI) -> sin x = 0.
Proof.
  intros ->. rewrite sin_neg. destruct (cos_sin_nat_PI k) as [_ ->]. lra.
Qed.

End Trigonometry.

(** Values of [cos] and [sin] at the angles [- k * PI], [k = 0 .. 7], which
    are the only ones that meet a non-zero sample of the example. *)
Ltac trig_at k :=
  match goal with
  | |- context [cos ?x] =>
      let H := fresh "Hc" in
      assert (H : cos x = if Nat.even k then 1%R else (-1)%R)
        by (apply cos_neg_nat_PI; simpl INR; lra);
      simpl in H; rewrite !H; clear H
  | |- context [sin ?x] =>
      let H := fresh "Hs" in
      assert (H : sin x = 0%R) by (apply (@sin_neg_nat_PI k); simpl INR; lra);
      rewrite !H; clear H
  end.

Ltac trig_eval :=
  repeat first
    [ trig_at 0%nat | trig_at 1%nat | trig_at 2%nat | trig_at 3%nat
    | trig_at 4%nat | trig_at 5%nat | trig_at 6%nat | trig_at 7%nat ].

Section JSSpectrum.

Local Open Scope R_scope.

Lemma computeFFT_comb8 (samplingRate : num) :
  JS.computeFFT comb8 samplingRate = Return (map Fin [2; 0; 2; 0; 2; 0; 2; 0]).
Proof.
  unfold JS.computeFFT, comb8. cbn [length map].
  cbn -[Math_PI]. of_nat_eval. unfold Math_PI. cbn [mul].
  rewrite !div_Fin by lra. cbn. f_equal.
  trig_at 0%nat.
  fin_list.
Qed.

Lemma naiveFFT_comb8 :
  JS.naiveFFT comb8 = map Fin [1 / 4; 0; 1 / 4; 0; 1 / 4; 0; 1 / 4; 0].
Proof.
  unfold JS.naiveFFT, comb8. cbn [length map].
  cbn -[Math_PI]. of_nat_eval. unfold Math_PI. cbn [mul].
  rewrite !div_Fin by lra. cbn. rewrite !sqrt_Fin_sq. rewrite !div_Fin by lra.
  trig_eval. cbn [map].
  repeat (apply f_equal2; [first [bin_val 2 | bin_val 0] |]). reflexivity.
Qed.

Lemma TS_computeFFT_comb8 :
  TS.computeFFT comb8 = Return (map Fin [1 / 4; 0; 1 / 4; 0]).
Proof.
  unfold TS.computeFFT, comb8. cbn [length map].
  cbn -[Math_PI TS.bin]. unfold TS.bin. cbn -[Math_PI].
  of_nat_eval. unfold Math_PI. cbn [mul].
  rewrite !div_Fin by lra. cbn. rewrite !sqrt_Fin_sq. rewrite !div_Fin by lra.
  trig_eval. cbn [map]. f_equal.
  repeat (apply f_equal2; [first [bin_val 2 | bin_val 0] |]). reflexivity.
Qed.

(** The recursion of [computeFFT] ends on every non-empty signal: each call
    works on a half, of at least one sample. *)
Lemma halves_length (signal : list num) (i : nat) :
  (length (filteri_from i (fun _ j => (j mod 2 =? 0)%nat) signal)
   + length (filteri_from i (fun _ j => (j mod 2 =? 1)%nat) signal)
   = length signal)%nat.
Proof.
  revert i. induction signal as [| v signal IH]; intros i; [reflexivity |].
  cbn [filteri_from]. specialize (IH (S i)).
  pose proof (Nat.mod_upper_bound i 2 ltac:(lia)) as Hm.
  destruct (Nat.eqb_spec (i mod 2) 0) as [H0 | H0];
    destruct (Nat.eqb_spec (i mod 2) 1) as [H1 | H1]; cbn [length]; lia.
Qed.

Lemma halves_nonempty (signal : list num) (i : nat) :
  (2 <= length signal)%nat ->
  (1 <= length (filteri_from i (fun _ j => (j mod 2 =? 0)%nat) signal)
   /\ 1 <= length (filteri_from i (fun _ j => (j mod 2 =? 1)%nat) signal))%nat.
Proof.
  intros Hn. destruct signal as [| v [| w rest]]; cbn [length] in Hn; try lia.
  cbn [filteri_from].
  assert (Hs : ((S i) mod 2 = 1 - i mod 2)%nat).
  { pose proof (Nat.mod_upper_bound i 2 ltac:(lia)) as Hm.
    replace (S i) with (i + 1)%nat by lia.
    rewrite Nat.Div0.add_mod. destruct (i mod 2) as [| [| m]]; [reflexivity | reflexivity | lia]. }
  pose proof (Nat.mod_upper_bound i 2 ltac:(lia)) as Hm.
  destruct (Nat.eqb_spec (i mod 2) 0) as [H0 | H0];
    destruct (Nat.eqb_spec (i mod 2) 1) as [H1 | H1];
    destruct (Nat.eqb_spec (S i mod 2) 0) as [H2 | H2];
    destruct (Nat.eqb_spec (S i mod 2) 1) as [H3 | H3];
    cbn [length]; lia.
Qed.

Lemma computeFFT_rec_returns (fuel : nat) (signal : list num) :
  (1 <= length signal <= fuel)%nat ->
  exists r, JS.computeFFT_rec fuel signal = Return r.
Proof.
  revert signal. induction fuel as [| fuel IH]; intros signal Hn; [lia |].
  cbn [JS.computeFFT_rec].
  destruct (Nat.eqb_spec (length signal) 1) as [H1 | H1]; [eexists; reflexivity |].
  destruct (negb (length signal mod 2 =? 0)%nat); [eexists; reflexivity |].
  pose proof (halves_length signal 0) as Hsum.
  destruct (@halves_nonempty signal 0%nat) as [He Ho]; [lia |].
  unfold filteri.
  destruct (IH (filteri_from 0 (fun _ j => (j mod 2 =? 0)%nat) signal)) as [even ->]; [lia |].
  destruct (IH (filteri_from 0 (fun _ j => (j mod 2 =? 1)%nat) signal)) as [odd ->]; [lia |].
  cbn [bind]. eexists. reflexivity.
Qed.

Lemma computeFFT_returns (signal : list num) (samplingRate : num) :
  signal <> [] -> exists r, JS.computeFFT signal samplingRate = Return r.
Proof.
  intros Hne. unfold JS.computeFFT. apply computeFFT_rec_returns.
  destruct signal; [contradiction | cbn [length]; lia].
Qed.

(** C5 (the code at the spec's example): on [[1,0,0,0,1,0,0,0]] the recursive
    [computeFFT] returns [[2,0,2,0,2,0,2,0]] while the direct [naiveFFT]
    returns the magnitudes [[1/4,0,1/4,0,1/4,0,1/4,0]]: the two spectra differ
    by the factor 8 in every non-zero bin.  The padded transform of the
    TypeScript worker returns the first four magnitudes of [naiveFFT]. *)
Theorem C5_fft_paths_on_comb8 (samplingRate : num) :
  JS.computeFFT comb8 samplingRate = Return (map Fin [2; 0; 2; 0; 2; 0; 2; 0])
  /\ JS.naiveFFT comb8 = map Fin [1 / 4; 0; 1 / 4; 0; 1 / 4; 0; 1 / 4; 0]
  /\ TS.computeFFT comb8 = Return (map Fin [1 / 4; 0; 1 / 4; 0]).
Proof.
  split; [apply computeFFT_comb8 |].
  split; [apply naiveFFT_comb8 | apply TS_computeFFT_comb8].
Qed.

End JSSpectrum.

(* ================================================================== *)
(** * The processing operation of the JavaScript worker *)
(* ================================================================== *)

Section JSPipeline.

Local Open Scope R_scope.

(** A pass of a filter object computes the recurrence of its coefficients
    from its histories. *)
Lemma pass_biquad (f : JS.ButterworthFilter) (signal : list num) (x0 x1 x2 y0 y1 y2 : num) :
  JS.x f = [x0; x1; x2] -> JS.y f = [y0; y1; y2] ->
  pass f signal = biquad (JS.b f) (JS.a f) x1 x2 y1 y2 signal.
Proof.
  unfold pass. revert f x0 x1 x2 y0 y1 y2.
  induction signal as [| v rest IH]; intros f x0 x1 x2 y0 y1 y2 Hx Hy; [reflexivity |].
  cbn [JS.map_st biquad]. unfold JS.filter at 1.
  rewrite Hx, Hy. cbn [set get nth].
  match goal with
  | |- context [JS.map_st JS.filter ?f' rest] =>
      specialize (IH f' x0 v x1 y0
                    (sub (div (add (add (mul (JS.b f).[0] v) (mul (JS.b f).[1] x1))
                                   (mul (JS.b f).[2] x2)) (JS.a f).[0])
                         (div (add (mul (JS.a f).[1] y1) (mul (JS.a f).[2] y2)) (JS.a f).[0]))
                    y1 eq_refl eq_refl);
      destruct (JS.map_st JS.filter f' rest) as [outs f'']
  end.
  cbn [fst] in *. cbn [JS.b JS.a] in IH. rewrite IH. reflexivity.
Qed.

(** A valid specification yields a filter object with zero histories. *)
Lemma new_ButterworthFilter_valid (fs low high : R) (order : Z) :
  0 < fs -> 0 < low -> low < high -> high < fs / 2 ->
  exists t,
    JS.new_ButterworthFilter (Fin fs) (Fin low) (Fin high) order
    = Return {| JS.samplingRate := Fin fs; JS.lowCutoff := Fin low;
                JS.highCutoff := Fin high; JS.order := order;
                JS.b := [Fin t; Fin 0; Fin (- t)];
                JS.a := [Fin 1; div (Fin (-2 * (1 + - t))) (Fin (1 + t));
                         div (Fin (1 + - t)) (Fin (1 + t))];
                JS.x := [Fin 0; Fin 0; Fin 0];
                JS.y := [Fin 0; Fin 0; Fin 0] |}
    /\ t = tan (PI * (high / (fs / 2) + - (low / (fs / 2))) / 2)
    /\ 0 < t.
Proof.
  intros Hfs Hlow Hlh Hhigh.
  unfold JS.new_ButterworthFilter, JS.computeCoefficients.
  cbn [JS.samplingRate JS.lowCutoff JS.highCutoff JS.order].
  assert (Hd : fs / 2 <> 0) by lra.
  rewrite (div_Fin fs (q := 2)) by lra. rewrite !div_Fin by exact Hd.
  assert (Hi : 0 < / (fs / 2)) by (apply Rinv_0_lt_compat; lra).
  assert (Hone : (fs / 2) * / (fs / 2) = 1) by (apply Rinv_r; exact Hd).
  assert (Hl : 0 < low / (fs / 2)) by (unfold Rdiv; nra).
  assert (Hh : high / (fs / 2) < 1) by (unfold Rdiv; nra).
  assert (Hlh' : low / (fs / 2) < high / (fs / 2)) by (unfold Rdiv; nra).
  unfold geb. rewrite !leb_Fin_false by lra. cbn [orb].
  unfold Math_PI. cbn [sub add neg mul].
  rewrite (div_Fin _ (q := 2)) by lra.
  set (w := PI * (high / (fs / 2) + - (low / (fs / 2))) / 2).
  assert (Hw : 0 < w < PI / 2).
  { unfold w. pose proof PI_RGT_0. split.
    - apply Rmult_lt_0_compat; [| lra]. apply Rmult_lt_0_compat; lra.
    - assert (high / (fs / 2) + - (low / (fs / 2)) < 1) by lra. nra. }
  assert (Hcos : 0 < cos w) by (apply cos_gt_0; lra).
  assert (Htan : 0 < tan w) by (apply tan_gt_0; lra).
  rewrite tan_Fin by lra. cbn [sub add neg mul].
  exists (tan w). split; [reflexivity |]. split; [reflexivity | exact Htan].
Qed.

(** The shape of the result, given the filter object of the design. *)
Lemma processSignal_shape (rawSignal : list num) (samplingRate bandpassLow bandpassHigh : num)
    (filterOrder : Z) (f : JS.ButterworthFilter) :
  JS.new_ButterworthFilter samplingRate bandpassLow bandpassHigh filterOrder = Return f ->
  let detrended := JS.detrended_of rawSignal in
  let butterworthFiltered := pass f (pass f detrended) in
  JS.processSignal rawSignal samplingRate bandpassLow bandpassHigh filterOrder
  = Return
      {| JS.raw := rawSignal;
         JS.bandpass := pass f detrended;
         JS.butterworth := snd (JS.clip_outliers butterworthFiltered);
         JS.qualityMetrics :=
           {| JS.snr := JS.calculateSNR (snd (JS.clip_outliers butterworthFiltered)) detrended;
              JS.clippingPercentage := JS.calculateClipping rawSignal;
              JS.motionArtifactScore := JS.calculateMotionArtifacts butterworthFiltered;
              JS.validSegment :=
                JS.isValidSegment butterworthFiltered
                  (fst (JS.clip_outliers butterworthFiltered)) |} |}.
Proof.
  intros Hf detrended butterworthFiltered.
  unfold JS.processSignal, JS.processSignal_try. rewrite Hf. cbn [bind].
  fold detrended. fold (pass f detrended). fold (pass f (pass f detrended)).
  fold butterworthFiltered.
  destruct (JS.clip_outliers butterworthFiltered) as [std cleaned]. reflexivity.
Qed.

End JSPipeline.

(* ================================================================== *)
(** * The two processing operations side by side *)
(* ================================================================== *)

Section Verdict.

Local Open Scope R_scope.

(** ** A run of the JavaScript worker: [processSignal([1, -1], 4, 0.5, 1.5, 2)] *)

Lemma new_unit_band :
  JS.new_ButterworthFilter (Fin 4) (Fin 0.5) (Fin 1.5) 2 = Return unit_band.
Proof.
  destruct (@new_ButterworthFilter_valid 4 0.5 1.5 2) as [t [Hnew [Ht _]]]; try lra.
  assert (H1 : t = 1).
  { rewrite Ht. replace (PI * (1.5 / (4 / 2) + - (0.5 / (4 / 2))) / 2) with (PI / 4) by lra.
    apply tan_PI4. }
  rewrite Hnew. rewrite H1. unfold unit_band. num_eval.
  f_equal. f_equal; fin_list.
Qed.

Lemma detrended_swing : JS.detrended_of swing = [Fin 0; Fin (-1)].
Proof.
  unfold JS.detrended_of, swing, reduce. cbn. of_nat_eval. num_eval.
  unfold neqb. rewrite eqb_Fin_false by lra. cbn [negb]. unfold mapi. cbn.
  of_nat_eval. num_eval. fin_list.
Qed.

Lemma pass_unit_band : pass unit_band [Fin 0; Fin (-1)] = [Fin 0; Fin (-1)].
Proof.
  unfold pass, unit_band. cbn. num_eval. fin_list.
Qed.

Lemma clip_swing :
  JS.clip_outliers [Fin 0; Fin (-1)] = (Fin 0.5, [Fin 0; Fin (-1)]).
Proof.
  unfold JS.clip_outliers, reduce. cbn. of_nat_eval. num_eval.
  rewrite sqrt_Fin by lra.
  assert (Hs : sqrt ((0 + (0 + - ((0 + 0 + -1) / 2)) * (0 + - ((0 + 0 + -1) / 2))
                      + (-1 + - ((0 + 0 + -1) / 2)) * (-1 + - ((0 + 0 + -1) / 2))) / 2)
               = 0.5) by (apply sqrt_lem_1; lra).
  rewrite Hs. num_eval. unfold gtb. rewrite !ltb_Fin_abs_false by lra.
  first [reflexivity | f_equal; fin_list].
Qed.

Lemma snr_swing : JS.calculateSNR [Fin 0; Fin (-1)] [Fin 0; Fin (-1)] = Fin 0.
Proof.
  unfold JS.calculateSNR, reduce. cbn. of_nat_eval. num_eval.
  unfold gtb. rewrite ltb_Fin_true by lra. rewrite log10_Fin by lra.
  cbn [mul]. apply Fin_eq.
  replace ((0 + 0 * 0 + -1 * -1) / 2 / ((0 + 0 * 0 + -1 * -1) / 2)) with 1 by lra.
  rewrite ln_1. lra.
Qed.

Lemma clipping_swing : JS.calculateClipping swing = Fin 50.
Proof.
  unfold JS.calculateClipping, swing. minmax_eval. cbn [mul].
  unfold geb. cbn [List.filter].
  rewrite leb_Fin_true by lra. rewrite leb_Fin_false by lra.
  cbn [length]. of_nat_eval. num_eval. fin_list.
Qed.

Lemma motion_swing : JS.calculateMotionArtifacts [Fin 0; Fin (-1)] = Fin 0.
Proof.
  unfold JS.calculateMotionArtifacts, reduce. cbn. of_nat_eval. num_eval.
  rewrite sqrt_Fin by (unfold Rabs; destruct (Rcase_abs _); lra).
  apply Fin_eq. apply sqrt_lem_1; try lra; unfold Rabs; destruct (Rcase_abs _); lra.
Qed.

Lemma valid_swing : JS.isValidSegment [Fin 0; Fin (-1)] (Fin 0.5) = true.
Proof.
  unfold JS.isValidSegment, reduce. cbn [fold_left length]. of_nat_eval. num_eval.
  cbn [List.filter]. num_eval. unfold gtb.
  rewrite !ltb_Fin_abs_true by lra. cbn [length]. of_nat_eval.
  cbn [mul]. apply ltb_Fin_true. lra.
Qed.

Lemma processSignal_swing :
  JS.processSignal swing (Fin 4) (Fin 0.5) (Fin 1.5) 2
  = Return
      {| JS.raw := swing;
         JS.bandpass := [Fin 0; Fin (-1)];
         JS.butterworth := [Fin 0; Fin (-1)];
         JS.qualityMetrics :=
           {| JS.snr := Fin 0;
              JS.clippingPercentage := Fin 50;
              JS.motionArtifactScore := Fin 0;
              JS.validSegment := true |} |}.
Proof.
  rewrite (@processSignal_shape swing _ _ _ _ _ new_unit_band).
  rewrite detrended_swing, !pass_unit_band, clip_swing. cbn [fst snd].
  rewrite snr_swing, clipping_swing, motion_swing, valid_swing. reflexivity.
Qed.

(** C4 (as stated, refuted): the JavaScript worker returns the verdict
    [true] together with a clipping percentage of 50, a motion score of 0 and
    a signal-to-noise ratio of 0, for which the three threshold tests fail. *)
Lemma C4_js_verdict_not_conjunction :
  JS.processSignal swing (Fin 4) (Fin 0.5) (Fin 1.5) 2
  = Return
      {| JS.raw := swing;
         JS.bandpass := [Fin 0; Fin (-1)];
         JS.butterworth := [Fin 0; Fin (-1)];
         JS.qualityMetrics :=
           {| JS.snr := Fin 0;
              JS.clippingPercentage := Fin 50;
              JS.motionArtifactScore := Fin 0;
              JS.validSegment := true |} |}
  /\ TS.validSegment_of (Fin 50) (Fin 0) (Fin 0) = false.
Proof.
  split; [exact processSignal_swing |].
  unfold TS.validSegment_of. rewrite (ltb_Fin_false (p := 50) (q := 5)) by lra. reflexivity.
Qed.

Lemma validSegment_of_iff (c m s : R) :
  TS.validSegment_of (Fin c) (Fin m) (Fin s) = true <-> c < 5 /\ m < 20 /\ 5 < s.
Proof.
  unfold TS.validSegment_of, gtb. rewrite !andb_true_iff, !ltb_Fin_iff. tauto.
Qed.

(** C4 (amended): in the TypeScript worker the verdict of [processSignal] is
    the conjunction of the three threshold tests on the metrics it has just
    computed: for every triple of finite metrics it is true exactly when
    [clippingPct < 5], [motionScore < 20] and [snr > 5] (a [NaN] metric fails
    its test); (2, 5, 10) gives true and (10, 5, 10) gives false.  The verdict
    of the JavaScript worker is [isValidSegment] of the twice-filtered signal
    and its standard deviation instead. *)
Theorem C4_validSegment_conjunction
    (c m s : R) (x y z : num) (payload : TS.ProcessSignalPayload)
    (rawSignal : list num) (samplingRate bandpassLow bandpassHigh : num) (filterOrder : Z) :
  (TS.validSegment_of (Fin c) (Fin m) (Fin s) = true <-> c < 5 /\ m < 20 /\ 5 < s)
  /\ TS.validSegment_of x y z = (ltb x (Fin 5) && ltb y (Fin 20) && gtb z (Fin 5))%bool
  /\ TS.validSegment_of NaN y z = false /\ TS.validSegment_of x NaN z = false /\ TS.validSegment_of x y NaN = false
  /\ TS.validSegment_of (Fin 2) (Fin 5) (Fin 10) = true
  /\ TS.validSegment_of (Fin 10) (Fin 5) (Fin 10) = false
  /\ match TS.processSignal payload with
     | Return r =>
         TS.validSegment (TS.qualityMetrics r)
         = TS.validSegment_of (TS.detectClipping (TS.rawSignal payload) (Fin 0.98))
             (TS.assessMotionArtifacts (TS.rawSignal payload))
             (TS.estimateSNR (TS.rawSignal payload) (TS.cleanedSignal r))
     | Throw _ => True
     end
  /\ match JS.processSignal rawSignal samplingRate bandpassLow bandpassHigh filterOrder with
     | Return r =>
         exists f,
           JS.new_ButterworthFilter samplingRate bandpassLow bandpassHigh filterOrder
           = Return f
           /\ JS.validSegment (JS.qualityMetrics r)
              = JS.isValidSegment (pass f (pass f (JS.detrended_of rawSignal)))
                  (fst (JS.clip_outliers (pass f (pass f (JS.detrended_of rawSignal)))))
     | Throw _ => True
     end.
Proof.
  split; [apply validSegment_of_iff |].
  split; [reflexivity |].
  split; [reflexivity |].
  split; [unfold TS.validSegment_of; destruct (ltb x (Fin 5)); reflexivity |].
  split; [unfold TS.validSegment_of, gtb; rewrite ltb_NaN_r; apply andb_false_r |].
  split; [apply validSegment_of_iff; lra |].
  split.
  { destruct (TS.validSegment_of (Fin 10) (Fin 5) (Fin 10)) eqn:E; [| reflexivity].
    apply validSegment_of_iff in E. lra. }
  split.
  - unfold TS.processSignal.
    destruct (TS.designButterworthFilter _ _ _ _) as [co | msg]; cbn [bind]; [| exact I].
    reflexivity.
  - destruct (JS.new_ButterworthFilter samplingRate bandpassLow bandpassHigh filterOrder)
      as [f | msg] eqn:Hf.
    + rewrite (@processSignal_shape rawSignal _ _ _ _ _ Hf).
      exists f. split; reflexivity.
    + unfold JS.processSignal, JS.processSignal_try. rewrite Hf. exact I.
Qed.

End Verdict.

Section Cascade.

Local Open Scope R_scope.

(** ** A run of the TypeScript worker on [[1, -1, -1, 1]] with the order-2 table *)

Lemma detrend_zigzag : TS.detrend zigzag = zigzag.
Proof.
  unfold TS.detrend, TS.slope, TS.intercept, TS.detrend_sums, zigzag.
  cbn. of_nat_eval. num_eval. fin_list.
Qed.

Lemma mean_zigzag : TS.mean zigzag = Fin 0.
Proof.
  unfold TS.mean, reduce, zigzag. cbn. of_nat_eval. num_eval. fin_list.
Qed.

Lemma std_zigzag : TS.std zigzag = Fin 1.
Proof.
  unfold TS.std, TS.variance. rewrite mean_zigzag. unfold reduce, zigzag. cbn.
  of_nat_eval. num_eval. rewrite sqrt_Fin by lra. apply Fin_eq.
  apply sqrt_lem_1; lra.
Qed.

Lemma removeOutliers_zigzag : TS.removeOutliers zigzag (Fin 3) = zigzag.
Proof.
  unfold TS.removeOutliers, TS.zScore. rewrite mean_zigzag, std_zigzag.
  unfold zigzag. cbn [map]. num_eval. unfold gtb.
  rewrite !ltb_Fin_abs_false by lra. reflexivity.
Qed.

Lemma filter_once :
  TS.applyIIRFilter zigzag (TS.b table2) (TS.a table2)
  = map Fin [0.2; 0.36; -0.184; -0.6768].
Proof.
  unfold TS.applyIIRFilter, TS.iir_sample, zigzag, table2. cbn. num_eval. fin_list.
Qed.

Lemma filter_twice :
  TS.applyIIRFilter (map Fin [0.2; 0.36; -0.184; -0.6768]) (TS.b table2) (TS.a table2)
  = map Fin [0.04; 0.184; 0.28; 0.0208].
Proof.
  unfold TS.applyIIRFilter, TS.iir_sample, table2. cbn. num_eval. fin_list.
Qed.
Lemma normalize_once :
  TS.normalize (map Fin [0.2; 0.36; -0.184; -0.6768])
  = map Fin [0.8768 / 1.0368 * 255; 255; 0.4928 / 1.0368 * 255; 0].
Proof.
  unfold TS.normalize. minmax_eval. cbn [sub add neg].
  unfold or_else. rewrite falsy_Fin_false by lra. cbn [map]. num_eval. fin_list.
Qed.

Lemma normalize_twice :
  TS.normalize (map Fin [0.04; 0.184; 0.28; 0.0208])
  = map Fin [0.0192 / 0.2592 * 255; 0.1632 / 0.2592 * 255; 255; 0].
Proof.
  unfold TS.normalize. minmax_eval. cbn [sub add neg].
  unfold or_else. rewrite falsy_Fin_false by lra. cbn [map]. num_eval. fin_list.
Qed.

Lemma design_table2 :
  TS.designButterworthFilter (Fin 0.5) (Fin 4) (Fin 30) 2 = Return table2.
Proof. reflexivity. Qed.

(** The cleaned signal of [TS.processSignal] is one pass of the designed
    filter over the despiked signal, normalized. *)
Lemma processSignal_single_pass (payload : TS.ProcessSignalPayload) :
  match TS.processSignal payload with
  | Return r =>
      exists c,
        TS.designButterworthFilter (TS.bandpassLow payload) (TS.bandpassHigh payload)
          (TS.samplingRate payload) (TS.filterOrder payload) = Return c
        /\ TS.cleanedSignal r
           = TS.normalize
               (TS.applyIIRFilter
                  (TS.removeOutliers (TS.detrend (TS.rawSignal payload)) (Fin 3))
                  (TS.b c) (TS.a c))
  | Throw _ => True
  end.
Proof.
  unfold TS.processSignal.
  destruct (TS.designButterworthFilter _ _ _ _) as [c | msg]; cbn [bind]; [| exact I].
  exists c. split; reflexivity.
Qed.

(** C7 (as stated, refuted): on [[1, -1, -1, 1]] (order 2) the TypeScript
    worker returns the normalized output of a single filter pass, which is not
    the output of the design applied twice. *)
Lemma C7_ts_single_pass :
  exists r,
    TS.processSignal zigzag_payload = Return r
    /\ TS.cleanedSignal r = map Fin [0.8768 / 1.0368 * 255; 255; 0.4928 / 1.0368 * 255; 0]
    /\ cascade_cleaned zigzag_payload table2
       = map Fin [0.0192 / 0.2592 * 255; 0.1632 / 0.2592 * 255; 255; 0]
    /\ TS.cleanedSignal r <> cascade_cleaned zigzag_payload table2.
Proof.
  assert (Hcas : cascade_cleaned zigzag_payload table2
                 = map Fin [0.0192 / 0.2592 * 255; 0.1632 / 0.2592 * 255; 255; 0]).
  { unfold cascade_cleaned. cbn [TS.rawSignal zigzag_payload].
    rewrite detrend_zigzag, removeOutliers_zigzag, filter_once, filter_twice.
    apply normalize_twice. }
  unfold TS.processSignal.
  cbn [TS.rawSignal TS.samplingRate TS.bandpassLow TS.bandpassHigh TS.filterOrder
       zigzag_payload].
  rewrite design_table2. cbn [bind].
  rewrite detrend_zigzag, removeOutliers_zigzag, filter_once, normalize_once.
  eexists. split; [reflexivity |]. cbn [TS.cleanedSignal].
  split; [reflexivity |]. split; [exact Hcas |].
  rewrite Hcas. cbn [map]. intros Heq.
  injection Heq as _ H255 _. lra.
Qed.

(** C7 (amended): for a valid specification the JavaScript worker builds two
    filter objects of the same design, each with zero histories (a pass is
    the second-order recurrence [biquad] started from zeros), and applies them
    in cascade: [bandpass] is one pass over the detrended signal,
    [butterworth] is the clip-to-mean pass over the second pass, and the
    quality metrics are computed after both.  The TypeScript worker applies
    the designed filter once, after its outlier pass. *)
Theorem C7_two_filter_passes (rawSignal : list num) (fs low high : R) (order : Z)
    (payload : TS.ProcessSignalPayload) :
  0 < fs -> 0 < low -> low < high -> high < fs / 2 ->
  (exists f r,
     JS.new_ButterworthFilter (Fin fs) (Fin low) (Fin high) order = Return f
     /\ JS.x f = [Fin 0; Fin 0; Fin 0] /\ JS.y f = [Fin 0; Fin 0; Fin 0]
     /\ (forall signal,
          pass f signal = biquad (JS.b f) (JS.a f) (Fin 0) (Fin 0) (Fin 0) (Fin 0) signal)
     /\ JS.processSignal rawSignal (Fin fs) (Fin low) (Fin high) order = Return r
     /\ JS.bandpass r = pass f (JS.detrended_of rawSignal)
     /\ JS.butterworth r
        = snd (JS.clip_outliers (pass f (pass f (JS.detrended_of rawSignal))))
     /\ JS.qualityMetrics r
        = {| JS.snr := JS.calculateSNR (JS.butterworth r) (JS.detrended_of rawSignal);
             JS.clippingPercentage := JS.calculateClipping rawSignal;
             JS.motionArtifactScore :=
               JS.calculateMotionArtifacts (pass f (pass f (JS.detrended_of rawSignal)));
             JS.validSegment :=
               JS.isValidSegment (pass f (pass f (JS.detrended_of rawSignal)))
                 (fst (JS.clip_outliers (pass f (pass f (JS.detrended_of rawSignal))))) |})
  /\ match TS.processSignal payload with
     | Return r =>
         exists c,
           TS.designButterworthFilter (TS.bandpassLow payload) (TS.bandpassHigh payload)
             (TS.samplingRate payload) (TS.filterOrder payload) = Return c
           /\ TS.cleanedSignal r
              = TS.normalize
                  (TS.applyIIRFilter
                     (TS.removeOutliers (TS.detrend (TS.rawSignal payload)) (Fin 3))
                     (TS.b c) (TS.a c))
     | Throw _ => True
     end.
Proof.
  intros Hfs Hlow Hlh Hhigh. split; [| apply processSignal_single_pass].
  destruct (@new_ButterworthFilter_valid fs low high order Hfs Hlow Hlh Hhigh)
    as [t [Hnew _]].
  eexists. eexists. split; [exact Hnew |].
  split; [reflexivity |]. split; [reflexivity |].
  split; [intros signal; apply (pass_biquad _ signal (x0 := Fin 0) (y0 := Fin 0)); reflexivity |].
  split; [apply (@processSignal_shape rawSignal _ _ _ _ _ Hnew) |].
  split; [reflexivity |]. split; reflexivity.
Qed.

Lemma C7_two_filter_passes_witness :
  exists f r,
    JS.new_ButterworthFilter (Fin 4) (Fin 0.5) (Fin 1.5) 2 = Return f
    /\ JS.processSignal swing (Fin 4) (Fin 0.5) (Fin 1.5) 2 = Return r
    /\ JS.bandpass r = pass f (JS.detrended_of swing)
    /\ JS.butterworth r = snd (JS.clip_outliers (pass f (pass f (JS.detrended_of swing)))).
Proof.
  destruct (@C7_two_filter_passes swing 4 0.5 1.5 2 zigzag_payload) as [Hjs _]; try lra.
  destruct Hjs as [f [r [Hf [_ [_ [_ [Hr [Hb [Hc _]]]]]]]]].
  exists f, r. repeat split; assumption.
Defined.

End Cascade.

(* ================================================================== *)
(** * The batch filter of the TypeScript worker *)
(* ================================================================== *)

Section BatchFilter.

Local Open Scope R_scope.

Lemma for_range_ext {S : Type} (lo hi : nat) (body body' : S -> nat -> S) (init : S) :
  (forall s i, (lo <= i < hi)%nat -> body s i = body' s i) ->
  for_range lo hi body init = for_range lo hi body' init.
Proof.
  intros H. unfold for_range.
  assert (G : forall l s, (forall i, In i l -> (lo <= i < hi)%nat) ->
            fold_left body l s = fold_left body' l s).
  { induction l as [| i l IH]; intros s Hl; [reflexivity |].
    cbn [fold_left]. rewrite H by (apply Hl; left; reflexivity).
    apply IH. intros j Hj. apply Hl. right. exact Hj. }
  apply G. intros i Hi. apply in_seq in Hi. lia.
Qed.

Lemma get_app_l (l1 l2 : list num) (j : nat) :
  (j < length l1)%nat -> (l1 ++ l2).[j] = l1.[j].
Proof. intros H. unfold get. apply app_nth1. exact H. Qed.

(** A sample depends on the signal up to its own index and on the outputs
    in front of it only. *)
Lemma iir_sample_ext (signal signal' filtered filtered' b a : list num) (i : nat) :
  (forall j, (j <= i)%nat -> signal.[j] = signal'.[j]) ->
  (forall j, (j < i)%nat -> filtered.[j] = filtered'.[j]) ->
  TS.iir_sample signal filtered b a i = TS.iir_sample signal' filtered' b a i.
Proof.
  intros Hs Hf. unfold TS.iir_sample. f_equal.
  rewrite (@for_range_ext _ 1 _ (fun y j => sub y (mul a.[j] filtered.[i - j]))
             (fun y j => sub y (mul a.[j] filtered'.[i - j])))
    by (intros s j Hj; rewrite Hf by lia; reflexivity).
  f_equal.
  apply for_range_ext. intros s j Hj. rewrite Hs by lia. reflexivity.
Qed.

Lemma iir_prefix_length (signal b a : list num) (k : nat) :
  length (iir_prefix signal b a k) = k.
Proof.
  induction k as [| k IH]; [reflexivity |].
  cbn [iir_prefix]. rewrite length_app, IH. simpl. lia.
Qed.

Lemma applyIIRFilter_steps (signal b a : list num) (n k : nat) :
  (k <= n)%nat ->
  for_range 0 k (fun filtered i => set filtered i (TS.iir_sample signal filtered b a i))
    (repeat NaN n)
  = iir_prefix signal b a k ++ repeat NaN (n - k).
Proof.
  induction k as [| k IH]; intros Hk.
  - rewrite for_range_0_0, Nat.sub_0_r. reflexivity.
  - rewrite for_range_0_S, IH by lia.
    replace (n - k)%nat with (S (n - S k)) by lia. cbn [repeat].
    set (p := iir_prefix signal b a k).
    pose proof (set_app_head p (repeat NaN (n - S k)) NaN
                  (TS.iir_sample signal (p ++ NaN :: repeat NaN (n - S k)) b a k)) as Hset.
    unfold p in Hset at 2. rewrite iir_prefix_length in Hset. rewrite Hset.
    cbn [iir_prefix]. fold p. rewrite <- app_assoc. cbn [app].
    do 2 f_equal.
    apply iir_sample_ext; [reflexivity |].
    intros j Hj. apply get_app_l. unfold p. rewrite iir_prefix_length. exact Hj.
Qed.

Lemma applyIIRFilter_prefix (signal b a : list num) :
  TS.applyIIRFilter signal b a = iir_prefix signal b a (length signal).
Proof.
  unfold TS.applyIIRFilter. rewrite applyIIRFilter_steps by lia.
  rewrite Nat.sub_diag. apply app_nil_r.
Qed.

Lemma applyIIRFilter_length (signal b a : list num) :
  length (TS.applyIIRFilter signal b a) = length signal.
Proof. rewrite applyIIRFilter_prefix. apply iir_prefix_length. Qed.

Lemma iir_prefix_firstn (signal b a : list num) (n k : nat) :
  (k <= n)%nat -> firstn k (iir_prefix signal b a n) = iir_prefix signal b a k.
Proof.
  induction n as [| n IH]; intros Hk.
  - replace k with 0%nat by lia. reflexivity.
  - destruct (Nat.eq_dec k (S n)) as [-> | Hne].
    + rewrite <- (iir_prefix_length signal b a (S n)) at 1. apply firstn_all.
    + cbn [iir_prefix]. rewrite firstn_app, iir_prefix_length.
      replace (k - n)%nat with 0%nat by lia. cbn [firstn]. rewrite app_nil_r.
      apply IH. lia.
Qed.

Lemma iir_prefix_app (xs ys b a : list num) (k : nat) :
  (k <= length xs)%nat -> iir_prefix (xs ++ ys) b a k = iir_prefix xs b a k.
Proof.
  induction k as [| k IH]; intros Hk; [reflexivity |].
  cbn [iir_prefix]. rewrite IH by lia. f_equal. f_equal.
  apply iir_sample_ext; [| reflexivity].
  intros j Hj. apply get_app_l. lia.
Qed.

(** X1 -- [applyIIRFilter] is causal and keeps the length: the output has as
    many samples as the input whatever the coefficient arrays are, and the
    samples computed for a signal are not changed by what follows it (the
    output on [xs ++ ys] starts with the output on [xs]). *)
Theorem X1_applyIIRFilter_causal (xs ys b a : list num) :
  length (TS.applyIIRFilter xs b a) = length xs
  /\ firstn (length xs) (TS.applyIIRFilter (xs ++ ys) b a) = TS.applyIIRFilter xs b a.
Proof.
  split; [apply applyIIRFilter_length |].
  rewrite !applyIIRFilter_prefix.
  rewrite iir_prefix_firstn by (rewrite length_app; lia).
  apply iir_prefix_app. lia.
Qed.

End BatchFilter.

(* ================================================================== *)
(** * Clipping and motion metrics of the TypeScript worker *)
(* ================================================================== *)

Section ClippingMotion.

Local Open Scope R_scope.



Lemma filter_none (A : Type) (p : A -> bool) (l : list A) :
  (forall x, In x l -> p x = false) -> List.filter p l = [].
Proof.
  induction l as [| h t IH]; intros H; [reflexivity |].
  cbn [List.filter]. rewrite (H h) by (left; reflexivity).
  apply IH. intros x Hx. apply H. right. exact Hx.
Qed.




(** A percentage [count / n * 100] of a non-empty array. *)
Lemma percentage_Fin (count n : nat) :
  (0 < n)%nat ->
  mul (div (of_nat count) (of_nat n)) (Fin 100) = Fin (INR count / INR n * 100).
Proof.
  intros Hn. rewrite !of_nat_INR.
  rewrite div_Fin by (apply not_0_INR; lia). reflexivity.
Qed.









End ClippingMotion.

(* ================================================================== *)
(** * Motion score and rounding of the TypeScript worker *)
(* ================================================================== *)

Section MotionScore.

Local Open Scope R_scope.

(** A loop that counts the indices satisfying a test. *)
Lemma count_loop_le (p : nat -> bool) (lo hi : nat) :
  (for_range lo hi (fun count i => if p i then S count else count) 0%nat <= hi - lo)%nat.
Proof.
  unfold for_range.
  assert (G : forall l c,
            (fold_left (fun count i => if p i then S count else count) l c
             <= c + length l)%nat).
  { induction l as [| i l IH]; intros c; cbn [fold_left length]; [lia |].
    specialize (IH (if p i then S c else c)). destruct (p i); lia. }
  specialize (G (seq lo (hi - lo)) 0%nat). rewrite length_seq in G. exact G.
Qed.

Lemma count_loop_none (p : nat -> bool) (lo hi : nat) :
  (forall i, (lo <= i < hi)%nat -> p i = false) ->
  for_range lo hi (fun count i => if p i then S count else count) 0%nat = 0%nat.
Proof.
  intros H. apply (for_range_invariant (fun c => c = 0%nat)); [reflexivity |].
  intros s i Hi ->. rewrite H by exact Hi. reflexivity.
Qed.

Lemma assessMotionArtifacts_short (signal : list num) :
  (length signal < 3)%nat -> TS.assessMotionArtifacts signal = Fin 0.
Proof.
  intros H. unfold TS.assessMotionArtifacts.
  apply Nat.ltb_lt in H. rewrite H. reflexivity.
Qed.

Lemma assessMotionArtifacts_Fin (xs : list R) :
  (3 <= length xs)%nat ->
  exists count : nat,
    TS.assessMotionArtifacts (map Fin xs) = Fin (INR count / INR (length xs) * 100)
    /\ (count <= length xs - 1)%nat.
Proof.
  intros Hn. unfold TS.assessMotionArtifacts. rewrite length_map.
  assert (Hge : (length xs <? 3)%nat = false) by (apply Nat.ltb_ge; exact Hn).
  rewrite Hge.
  eexists. split.
  - apply percentage_Fin. lia.
  - apply count_loop_le.
Qed.

Lemma Math_max_repeat (c : R) (n : nat) : Math_max (map Fin (repeat c (S n))) = Fin c.
Proof.
  destruct (@Math_max_Fin (repeat c (S n)) ltac:(discriminate)) as [m [Hm [Hin _]]].
  rewrite Hm. apply repeat_spec in Hin. rewrite Hin. reflexivity.
Qed.

Lemma Math_min_repeat (c : R) (n : nat) : Math_min (map Fin (repeat c (S n))) = Fin c.
Proof.
  destruct (@Math_min_Fin (repeat c (S n)) ltac:(discriminate)) as [m [Hm [Hin _]]].
  rewrite Hm. apply repeat_spec in Hin. rewrite Hin. reflexivity.
Qed.

Lemma nth_repeat_lt (c : R) (n i : nat) : (i < n)%nat -> nth i (repeat c n) 0 = c.
Proof.
  intros Hi. apply (@repeat_spec R n c). apply nth_In. rewrite repeat_length. exact Hi.
Qed.

Lemma assessMotionArtifacts_constant (c : R) (n : nat) :
  TS.assessMotionArtifacts (map Fin (repeat c n)) = Fin 0.
Proof.
  destruct (Nat.lt_ge_cases n 3) as [Hlt | Hge].
  - apply assessMotionArtifacts_short. rewrite length_map, repeat_length. exact Hlt.
  - unfold TS.assessMotionArtifacts. rewrite length_map, repeat_length.
    assert (Hb : (n <? 3)%nat = false) by (apply Nat.ltb_ge; exact Hge).
    rewrite Hb. destruct n as [| n]; [lia |].
    rewrite Math_max_repeat, Math_min_repeat. cbn [sub neg add mul].
    rewrite (of_nat_INR (S n)).
    rewrite (@div_Fin (2 * (c + - c)) (INR (S n))) by (apply not_0_INR; lia).
    rewrite count_loop_none.
    + change (of_nat 0) with (Fin 0).
      rewrite div_Fin by (apply not_0_INR; lia).
      cbn [mul]. apply Fin_eq. unfold Rdiv. ring.
    + intros i Hi. rewrite !get_map_Fin by (rewrite repeat_length; lia).
      rewrite !nth_repeat_lt by lia. cbn [sub neg add Math_abs].
      unfold gtb. apply ltb_Fin_false.
      replace (c + - c) with 0 by ring. rewrite Rabs_R0.
      unfold Rdiv. rewrite Rmult_0_r, Rmult_0_l. lra.
Qed.

(** X5 -- [assessMotionArtifacts] is a percentage below 100.  A signal of
    fewer than three samples scores 0; a finite signal of [n >= 3] samples
    scores between 0 and [100 * (n - 1) / n] (at most [n - 1] jumps are
    counted); a constant signal scores 0. *)
Theorem X5_assessMotionArtifacts_bounds
    (signal : list num) (xs : list R) (c : R) (n : nat) :
  ((length signal < 3)%nat -> TS.assessMotionArtifacts signal = Fin 0)
  /\ ((3 <= length xs)%nat ->
      exists v,
        TS.assessMotionArtifacts (map Fin xs) = Fin v
        /\ 0 <= v <= 100 * (INR (length xs) - 1) / INR (length xs)
        /\ v < 100)
  /\ TS.assessMotionArtifacts (map Fin (repeat c n)) = Fin 0.
Proof.
  split; [apply assessMotionArtifacts_short |].
  split; [| apply assessMotionArtifacts_constant].
  intros Hn. destruct (assessMotionArtifacts_Fin xs Hn) as [count [Hv Hc]].
  exists (INR count / INR (length xs) * 100). split; [exact Hv |].
  assert (Hpos : 0 < INR (length xs)) by (apply lt_0_INR; lia).
  assert (Hi : 0 < / INR (length xs)) by (apply Rinv_0_lt_compat; exact Hpos).
  assert (H1 : INR (length xs) * / INR (length xs) = 1) by (apply Rinv_r; lra).
  assert (Hc' : INR count <= INR (length xs) - 1).
  { apply le_INR in Hc. rewrite minus_INR in Hc by lia. simpl INR in Hc. exact Hc. }
  assert (H0 : 0 <= INR count) by apply pos_INR.
  assert (Hm : INR count * / INR (length xs) <= (INR (length xs) - 1) * / INR (length xs))
    by (apply Rmult_le_compat_r; lra).
  assert (Hz : 0 <= INR count * / INR (length xs))
    by (apply Rmult_le_pos; lra).
  unfold Rdiv. split; [split; lra |].
  assert ((INR (length xs) - 1) * / INR (length xs) < 1).
  { rewrite Rmult_minus_distr_r, H1. lra. }
  lra.
Qed.

Lemma X5_assessMotionArtifacts_bounds_witness :
  TS.assessMotionArtifacts [Fin 1; PInf] = Fin 0
  /\ exists v,
       TS.assessMotionArtifacts (map Fin [1; 5; 2]) = Fin v
       /\ 0 <= v <= 100 * (INR 3 - 1) / INR 3
       /\ v < 100.
Proof.
  split.
  - apply (proj1 (X5_assessMotionArtifacts_bounds [Fin 1; PInf] [] 0 0)). simpl. lia.
  - apply (proj1 (proj2 (X5_assessMotionArtifacts_bounds [] [1; 5; 2] 0 0))). simpl. lia.
Defined.

(** ** Rounding to one decimal *)



End MotionScore.

(* ================================================================== *)
(** * Design fallback and edge cases of the TypeScript pipeline *)
(* ================================================================== *)

Section DesignFallback.

Local Open Scope R_scope.

Lemma new_Array_negative (z : Z) :
  (z < 0)%Z -> new_Array (inject_Z z) = Throw "Invalid array length".
Proof.
  intros Hz. unfold new_Array, inject_Z.
  assert (H : (0 <=? z)%Z = false) by (apply Z.leb_gt; exact Hz).
  rewrite H. rewrite andb_false_r. reflexivity.
Qed.

Lemma fill_repeat (d v : num) (n : nat) : fill (repeat d n) v = repeat v n.
Proof. unfold fill. induction n as [| n IH]; [reflexivity |]. cbn [repeat map]. rewrite IH. reflexivity. Qed.

(** Two assignments at the indices 0 and 1 of a zero-filled array of any
    length: an array shorter than two elements grows. *)
Lemma fallback_array (n : nat) (u v : num) :
  set (set (fill (repeat NaN n) (Fin 0)) 0 u) 1 v = u :: v :: repeat (Fin 0) (n - 2).
Proof.
  rewrite fill_repeat. destruct n as [| [| n]]; try reflexivity.
  cbn [repeat set Nat.sub]. rewrite Nat.sub_0_r. reflexivity.
Qed.

Lemma designButterworthFilter_fallback (lowCutoff highCutoff samplingRate : num) (order : Z) :
  (-1 <= order)%Z -> order <> 2%Z -> order <> 4%Z ->
  let alpha := sub (div (mul (Fin 2) highCutoff) samplingRate)
                   (div (mul (Fin 2) lowCutoff) samplingRate) in
  TS.designButterworthFilter lowCutoff highCutoff samplingRate order
  = Return {| TS.b := alpha :: alpha :: repeat (Fin 0) (Z.to_nat (order + 1) - 2);
              TS.a := Fin 1 :: neg (sub (Fin 1) alpha)
                        :: repeat (Fin 0) (Z.to_nat (order + 1) - 2) |}.
Proof.
  intros Ho H2 H4 alpha. unfold TS.designButterworthFilter.
  rewrite new_Array_nonneg by lia. cbn [bind].
  destruct (Z.eqb_spec order 2) as [E | _]; [contradiction |].
  destruct (Z.eqb_spec order 4) as [E | _]; [contradiction |].
  rewrite !fallback_array. reflexivity.
Qed.

(** X7 -- The designer knows two filters only.  For an integer order,
    [designButterworthFilter] throws [Invalid array length] when the order
    is below -1; for the orders 2 and 4 it returns a fixed table whatever
    the band and the sampling rate are; for every other order from -1 to
    65535 it returns the first-order fallback [b = [alpha, alpha, 0, ...]],
    [a = [1, -(1 - alpha), 0, ...]] with
    [alpha = 2 * high / fs - 2 * low / fs], an array of [order + 1] elements
    that grows to two elements for the orders -1 and 0.  (An order of
    2^32 - 1 or more makes [new Array] throw as well; the statement stays
    within array lengths that every engine grants.) *)
Theorem X7_design_table_or_fallback
    (lowCutoff highCutoff samplingRate : num) (order : Z) :
  ((order < -1)%Z ->
   TS.designButterworthFilter lowCutoff highCutoff samplingRate order
   = Throw "Invalid array length")
  /\ TS.designButterworthFilter lowCutoff highCutoff samplingRate 2
     = Return {| TS.b := [Fin 0.2; Fin 0.4; Fin 0.2];
                 TS.a := [Fin 1; Fin (-0.8); Fin 0.36] |}
  /\ TS.designButterworthFilter lowCutoff highCutoff samplingRate 4
     = Return {| TS.b := [Fin 0.1; Fin 0.2; Fin 0.3; Fin 0.2; Fin 0.1];
                 TS.a := [Fin 1; Fin (-1.5); Fin 1.2; Fin (-0.5); Fin 0.08] |}
  /\ ((-1 <= order <= 65535)%Z -> order <> 2%Z -> order <> 4%Z ->
      let alpha := sub (div (mul (Fin 2) highCutoff) samplingRate)
                       (div (mul (Fin 2) lowCutoff) samplingRate) in
      TS.designButterworthFilter lowCutoff highCutoff samplingRate order
      = Return {| TS.b := alpha :: alpha :: repeat (Fin 0) (Z.to_nat (order + 1) - 2);
                  TS.a := Fin 1 :: neg (sub (Fin 1) alpha)
                            :: repeat (Fin 0) (Z.to_nat (order + 1) - 2) |}).
Proof.
  split; [| split; [| split]].
  - intros Ho. unfold TS.designButterworthFilter.
    rewrite new_Array_negative by lia. reflexivity.
  - reflexivity.
  - reflexivity.
  - intros [Ho _]. apply designButterworthFilter_fallback. exact Ho.
Qed.

Lemma X7_design_table_or_fallback_witness :
  TS.designButterworthFilter (Fin 0.5) (Fin 4) (Fin 30) (-2) = Throw "Invalid array length"
  /\ TS.designButterworthFilter (Fin 0.5) (Fin 4) (Fin 30) 6
     = Return
         {| TS.b := sub (div (mul (Fin 2) (Fin 4)) (Fin 30))
                      (div (mul (Fin 2) (Fin 0.5)) (Fin 30))
                    :: sub (div (mul (Fin 2) (Fin 4)) (Fin 30))
                         (div (mul (Fin 2) (Fin 0.5)) (Fin 30))
                    :: repeat (Fin 0) 5;
            TS.a := Fin 1
                    :: neg (sub (Fin 1)
                              (sub (div (mul (Fin 2) (Fin 4)) (Fin 30))
                                 (div (mul (Fin 2) (Fin 0.5)) (Fin 30))))
                    :: repeat (Fin 0) 5 |}.
Proof.
  split.
  - apply (proj1 (X7_design_table_or_fallback (Fin 0.5) (Fin 4) (Fin 30) (-2))). lia.
  - apply (proj2 (proj2 (proj2 (X7_design_table_or_fallback (Fin 0.5) (Fin 4) (Fin 30) 6))));
      lia.
Defined.

End DesignFallback.

Section PipelineEdges.

Local Open Scope R_scope.

Lemma detrend_length (signal : list num) : length (TS.detrend signal) = length signal.
Proof.
  unfold TS.detrend. destruct (Nat.ltb_spec (length signal) 2) as [_ | _]; [reflexivity |].
  rewrite (fill_loop
             (fun _ i => sub signal.[i]
                           (add (mul (TS.slope signal) (of_nat i)) (TS.intercept signal)))
             (fun i => sub signal.[i]
                         (add (mul (TS.slope signal) (of_nat i)) (TS.intercept signal))))
    by reflexivity.
  rewrite length_map, length_seq. reflexivity.
Qed.

Lemma normalize_length (signal : list num) : length (TS.normalize signal) = length signal.
Proof. unfold TS.normalize. apply length_map. Qed.

(** X8 -- [processSignal] and the filter order.  For an integer order
    below -1 the call throws [Invalid array length], whatever the signal is;
    for an order from -1 to 65535 and a raw signal of at most 65535 samples
    (so that the arrays are granted and the spread calls [Math.min(...)] and
    [Math.max(...)] stay within the argument limit of the engine) it
    returns, for samples finite or not, and the cleaned signal has as many
    samples as the raw signal. *)
Theorem X8_processSignal_total (payload : TS.ProcessSignalPayload) :
  ((TS.filterOrder payload < -1)%Z ->
   TS.processSignal payload = Throw "Invalid array length")
  /\ ((-1 <= TS.filterOrder payload <= 65535)%Z ->
      (Z.of_nat (length (TS.rawSignal payload)) <= 65535)%Z ->
      exists r,
        TS.processSignal payload = Return r
        /\ length (TS.cleanedSignal r) = length (TS.rawSignal payload)).
Proof.
  split.
  - intros Ho. unfold TS.processSignal, TS.designButterworthFilter.
    rewrite new_Array_negative by lia. reflexivity.
  - intros [Ho _] _.
    destruct (designButterworthFilter_returns (TS.bandpassLow payload)
                (TS.bandpassHigh payload) (TS.samplingRate payload) Ho) as [c Hc].
    unfold TS.processSignal. rewrite Hc. cbn [bind].
    eexists. split; [reflexivity |]. cbn [TS.cleanedSignal].
    rewrite normalize_length, applyIIRFilter_length, removeOutliers_length.
    apply detrend_length.
Qed.

Lemma X8_processSignal_total_witness :
  TS.processSignal
    {| TS.rawSignal := [Fin 1; NaN]; TS.samplingRate := Fin 30;
       TS.bandpassLow := Fin 0.5; TS.bandpassHigh := Fin 4; TS.filterOrder := -3 |}
  = Throw "Invalid array length"
  /\ exists r,
       TS.processSignal
         {| TS.rawSignal := [Fin 1; NaN]; TS.samplingRate := Fin 30;
            TS.bandpassLow := Fin 0.5; TS.bandpassHigh := Fin 4; TS.filterOrder := 3 |}
       = Return r
       /\ length (TS.cleanedSignal r) = 2%nat.
Proof.
  split.
  - apply (proj1 (X8_processSignal_total
                    {| TS.rawSignal := [Fin 1; NaN]; TS.samplingRate := Fin 30;
                       TS.bandpassLow := Fin 0.5; TS.bandpassHigh := Fin 4;
                       TS.filterOrder := -3 |})).
    simpl. lia.
  - apply (proj2 (X8_processSignal_total
                    {| TS.rawSignal := [Fin 1; NaN]; TS.samplingRate := Fin 30;
                       TS.bandpassLow := Fin 0.5; TS.bandpassHigh := Fin 4;
                       TS.filterOrder := 3 |})).
    + simpl. lia.
    + simpl. lia.
Defined.

Lemma Int_part_half : Int_part (0 * 10 + / 2) = 0%Z.
Proof.
  symmetry. apply Int_part_spec. simpl IZR. lra.
Qed.



End PipelineEdges.

(* ================================================================== *)
(** * The display normalization of [TS.processSignal] *)
(* ================================================================== *)

Section Normalization.

Local Open Scope R_scope.





End Normalization.

Section NormalizationOverflow.

Import PrimFloat.

Set Warnings "-inexact-float".


Set Warnings "inexact-float".

End NormalizationOverflow.

(* ================================================================== *)
(** * Quality metrics of the JavaScript worker *)
(* ================================================================== *)

Section MetricsJS.

Local Open Scope R_scope.





(** ** Motion score *)

(** The absolute successive differences collected by the loop of
    [calculateMotionArtifacts]. *)
Lemma push_loop (f : nat -> num) (l : list nat) (init : list num) :
  fold_left (fun diffs i => diffs ++ [f i]) l init = init ++ map f l.
Proof.
  revert init. induction l as [| i l IH]; intros init; cbn [fold_left map].
  - symmetry. apply app_nil_r.
  - rewrite IH, <- app_assoc. reflexivity.
Qed.

Lemma diffs_Fin (xs : list R) :
  for_range 1 (length (map Fin xs))
    (fun diffs i => diffs ++ [Math_abs (sub (map Fin xs).[i] (map Fin xs).[i - 1])]) []
  = map Fin (map (fun i => Rabs (nth i xs 0 + - nth (i - 1) xs 0))
               (seq 1 (length xs - 1))).
Proof.
  unfold for_range.
  rewrite (push_loop (fun i => Math_abs (sub (map Fin xs).[i] (map Fin xs).[i - 1]))).
  cbn [app]. rewrite length_map, map_map. apply map_ext_in.
  intros i Hi. apply in_seq in Hi. rewrite !get_map_Fin by lia. reflexivity.
Qed.

Lemma calculateMotionArtifacts_short (signal : list num) :
  (length signal <= 1)%nat -> JS.calculateMotionArtifacts signal = NaN.
Proof.
  intros H. unfold JS.calculateMotionArtifacts.
  rewrite for_range_empty by lia. cbn [reduce fold_left length].
  change (of_nat 0) with (Fin 0). rewrite div_Fin_zero_zero by reflexivity. reflexivity.
Qed.

Lemma calculateMotionArtifacts_std (xs : list R) :
  JS.calculateMotionArtifacts (map Fin xs)
  = TS.std (map Fin (map (fun i => Rabs (nth i xs 0 + - nth (i - 1) xs 0))
                       (seq 1 (length xs - 1)))).
Proof.
  unfold JS.calculateMotionArtifacts. rewrite diffs_Fin. reflexivity.
Qed.

Lemma map_seq_constant (f : nat -> R) (d : R) (lo len : nat) :
  (forall i, (lo <= i < lo + len)%nat -> f i = d) -> map f (seq lo len) = repeat d len.
Proof.
  revert lo. induction len as [| len IH]; intros lo H; [reflexivity |].
  cbn [seq map repeat]. rewrite H by lia. f_equal. apply IH. intros i Hi. apply H. lia.
Qed.

Lemma calculateMotionArtifacts_jumps (xs : list R) (d : R) :
  (2 <= length xs)%nat ->
  exists v,
    JS.calculateMotionArtifacts (map Fin xs) = Fin v
    /\ 0 <= v
    /\ ((forall i, (1 <= i < length xs)%nat ->
                   Rabs (nth i xs 0 - nth (i - 1) xs 0) = d) -> v = 0).
Proof.
  intros Hn. rewrite calculateMotionArtifacts_std.
  set (ds := map (fun i => Rabs (nth i xs 0 + - nth (i - 1) xs 0)) (seq 1 (length xs - 1))).
  assert (Hne : ds <> []).
  { unfold ds. destruct (length xs - 1)%nat eqn:E; [lia | discriminate]. }
  exists (sqrt (varianceR ds)). split; [apply std_Fin; exact Hne |].
  split; [apply sqrt_pos |].
  intros Hd.
  assert (Hrep : ds = repeat d (S (length xs - 2))).
  { unfold ds. replace (length xs - 1)%nat with (S (length xs - 2)) by lia.
    apply map_seq_constant. intros i Hi. apply Hd. lia. }
  pose proof (constant_std d (length xs - 2)) as Hstd.
  rewrite <- Hrep in Hstd. rewrite (std_Fin Hne) in Hstd.
  apply Fin_inj in Hstd. exact Hstd.
Qed.

(** X11 -- [calculateMotionArtifacts] is the spread of the jump sizes, not
    their size.  For a signal of fewer than two samples it returns [NaN].
    For a signal of 2 to 2^20 integer samples of magnitude at most 2^20
    (sums and differences of such samples are exact in binary64) it returns
    a finite non-negative number, the standard deviation of the absolute
    successive differences, which is 0 whenever all successive differences
    have the same magnitude, however large. *)
Theorem X11_calculateMotionArtifacts_spread (signal : list num) (xs : list R) (d : R) :
  ((length signal <= 1)%nat -> JS.calculateMotionArtifacts signal = NaN)
  /\ ((2 <= length xs)%nat ->
      (Z.of_nat (length xs) <= 1048576)%Z ->
      integer_samples 1048576 xs ->
      exists v,
        JS.calculateMotionArtifacts (map Fin xs) = Fin v
        /\ 0 <= v
        /\ ((forall i, (1 <= i < length xs)%nat ->
                       Rabs (nth i xs 0 - nth (i - 1) xs 0) = d) -> v = 0)).
Proof.
  split; [apply calculateMotionArtifacts_short |].
  intros Hn _ _. apply calculateMotionArtifacts_jumps. exact Hn.
Qed.

Lemma X11_calculateMotionArtifacts_spread_witness :
  JS.calculateMotionArtifacts [Fin 1] = NaN
  /\ exists v,
       JS.calculateMotionArtifacts (map Fin [0; 10; 20]) = Fin v
       /\ 0 <= v
       /\ ((forall i, (1 <= i < 3)%nat ->
                      Rabs (nth i [0; 10; 20] 0 - nth (i - 1) [0; 10; 20] 0) = 10) -> v = 0).
Proof.
  split.
  - apply (proj1 (X11_calculateMotionArtifacts_spread [Fin 1] [] 0)). simpl. lia.
  - apply (proj2 (X11_calculateMotionArtifacts_spread [] [0; 10; 20] 10)).
    + simpl. lia.
    + simpl. lia.
    + intros x [<- | [<- | [<- | []]]];
        [exists 0%Z | exists 10%Z | exists 20%Z]; split; (reflexivity || lia).
Defined.

(** ** The validity heuristic *)

Lemma half_length_Fin (n : nat) : mul (of_nat n) (Fin 0.5) = Fin (INR n * 0.5).
Proof. rewrite of_nat_INR. reflexivity. Qed.

Lemma isValidSegment_none (signal : list num) (std : num) :
  (forall x, In x signal ->
     gtb (Math_abs (sub x (div (reduce (fun a b => add a b) signal (Fin 0))
                             (of_nat (length signal)))))
         (mul (Fin 0.1) std) = false) ->
  JS.isValidSegment signal std = false.
Proof.
  intros H. unfold JS.isValidSegment.
  rewrite filter_none by exact H. cbn [length].
  rewrite half_length_Fin. change (of_nat 0) with (Fin 0).
  unfold gtb. apply ltb_Fin_false.
  pose proof (pos_INR (length signal)). lra.
Qed.

Lemma isValidSegment_constant (c s : R) (n : nat) :
  0 <= s -> JS.isValidSegment (map Fin (repeat c (S n))) (Fin s) = false.
Proof.
  intros Hs. apply isValidSegment_none. intros x Hx.
  apply in_map_iff in Hx. destruct Hx as [r [<- Hr]]. apply repeat_spec in Hr. subst r.
  pose proof (@mean_Fin (repeat c (S n)) ltac:(discriminate)) as Hm.
  unfold TS.mean in Hm. rewrite Hm.
  assert (Hmean : meanR (repeat c (S n)) = c).
  { unfold meanR. rewrite acc_sum_repeat. rewrite repeat_length, <- INR_IZR_INZ.
    field. apply not_0_INR. lia. }
  rewrite Hmean. cbn [sub neg add Math_abs mul]. unfold gtb. apply ltb_Fin_false.
  replace (c + - c) with 0 by ring. rewrite Rabs_R0. lra.
Qed.

(** X12 -- [isValidSegment] rejects flat and undefined segments.  It
    returns [false] for every signal when the standard deviation passed in
    is [NaN], for the empty signal, and, with any finite non-negative
    standard deviation, for a constant signal whose sample is an integer [c]
    with [n * |c| <= 2^53] ([n] the number of samples): the mean that the
    function computes is then [c] itself, and no sample deviates from it. *)
Theorem X12_isValidSegment_flat (signal : list num) (std : num) (c : Z) (s : R) (n : nat) :
  JS.isValidSegment signal NaN = false
  /\ JS.isValidSegment [] std = false
  /\ (0 <= s ->
      (Z.abs c * Z.of_nat (S n) <= 2 ^ 53)%Z ->
      JS.isValidSegment (repeat (of_Z c) (S n)) (Fin s) = false).
Proof.
  split; [| split].
  - apply isValidSegment_none. intros x _. cbn [mul]. unfold gtb.
    unfold ltb. reflexivity.
  - apply isValidSegment_none. intros x [].
  - intros Hs _. unfold of_Z. rewrite repeat_Fin.
    apply isValidSegment_constant. exact Hs.
Qed.

Lemma X12_isValidSegment_flat_witness :
  JS.isValidSegment (repeat (of_Z 7) (S 2)) (Fin 0) = false.
Proof.
  apply (proj2 (proj2 (X12_isValidSegment_flat [] NaN 7 0 2))).
  - lra.
  - vm_compute. discriminate.
Defined.

End MetricsJS.

(* ================================================================== *)
(** * What the two outlier passes guarantee *)
(* ================================================================== *)

Section OutlierBounds.

Local Open Scope R_scope.

Lemma Forall2_map_self (A B : Type) (P : A -> B -> Prop) (f : A -> B) (l : list A) :
  (forall x, In x l -> P x (f x)) -> Forall2 P l (map f l).
Proof.
  induction l as [| h t IH]; intros H; cbn [map]; constructor.
  - apply H. left. reflexivity.
  - apply IH. intros x Hx. apply H. right. exact Hx.
Qed.

Lemma clip_outliers_Fin (xs : list R) :
  xs <> [] ->
  JS.clip_outliers (map Fin xs)
  = (Fin (sqrt (varianceR xs)),
     map Fin (map (fun x => if Rlt_dec (3 * sqrt (varianceR xs)) (Rabs (x + - meanR xs))
                            then meanR xs else x) xs)).
Proof.
  intros Hne.
  change (JS.clip_outliers (map Fin xs))
    with (TS.std (map Fin xs),
          map (fun x => if gtb (Math_abs (sub x (TS.mean (map Fin xs))))
                               (mul (Fin 3) (TS.std (map Fin xs)))
                        then TS.mean (map Fin xs) else x) (map Fin xs)).
  rewrite (std_Fin Hne), (mean_Fin Hne). f_equal.
  rewrite !map_map. apply map_ext. intros x.
  cbn [sub neg add Math_abs mul]. unfold gtb, ltb.
  destruct (Rlt_dec _ _); reflexivity.
Qed.

(** X13 -- The clip-to-mean pass of the JavaScript worker.  For a non-empty
    finite filtered signal it returns the standard deviation [s] of the
    signal and a signal of the same length in which every sample is either
    the input sample or the mean, and lies within [3 * s] of the mean. *)
Theorem X13_clip_outliers_within_three_std (xs : list R) :
  xs <> [] ->
  exists ys,
    JS.clip_outliers (map Fin xs) = (Fin (sqrt (varianceR xs)), map Fin ys)
    /\ Forall2 (fun x y => (y = x \/ y = meanR xs)
                           /\ Rabs (y - meanR xs) <= 3 * sqrt (varianceR xs)) xs ys.
Proof.
  intros Hne. eexists. split; [apply clip_outliers_Fin; exact Hne |].
  apply Forall2_map_self. intros x _.
  pose proof (sqrt_pos (varianceR xs)) as Hs.
  destruct (Rlt_dec _ _) as [Hlt | Hge].
  - split; [right; reflexivity |].
    replace (meanR xs - meanR xs) with 0 by ring. rewrite Rabs_R0. lra.
  - split; [left; reflexivity |].
    replace (x - meanR xs) with (x + - meanR xs) by ring. lra.
Qed.

Lemma X13_clip_outliers_within_three_std_witness :
  exists ys,
    JS.clip_outliers (map Fin [1; 2; 4])
    = (Fin (sqrt (varianceR [1; 2; 4])), map Fin ys)
    /\ Forall2 (fun x y => (y = x \/ y = meanR [1; 2; 4])
                           /\ Rabs (y - meanR [1; 2; 4]) <= 3 * sqrt (varianceR [1; 2; 4]))
         [1; 2; 4] ys.
Proof. apply (@X13_clip_outliers_within_three_std [1; 2; 4]). discriminate. Defined.

Lemma zScore_Fin (xs : list R) (x : R) :
  xs <> [] ->
  sqrt (varianceR xs) <> 0 ->
  TS.zScore (map Fin xs) (Fin x) = Fin (Rabs ((x + - meanR xs) / sqrt (varianceR xs))).
Proof.
  intros Hne Hs. unfold TS.zScore. rewrite (mean_Fin Hne), (std_Fin Hne).
  cbn [sub neg add]. rewrite div_Fin by exact Hs. reflexivity.
Qed.

(** X14 -- The z-score pass of the TypeScript worker.  For a non-empty
    finite signal with mean [m] and standard deviation [s], and a finite
    threshold [t >= 0], [removeOutliers] returns a finite signal in which
    every sample is either the input sample or [m], and lies within [t * s]
    of [m]. *)
Theorem X14_removeOutliers_within_threshold (xs : list R) (t : R) :
  xs <> [] ->
  0 <= t ->
  exists ys,
    TS.removeOutliers (map Fin xs) (Fin t) = map Fin ys
    /\ Forall2 (fun x y => (y = x \/ y = meanR xs)
                           /\ Rabs (y - meanR xs) <= t * sqrt (varianceR xs)) xs ys.
Proof.
  intros Hne Ht.
  pose proof (sqrt_pos (varianceR xs)) as Hs.
  destruct (Req_dec (sqrt (varianceR xs)) 0) as [Hz | Hnz].
  - exists xs.
    assert (Hstd : TS.std (map Fin xs) = Fin 0) by (rewrite (std_Fin Hne), Hz; reflexivity).
    split; [apply (zero_std_unchanged (Fin t) Hne Hstd) |].
    replace xs with (map (fun x : R => x) xs) at 2 by apply map_id.
    apply Forall2_map_self. intros x Hx. split; [left; reflexivity |].
    rewrite (zero_std_constant Hne Hstd x Hx).
    replace (meanR xs - meanR xs) with 0 by ring. rewrite Rabs_R0, Hz. lra.
  - exists (map (fun x => if Rlt_dec t (Rabs ((x + - meanR xs) / sqrt (varianceR xs)))
                          then meanR xs else x) xs).
    split.
    + unfold TS.removeOutliers. rewrite (mean_Fin Hne). rewrite !map_map.
      apply map_ext. intros x. rewrite (zScore_Fin x Hne Hnz). unfold gtb, ltb.
      destruct (Rlt_dec _ _); reflexivity.
    + apply Forall2_map_self. intros x _.
      destruct (Rlt_dec _ _) as [Hlt | Hge].
      * split; [right; reflexivity |].
        replace (meanR xs - meanR xs) with 0 by ring. rewrite Rabs_R0.
        apply Rmult_le_pos; lra.
      * split; [left; reflexivity |].
        assert (Hpos : 0 < sqrt (varianceR xs)) by lra.
        assert (Hq : Rabs ((x + - meanR xs) / sqrt (varianceR xs)) <= t) by lra.
        unfold Rdiv in Hq. rewrite Rabs_mult, Rabs_inv in Hq.
        rewrite (Rabs_pos_eq (sqrt (varianceR xs))) in Hq by lra.
        replace (x - meanR xs) with (x + - meanR xs) by ring.
        apply (Rmult_le_compat_r (sqrt (varianceR xs))) in Hq; [| lra].
        rewrite Rmult_assoc, Rinv_l, Rmult_1_r in Hq by lra. exact Hq.
Qed.

Lemma X14_removeOutliers_within_threshold_witness :
  exists ys,
    TS.removeOutliers (map Fin [1; 2; 4]) (Fin 3) = map Fin ys
    /\ Forall2 (fun x y => (y = x \/ y = meanR [1; 2; 4])
                           /\ Rabs (y - meanR [1; 2; 4]) <= 3 * sqrt (varianceR [1; 2; 4]))
         [1; 2; 4] ys.
Proof.
  apply (@X14_removeOutliers_within_threshold [1; 2; 4] 3).
  - discriminate.
  - lra.
Defined.

End OutlierBounds.

(* ================================================================== *)
(** * The mean-and-slope removal of the JavaScript worker *)
(* ================================================================== *)

Section DetrendJS.

Local Open Scope R_scope.

Lemma mapi_from_length (B : Type) (f : num -> nat -> B) (l : list num) (k : nat) :
  length (mapi_from k f l) = length l.
Proof.
  revert k. induction l as [| h t IH]; intros k; [reflexivity |].
  cbn [mapi_from length]. rewrite IH. reflexivity.
Qed.


Lemma detrended_of_length (rawSignal : list num) :
  length (JS.detrended_of rawSignal) = length rawSignal.
Proof.
  unfold JS.detrended_of.
  destruct (for_range _ _ _ _) as [numerator denominator].
  destruct (neqb denominator (Fin 0)).
  - unfold mapi. rewrite mapi_from_length. apply length_map.
  - apply length_map.
Qed.













End DetrendJS.

(* ================================================================== *)
(** * Straight lines through the two detrending steps *)
(* ================================================================== *)

Section Ramps.

Local Open Scope R_scope.

Lemma ramp_length (p q : R) (n : nat) : length (ramp p q n) = n.
Proof. unfold ramp. rewrite length_map, length_seq. reflexivity. Qed.

Lemma ramp_nth (p q : R) (n i : nat) :
  (i < n)%nat -> nth i (ramp p q n) 0 = p + q * INR i.
Proof.
  intros Hi. unfold ramp.
  rewrite (nth_indep _ 0 ((fun i => p + q * INR i) 0%nat))
    by (rewrite length_map, length_seq; exact Hi).
  rewrite (map_nth (fun i => p + q * INR i)). rewrite seq_nth by exact Hi. reflexivity.
Qed.

Lemma ramp_sum (p q : R) (n : nat) :
  isum (fun i => nth i (ramp p q n) 0) n = INR n * p + q * isum INR n.
Proof.
  rewrite (isum_ext (fun i => nth i (ramp p q n) 0) (fun i => p + q * INR i) (k := n))
    by (intros i Hi; apply ramp_nth; exact Hi).
  rewrite (isum_plus (fun _ => p) (fun i => q * INR i)).
  rewrite isum_const, isum_scal. reflexivity.
Qed.

Lemma ramp_moment (p q : R) (n : nat) :
  isum (fun i => INR i * nth i (ramp p q n) 0) n
  = p * isum INR n + q * isum (fun i => INR i * INR i) n.
Proof.
  rewrite (isum_ext (fun i => INR i * nth i (ramp p q n) 0)
             (fun i => p * INR i + q * (INR i * INR i)) (k := n))
    by (intros i Hi; rewrite ramp_nth by exact Hi; ring).
  rewrite (isum_plus (fun i => p * INR i) (fun i => q * (INR i * INR i))).
  rewrite !isum_scal. reflexivity.
Qed.

Lemma ramp_slopeR (p q : R) (n : nat) : (2 <= n)%nat -> slopeR (ramp p q n) = q.
Proof.
  intros Hn. unfold slopeR. rewrite ramp_length, ramp_sum, ramp_moment.
  pose proof (fit_denominator_pos Hn) as Hd. field. lra.
Qed.

Lemma ramp_interceptR (p q : R) (n : nat) : (2 <= n)%nat -> interceptR (ramp p q n) = p.
Proof.
  intros Hn. unfold interceptR. rewrite (ramp_slopeR p q Hn), ramp_length, ramp_sum.
  field. apply not_0_INR. lia.
Qed.

Lemma detrend_ramp (p q : R) (n : nat) :
  (2 <= n)%nat -> TS.detrend (map Fin (ramp p q n)) = map Fin (repeat 0 n).
Proof.
  intros Hn. rewrite detrend_Fin by (rewrite ramp_length; exact Hn). f_equal.
  unfold residuals. rewrite ramp_length.
  rewrite (ramp_slopeR p q Hn), (ramp_interceptR p q Hn).
  rewrite <- (@map_seq_constant (fun i => nth i (ramp p q n) 0 + - (q * INR i + p)) 0 0 n);
    [reflexivity |].
  intros i Hi. rewrite ramp_nth by lia. ring.
Qed.

(** X17 -- The least-squares detrending removes an integer straight line
    exactly.  For a line [p + q * i] with integers [p] and [q] of magnitude
    at most 1000, sampled at [2 <= n <= 1000] points, every sum and product
    of the fit is an integer below 2^53, hence exact in binary64, the fitted
    slope and intercept are [q] and [p], and [detrend] of the TypeScript
    worker returns the zero signal of length [n]. *)
Theorem X17_detrend_annihilates_lines (p q : Z) (n : nat) :
  (2 <= n)%nat ->
  (Z.of_nat n <= 1000)%Z ->
  (Z.abs p <= 1000)%Z ->
  (Z.abs q <= 1000)%Z ->
  TS.slope (map Fin (ramp (IZR p) (IZR q) n)) = Fin (IZR q)
  /\ TS.intercept (map Fin (ramp (IZR p) (IZR q) n)) = Fin (IZR p)
  /\ TS.detrend (map Fin (ramp (IZR p) (IZR q) n)) = map Fin (repeat 0 n).
Proof.
  intros Hn _ _ _.
  assert (Hl : (2 <= length (ramp (IZR p) (IZR q) n))%nat) by (rewrite ramp_length; exact Hn).
  split; [| split].
  - rewrite (slope_Fin _ Hl). apply Fin_eq. apply ramp_slopeR. exact Hn.
  - rewrite (intercept_Fin _ Hl). apply Fin_eq. apply ramp_interceptR. exact Hn.
  - apply detrend_ramp. exact Hn.
Qed.

Lemma X17_detrend_annihilates_lines_witness :
  TS.slope (map Fin (ramp 5 2 3)) = Fin 2
  /\ TS.intercept (map Fin (ramp 5 2 3)) = Fin 5
  /\ TS.detrend (map Fin (ramp 5 2 3)) = map Fin (repeat 0 3).
Proof. apply (@X17_detrend_annihilates_lines 5 2 3); lia. Defined.






End Ramps.

(* ================================================================== *)
(** * Shape and failures of the JavaScript pipeline *)
(* ================================================================== *)

Section PipelineJSEdges.

Local Open Scope R_scope.

Lemma map_st_length (S : Type) (step : S -> num -> num * S) (s : S) (l : list num) :
  length (fst (JS.map_st step s l)) = length l.
Proof.
  revert s. induction l as [| h t IH]; intros s; [reflexivity |].
  cbn [JS.map_st]. destruct (step s h) as [out s'].
  specialize (IH s'). destruct (JS.map_st step s' t) as [outs s''].
  cbn [fst length] in *. rewrite IH. reflexivity.
Qed.

Lemma pass_length (f : JS.ButterworthFilter) (signal : list num) :
  length (pass f signal) = length signal.
Proof. unfold pass. apply map_st_length. Qed.

Lemma clip_outliers_length (signal : list num) :
  length (snd (JS.clip_outliers signal)) = length signal.
Proof. unfold JS.clip_outliers. cbn [snd]. apply length_map. Qed.

(** The constructor has one way to fail. *)
Lemma new_ButterworthFilter_outcome (samplingRate lowCutoff highCutoff : num) (order : Z) :
  JS.new_ButterworthFilter samplingRate lowCutoff highCutoff order
  = Throw "Invalid filter frequencies"
  \/ exists f,
       JS.new_ButterworthFilter samplingRate lowCutoff highCutoff order = Return f
       /\ JS.x f = [Fin 0; Fin 0; Fin 0] /\ JS.y f = [Fin 0; Fin 0; Fin 0].
Proof.
  unfold JS.new_ButterworthFilter, JS.computeCoefficients.
  cbn [JS.samplingRate JS.lowCutoff JS.highCutoff JS.order].
  destruct (_ || _ || _)%bool.
  - left. reflexivity.
  - right. eexists. split; [reflexivity |]. split; reflexivity.
Qed.

(** X18 -- [processSignal] of the JavaScript worker and its filter.  When
    the filter constructor accepts the band and the raw signal has at most
    65535 samples (so that the spread call [Math.max(...signal)] of the
    clipping metric stays within the argument limit of the engine), the call
    returns the raw signal as it was passed in, together with a band-passed
    and a cleaned signal of the same length, for samples finite or not; when
    the constructor throws, the call throws
    [Signal processing failed: Invalid filter frequencies], whatever the
    signal is. *)
Theorem X18_processSignal_shape_or_failure
    (rawSignal : list num) (samplingRate bandpassLow bandpassHigh : num) (filterOrder : Z) :
  (forall f,
     JS.new_ButterworthFilter samplingRate bandpassLow bandpassHigh filterOrder = Return f ->
     (Z.of_nat (length rawSignal) <= 65535)%Z ->
     exists r,
       JS.processSignal rawSignal samplingRate bandpassLow bandpassHigh filterOrder = Return r
       /\ JS.raw r = rawSignal
       /\ length (JS.bandpass r) = length rawSignal
       /\ length (JS.butterworth r) = length rawSignal)
  /\ (forall msg,
        JS.new_ButterworthFilter samplingRate bandpassLow bandpassHigh filterOrder
        = Throw msg ->
        JS.processSignal rawSignal samplingRate bandpassLow bandpassHigh filterOrder
        = Throw "Signal processing failed: Invalid filter frequencies").
Proof.
  split.
  - intros f Hf _. rewrite (@processSignal_shape rawSignal _ _ _ _ _ Hf).
    eexists. split; [reflexivity |]. cbn [JS.raw JS.bandpass JS.butterworth].
    split; [reflexivity |]. split.
    + rewrite pass_length. apply detrended_of_length.
    + rewrite clip_outliers_length, !pass_length. apply detrended_of_length.
  - intros msg Hmsg.
    destruct (new_ButterworthFilter_outcome samplingRate bandpassLow bandpassHigh filterOrder)
      as [Ht | [f [Hf _]]].
    + unfold JS.processSignal, JS.processSignal_try. rewrite Ht. reflexivity.
    + rewrite Hf in Hmsg. discriminate.
Qed.

Lemma X18_processSignal_shape_or_failure_witness :
  (exists r,
     JS.processSignal [Fin 1; PInf; NaN] (Fin 4) (Fin 0.5) (Fin 1.5) 2 = Return r
     /\ JS.raw r = [Fin 1; PInf; NaN]
     /\ length (JS.bandpass r) = 3%nat
     /\ length (JS.butterworth r) = 3%nat)
  /\ JS.processSignal [Fin 1] (Fin 30) (Fin 0) (Fin 4) 2
     = Throw "Signal processing failed: Invalid filter frequencies".
Proof.
  split.
  - apply (proj1 (X18_processSignal_shape_or_failure [Fin 1; PInf; NaN]
                    (Fin 4) (Fin 0.5) (Fin 1.5) 2) unit_band).
    + exact new_unit_band.
    + simpl. lia.
  - apply (proj2 (X18_processSignal_shape_or_failure [Fin 1]
                    (Fin 30) (Fin 0) (Fin 4) 2) "Invalid filter frequencies"%string).
    apply new_ButterworthFilter_invalid; lra.
Defined.

(** ** A sampling rate that is not a number *)

Lemma div_NaN_r (x : num) : div x NaN = NaN.
Proof. destruct x; reflexivity. Qed.

Lemma sub_NaN_l (x : num) : sub NaN x = NaN.
Proof. reflexivity. Qed.

Lemma new_ButterworthFilter_NaN (lowCutoff highCutoff : num) (order : Z) :
  JS.new_ButterworthFilter NaN lowCutoff highCutoff order
  = Return {| JS.samplingRate := NaN; JS.lowCutoff := lowCutoff;
              JS.highCutoff := highCutoff; JS.order := order;
              JS.b := [NaN; Fin 0; NaN];
              JS.a := [Fin 1; NaN; NaN];
              JS.x := [Fin 0; Fin 0; Fin 0];
              JS.y := [Fin 0; Fin 0; Fin 0] |}.
Proof.
  unfold JS.new_ButterworthFilter, JS.computeCoefficients.
  cbn [JS.samplingRate JS.lowCutoff JS.highCutoff JS.order].
  change (div NaN (Fin 2)) with NaN. rewrite !div_NaN_r. reflexivity.
Qed.

Lemma biquad_NaN (a : list num) (signal : list num) (x1 x2 y1 y2 : num) :
  biquad [NaN; Fin 0; NaN] a x1 x2 y1 y2 signal = repeat NaN (length signal).
Proof.
  revert x1 x2 y1 y2. induction signal as [| x0 rest IH]; intros; [reflexivity |].
  cbn [biquad length repeat]. rewrite IH. reflexivity.
Qed.

Lemma clip_outliers_NaN (n : nat) :
  snd (JS.clip_outliers (repeat NaN n)) = repeat NaN n.
Proof.
  unfold JS.clip_outliers. cbn [snd].
  transitivity (map (fun v : num => v) (repeat NaN n)); [| apply map_id].
  apply map_ext_in. intros v Hv. apply repeat_spec in Hv. subst v.
  rewrite sub_NaN_l. cbn [Math_abs]. unfold gtb. rewrite ltb_NaN_r. reflexivity.
Qed.

(** X19 -- A sampling rate of [NaN] is not rejected.  Every comparison of
    the frequency check is false on [NaN], so the constructor returns a
    filter with [NaN] coefficients, and [processSignal] returns instead of
    failing: the band-passed and the cleaned signal consist of [NaN] only and
    the segment is marked invalid, for every raw signal and band. *)
Theorem X19_processSignal_NaN_rate
    (rawSignal : list num) (bandpassLow bandpassHigh : num) (filterOrder : Z) :
  exists r,
    JS.processSignal rawSignal NaN bandpassLow bandpassHigh filterOrder = Return r
    /\ JS.bandpass r = repeat NaN (length rawSignal)
    /\ JS.butterworth r = repeat NaN (length rawSignal)
    /\ JS.validSegment (JS.qualityMetrics r) = false.
Proof.
  pose proof (new_ButterworthFilter_NaN bandpassLow bandpassHigh filterOrder) as Hf.
  set (f := {| JS.samplingRate := NaN; JS.lowCutoff := bandpassLow;
               JS.highCutoff := bandpassHigh; JS.order := filterOrder;
               JS.b := [NaN; Fin 0; NaN]; JS.a := [Fin 1; NaN; NaN];
               JS.x := [Fin 0; Fin 0; Fin 0]; JS.y := [Fin 0; Fin 0; Fin 0] |}) in Hf.
  assert (Hpass : forall signal, pass f signal = repeat NaN (length signal)).
  { intros signal.
    rewrite (@pass_biquad f signal (Fin 0) (Fin 0) (Fin 0) (Fin 0) (Fin 0) (Fin 0)
               eq_refl eq_refl).
    apply biquad_NaN. }
  rewrite (@processSignal_shape rawSignal _ _ _ _ _ Hf).
  eexists. split; [reflexivity |].
  cbn [JS.bandpass JS.butterworth JS.qualityMetrics JS.validSegment].
  rewrite !Hpass, !repeat_length, detrended_of_length, clip_outliers_NaN.
  split; [reflexivity |]. split; [reflexivity |].
  apply isValidSegment_none. intros x Hx. apply repeat_spec in Hx. subst x.
  rewrite sub_NaN_l. cbn [Math_abs]. unfold gtb. apply ltb_NaN_r.
Qed.

End PipelineJSEdges.

(* ================================================================== *)
(** * The direct transform and the two [computeFFT] *)
(* ================================================================== *)

Section Spectra.

Local Open Scope R_scope.

(** Every bin of [naiveFFT] is the bin of the padded transform of the
    TypeScript worker, taken over the signal itself. *)
Lemma naiveFFT_bins (signal : list num) :
  JS.naiveFFT signal = map (TS.bin signal (length signal)) (seq 0 (length signal)).
Proof.
  unfold JS.naiveFFT. rewrite fill_repeat.
  rewrite (@for_range_ext _ 0 (length signal) _
             (fun result k => set result k (TS.bin signal (length signal) k))).
  - apply (fill_loop (fun _ k => TS.bin signal (length signal) k)). reflexivity.
  - intros result k _. unfold TS.bin.
    destruct (for_range 0 (length signal) _ (Fin 0, Fin 0)) as [re im]. reflexivity.
Qed.

Lemma naiveFFT_length (signal : list num) : length (JS.naiveFFT signal) = length signal.
Proof. rewrite naiveFFT_bins, length_map, length_seq. reflexivity. Qed.







(** ** The padded transform on a power of two *)

Lemma padded_length_pow2 (j : nat) : TS.padded_length (2 ^ j) = (2 ^ j)%nat.
Proof.
  destruct (pad_loop_spec (2 ^ j)) as [k [HN [Hge Hmin]]].
  specialize (Hmin j (le_n _)). lia.
Qed.

Lemma copy_loop (signal : list num) :
  for_range 0 (length signal) (fun p i => set p i signal.[i])
    (fill (repeat NaN (length signal)) (Fin 0))
  = signal.
Proof.
  rewrite fill_repeat.
  rewrite (fill_loop (fun _ i => signal.[i]) (fun i => signal.[i])) by reflexivity.
  apply nth_ext with (d := NaN) (d' := NaN).
  - rewrite length_map, length_seq. reflexivity.
  - intros i Hi. rewrite length_map, length_seq in Hi.
    rewrite (nth_indep _ NaN ((fun i => signal.[i]) 0%nat))
      by (rewrite length_map, length_seq; exact Hi).
    rewrite (map_nth (fun i => signal.[i])). rewrite seq_nth by exact Hi. reflexivity.
Qed.

Lemma firstn_seq_le (lo n k : nat) : (k <= n)%nat -> firstn k (seq lo n) = seq lo k.
Proof.
  revert lo n. induction k as [| k IH]; intros lo n Hk; [reflexivity |].
  destruct n as [| n]; [lia |]. cbn [seq firstn]. f_equal. apply IH. lia.
Qed.

(** X21 -- On a power of two the padded transform is the first half of the
    direct one.  For every signal whose length [n] is a power of two and at
    least 2, [computeFFT] of the TypeScript worker returns the first [n / 2]
    magnitudes of [naiveFFT] of the JavaScript worker. *)
Theorem X21_computeFFT_half_of_naiveFFT (signal : list num) (j : nat) :
  length signal = (2 ^ S j)%nat ->
  TS.computeFFT signal = Return (firstn (length signal / 2) (JS.naiveFFT signal)).
Proof.
  intros Hlen. unfold TS.computeFFT.
  rewrite Hlen, padded_length_pow2.
  assert (Hcopy : for_range 0 (2 ^ S j) (fun p i => set p i signal.[i])
                    (fill (repeat NaN (2 ^ S j)) (Fin 0)) = signal)
    by (rewrite <- Hlen; apply copy_loop).
  rewrite Hcopy.
  assert (Hhalf : (2 ^ S j / 2 = 2 ^ j)%nat).
  { rewrite Nat.pow_succ_r'. rewrite (Nat.mul_comm 2 (2 ^ j)). apply Nat.div_mul. lia. }
  assert (Hnew : new_Array (Z.of_nat (2 ^ S j) # 2) = Return (repeat NaN (2 ^ j))).
  { rewrite Nat.pow_succ_r'. apply new_Array_half. }
  rewrite Hnew, Hhalf. cbn [bind]. f_equal.
  rewrite (fill_loop (fun _ k => TS.bin signal (2 ^ S j) k) (TS.bin signal (2 ^ S j)))
    by reflexivity.
  rewrite naiveFFT_bins, Hlen. rewrite firstn_map. f_equal.
  symmetry. apply firstn_seq_le. rewrite Nat.pow_succ_r'. lia.
Qed.

Lemma X21_computeFFT_half_of_naiveFFT_witness :
  TS.computeFFT [Fin 1; NaN; Fin 3; PInf]
  = Return (firstn (length [Fin 1; NaN; Fin 3; PInf] / 2)
              (JS.naiveFFT [Fin 1; NaN; Fin 3; PInf])).
Proof. apply (@X21_computeFFT_half_of_naiveFFT [Fin 1; NaN; Fin 3; PInf] 1). reflexivity. Defined.

(** ** The recursive transform *)

Lemma computeFFT_rec_length (fuel : nat) (signal r : list num) :
  JS.computeFFT_rec fuel signal = Return r -> length r = length signal.
Proof.
  revert signal r. induction fuel as [| fuel IH]; intros signal r H; [discriminate |].
  cbn [JS.computeFFT_rec] in H.
  destruct (Nat.eqb_spec (length signal) 1) as [H1 | H1].
  { injection H as <-. reflexivity. }
  destruct (Nat.eqb_spec (length signal mod 2) 0) as [Hev | Hodd]; cbn [negb] in H.
  2:{ injection H as <-. apply naiveFFT_length. }
  destruct (JS.computeFFT_rec fuel (filteri _ signal)) as [even | msg]; [| discriminate].
  destruct (JS.computeFFT_rec fuel (filteri _ signal)) as [odd | msg]; [| discriminate].
  cbn [bind] in H. injection H as <-.
  apply (for_range_invariant (fun arr : list num => length arr = length signal)).
  - unfold fill. rewrite length_map, repeat_length. reflexivity.
  - intros arr k Hk Harr.
    assert (Hdiv : (length signal = 2 * (length signal / 2))%nat).
    { pose proof (Nat.div_mod_eq (length signal) 2). lia. }
    change (fst (Nat.divmod (length signal) 1 0 1)) with (length signal / 2)%nat in *.
    rewrite set_length_in; rewrite set_length_in by lia; lia.
Qed.

(** The empty signal exhausts every stack. *)
Lemma computeFFT_rec_empty (fuel : nat) :
  JS.computeFFT_rec fuel [] = Throw "Maximum call stack size exceeded".
Proof.
  induction fuel as [| fuel IH]; [reflexivity |].
  cbn [JS.computeFFT_rec length Nat.eqb Nat.modulo Nat.divmod fst snd Nat.sub negb
       filteri filteri_from].
  rewrite IH. reflexivity.
Qed.

(** One call of [computeFFT] on a stack with room for [fuel] more calls. *)
Lemma computeFFT_rec_S (fuel : nat) (signal : list num) :
  JS.computeFFT_rec (S fuel) signal
  = if (length signal =? 1)%nat then Return signal
    else if negb (length signal mod 2 =? 0)%nat then Return (JS.naiveFFT signal)
    else
      bind (JS.computeFFT_rec fuel (filteri (fun _ i => (i mod 2 =? 0)%nat) signal))
        (fun even =>
           bind (JS.computeFFT_rec fuel (filteri (fun _ i => (i mod 2 =? 1)%nat) signal))
             (fun odd =>
                Return
                  (for_range 0 (length signal / 2)
                     (fun result k =>
                        let t := div (mul (mul (Fin (-2)) Math_PI) (of_nat k))
                                   (of_nat (length signal)) in
                        let re := Math_cos t in
                        let im := Math_sin t in
                        let result :=
                          set result k (add even.[k] (sub (mul re odd.[k]) (mul im (Fin 0)))) in
                        set result (k + length signal / 2)
                          (sub even.[k] (sub (mul re odd.[k]) (mul im (Fin 0)))))
                     (fill (repeat NaN (length signal)) (Fin 0))))).
Proof. reflexivity. Qed.

(** A deeper stack does not change what a call returns. *)
Lemma computeFFT_rec_deeper (fuel : nat) (signal r : list num) :
  JS.computeFFT_rec fuel signal = Return r -> JS.computeFFT_rec (S fuel) signal = Return r.
Proof.
  revert signal r. induction fuel as [| fuel IH]; intros signal r H; [discriminate |].
  rewrite computeFFT_rec_S in H. rewrite (computeFFT_rec_S (S fuel)).
  destruct (length signal =? 1)%nat; [exact H |].
  destruct (negb (length signal mod 2 =? 0)%nat); [exact H |].
  destruct (JS.computeFFT_rec fuel (filteri (fun _ i => (i mod 2 =? 0)%nat) signal))
    as [even | m1] eqn:E1; [| discriminate].
  destruct (JS.computeFFT_rec fuel (filteri (fun _ i => (i mod 2 =? 1)%nat) signal))
    as [odd | m2] eqn:E2; [| discriminate].
  rewrite (IH _ _ E1), (IH _ _ E2). exact H.
Qed.

Lemma computeFFT_rec_enough (fuel : nat) (signal : list num) (samplingRate : num) :
  signal <> [] -> (length signal <= fuel)%nat ->
  JS.computeFFT_rec fuel signal = JS.computeFFT signal samplingRate.
Proof.
  intros Hne Hfuel.
  assert (Hlen : (1 <= length signal)%nat) by (destruct signal; [contradiction | simpl; lia]).
  destruct (@computeFFT_rec_returns (length signal) signal ltac:(lia)) as [r Hr].
  assert (Hup : forall k, JS.computeFFT_rec (length signal + k) signal = Return r).
  { induction k as [| k IH].
    - rewrite Nat.add_0_r. exact Hr.
    - rewrite Nat.add_succ_r. apply computeFFT_rec_deeper. exact IH. }
  unfold JS.computeFFT.
  replace fuel with (length signal + (fuel - length signal))%nat by lia.
  replace (S (length signal)) with (length signal + 1)%nat by lia.
  rewrite !Hup. reflexivity.
Qed.

(** X22 -- The recursive [computeFFT] of the JavaScript worker.  On the
    empty signal it calls itself without end, whatever the depth of the
    stack (the engine reports [Maximum call stack size exceeded]); on every
    non-empty signal of [n] samples it returns an array of [n] elements, with
    a call depth of at most [n]; a signal of one sample is returned as it is,
    and a signal of odd length at least 3 is handed to [naiveFFT]. *)
Theorem X22_computeFFT_terminates (signal : list num) (samplingRate v : num) :
  (forall depth, JS.computeFFT_rec depth [] = Throw "Maximum call stack size exceeded")
  /\ JS.computeFFT [] samplingRate = Throw "Maximum call stack size exceeded"
  /\ JS.computeFFT [v] samplingRate = Return [v]
  /\ (signal <> [] ->
      exists r,
        JS.computeFFT signal samplingRate = Return r
        /\ length r = length signal
        /\ forall depth, (length signal <= depth)%nat ->
                         JS.computeFFT_rec depth signal = Return r)
  /\ ((3 <= length signal)%nat -> (length signal mod 2 = 1)%nat ->
      JS.computeFFT signal samplingRate = Return (JS.naiveFFT signal)).
Proof.
  split; [apply computeFFT_rec_empty |].
  split; [reflexivity |]. split; [reflexivity |]. split.
  - intros Hne. destruct (computeFFT_returns samplingRate Hne) as [r Hr].
    exists r. split; [exact Hr |]. split.
    + unfold JS.computeFFT in Hr. apply (computeFFT_rec_length _ _ Hr).
    + intros depth Hd. rewrite (computeFFT_rec_enough samplingRate Hne Hd). exact Hr.
  - intros H3 Hodd. unfold JS.computeFFT. cbn [JS.computeFFT_rec].
    destruct (Nat.eqb_spec (length signal) 1) as [H1 | _]; [lia |].
    rewrite Hodd. reflexivity.
Qed.

Lemma X22_computeFFT_terminates_witness :
  (exists r,
     JS.computeFFT [Fin 1; Fin 2; NaN; Fin 4; Fin 5; Fin 6] (Fin 30) = Return r
     /\ length r = 6%nat
     /\ forall depth, (6 <= depth)%nat ->
                      JS.computeFFT_rec depth [Fin 1; Fin 2; NaN; Fin 4; Fin 5; Fin 6]
                      = Return r)
  /\ JS.computeFFT [Fin 1; Fin 2; Fin 4] (Fin 30) = Return (JS.naiveFFT [Fin 1; Fin 2; Fin 4]).
Proof.
  split.
  - apply (proj1 (proj2 (proj2 (proj2 (X22_computeFFT_terminates
                                         [Fin 1; Fin 2; NaN; Fin 4; Fin 5; Fin 6]
                                         (Fin 30) NaN))))).
    discriminate.
  - apply (proj2 (proj2 (proj2 (proj2 (X22_computeFFT_terminates
                                         [Fin 1; Fin 2; Fin 4] (Fin 30) NaN))))).
    + simpl. lia.
    + reflexivity.
Defined.

End Spectra.

(* ================================================================== *)
(** * The message handlers of the two workers *)
(* ================================================================== *)

Section Handlers.

Local Open Scope R_scope.
Local Open Scope string_scope.

(** The padded transform returns on every signal of at least two samples. *)
Lemma TS_computeFFT_returns (signal : list num) :
  (2 <= length signal)%nat -> exists m, TS.computeFFT signal = Return m.
Proof.
  intros Hn. unfold TS.computeFFT.
  destruct (pad_loop_spec (length signal)) as [k [HN [Hge _]]].
  destruct k as [| k]; [simpl in Hge; lia |].
  rewrite HN. rewrite Nat.pow_succ_r'. rewrite new_Array_half. cbn [bind].
  eexists. reflexivity.
Qed.

(** X23 -- The message handler of the TypeScript worker answers a message
    with one message that carries the id of the request.  A [processSignal]
    request fails with [Invalid array length] when the (integer) filter
    order is below -1, and is answered with the processed signal when the
    order is from -1 to 65535 and the raw signal has at most 65535 samples
    (array lengths and spread calls that the engine grants); a [computeFFT]
    request fails with [Invalid array length] for a signal of fewer than two
    samples and is answered with the spectrum otherwise; any other type is
    answered with the error [Unknown message type: <type>]. *)
Theorem X23_onmessage_typescript (data : TS.Message) :
  (TS.type data = "processSignal" ->
   forall p, TS.payload data = TS.process_payload p ->
     ((TS.filterOrder p < -1)%Z ->
      TS.onmessage data = TS.error_response (TS.id data) "Invalid array length")
     /\ ((-1 <= TS.filterOrder p <= 65535)%Z ->
         (Z.of_nat (length (TS.rawSignal p)) <= 65535)%Z ->
         exists r,
           TS.processSignal p = Return r
           /\ TS.onmessage data = TS.result_response (TS.id data) (TS.processed r)))
  /\ (TS.type data = "computeFFT" ->
      forall signal samplingRate, TS.payload data = TS.fft_payload signal samplingRate ->
        ((length signal <= 1)%nat ->
         TS.onmessage data = TS.error_response (TS.id data) "Invalid array length")
        /\ ((2 <= length signal)%nat ->
            exists m,
              TS.computeFFT signal = Return m
              /\ TS.onmessage data = TS.result_response (TS.id data) (TS.spectrum m)))
  /\ (TS.type data <> "processSignal" -> TS.type data <> "computeFFT" ->
      TS.onmessage data
      = TS.error_response (TS.id data) ("Unknown message type: " ++ TS.type data)).
Proof.
  split; [| split].
  - intros Ht p Hp. unfold TS.onmessage, TS.onmessage_try. rewrite Ht, Hp. cbn [String.eqb Ascii.eqb Bool.eqb].
    split.
    + intros Ho. unfold TS.processSignal, TS.designButterworthFilter.
      rewrite new_Array_negative by lia. reflexivity.
    + intros [Ho _] _.
      destruct (designButterworthFilter_returns (TS.bandpassLow p) (TS.bandpassHigh p)
                  (TS.samplingRate p) Ho) as [c Hc].
      unfold TS.processSignal. rewrite Hc. cbn [bind].
      eexists. split; reflexivity.
  - intros Ht signal samplingRate Hp. unfold TS.onmessage, TS.onmessage_try.
    rewrite Ht, Hp. cbn [String.eqb Ascii.eqb Bool.eqb].
    split.
    + intros Hn. rewrite (computeFFT_short signal Hn). reflexivity.
    + intros Hn. destruct (TS_computeFFT_returns signal Hn) as [m Hm].
      rewrite Hm. exists m. split; reflexivity.
  - intros H1 H2. unfold TS.onmessage, TS.onmessage_try.
    apply String.eqb_neq in H1. apply String.eqb_neq in H2. rewrite H1, H2. reflexivity.
Qed.

Lemma X23_onmessage_typescript_witness :
  TS.onmessage {| TS.id := Fin 7; TS.type := "computeFFT";
                  TS.payload := TS.fft_payload [Fin 1] (Fin 30) |}
  = TS.error_response (Fin 7) "Invalid array length"
  /\ TS.onmessage {| TS.id := Fin 8; TS.type := "filter";
                     TS.payload := TS.fft_payload [Fin 1] (Fin 30) |}
     = TS.error_response (Fin 8) "Unknown message type: filter".
Proof.
  split.
  - apply (proj1 (proj1 (proj2 (X23_onmessage_typescript
                    {| TS.id := Fin 7; TS.type := "computeFFT";
                       TS.payload := TS.fft_payload [Fin 1] (Fin 30) |}))
                   eq_refl [Fin 1] (Fin 30) eq_refl)).
    simpl. lia.
  - apply (proj2 (proj2 (X23_onmessage_typescript
                    {| TS.id := Fin 8; TS.type := "filter";
                       TS.payload := TS.fft_payload [Fin 1] (Fin 30) |})));
      discriminate.
Defined.

(** The recursion of the JavaScript [computeFFT] has one way to fail. *)
Lemma computeFFT_rec_throws (fuel : nat) (signal : list num) (msg : string) :
  JS.computeFFT_rec fuel signal = Throw msg -> msg = "Maximum call stack size exceeded".
Proof.
  revert signal msg. induction fuel as [| fuel IH]; intros signal msg H.
  - injection H as <-. reflexivity.
  - cbn [JS.computeFFT_rec] in H.
    destruct (length signal =? 1)%nat; [discriminate |].
    destruct (negb _); [discriminate |].
    destruct (JS.computeFFT_rec fuel (filteri _ signal)) as [even | m1] eqn:E1.
    + destruct (JS.computeFFT_rec fuel (filteri (fun _ i => (i mod 2 =? 1)%nat) signal))
        as [odd | m2] eqn:E2.
      * discriminate.
      * cbn [bind] in H. injection H as <-. apply (IH _ _ E2).
    + cbn [bind] in H. injection H as <-. apply (IH _ _ E1).
Qed.

Lemma processSignal_throws (rawSignal : list num) (samplingRate low high : num)
    (order : Z) (msg : string) :
  JS.processSignal rawSignal samplingRate low high order = Throw msg ->
  msg = "Signal processing failed: Invalid filter frequencies".
Proof.
  intros H.
  destruct (new_ButterworthFilter_outcome samplingRate low high order) as [Ht | [f [Hf _]]].
  - unfold JS.processSignal, JS.processSignal_try in H. rewrite Ht in H.
    cbn [bind] in H. injection H as <-. reflexivity.
  - rewrite (@processSignal_shape rawSignal _ _ _ _ _ Hf) in H. discriminate.
Qed.

(** X24 -- The message handler of the JavaScript worker.  Every message is
    answered with one message that carries the id of the request.  A
    [processSignal] request is answered with the processed signals when the
    filter constructor accepts the band and the raw signal has at most 65535
    samples (a spread call that the engine grants), and with the error
    [Signal processing failed: Invalid filter frequencies] when the
    constructor throws; a [computeFFT] request is answered with the error
    [Maximum call stack size exceeded] for the empty signal and with a
    spectrum otherwise; any other type is answered with
    [Unknown message type: <type>]. *)
Theorem X24_onmessage_javascript (data : JS.Message) :
  JS.response_id (JS.onmessage data) = JS.id data
  /\ (JS.type data = "processSignal" ->
      forall rawSignal samplingRate low high order,
        JS.payload data = JS.process_payload rawSignal samplingRate low high order ->
        (forall f, JS.new_ButterworthFilter samplingRate low high order = Return f ->
           (Z.of_nat (length rawSignal) <= 65535)%Z ->
           exists r,
             JS.processSignal rawSignal samplingRate low high order = Return r
             /\ JS.onmessage data
                = {| JS.response_id := JS.id data; JS.result := Some (JS.processed r);
                     JS.error := None |})
        /\ (forall msg, JS.new_ButterworthFilter samplingRate low high order = Throw msg ->
              JS.onmessage data
              = {| JS.response_id := JS.id data; JS.result := None;
                   JS.error := Some "Signal processing failed: Invalid filter frequencies" |}))
  /\ (JS.type data = "computeFFT" ->
      forall signal samplingRate, JS.payload data = JS.fft_payload signal samplingRate ->
        (signal = [] ->
         JS.onmessage data
         = {| JS.response_id := JS.id data; JS.result := None;
              JS.error := Some "Maximum call stack size exceeded" |})
        /\ (signal <> [] ->
            exists r,
              JS.computeFFT signal samplingRate = Return r
              /\ JS.onmessage data
                 = {| JS.response_id := JS.id data; JS.result := Some (JS.spectrum r);
                      JS.error := None |}))
  /\ (JS.type data <> "processSignal" -> JS.type data <> "computeFFT" ->
      JS.onmessage data
      = {| JS.response_id := JS.id data; JS.result := None;
           JS.error := Some ("Unknown message type: " ++ JS.type data) |}).
Proof.
  split; [| split; [| split]].
  - unfold JS.onmessage. destruct (JS.onmessage_try _ _); reflexivity.
  - intros Ht rawSignal samplingRate low high order Hp.
    unfold JS.onmessage, JS.onmessage_try. rewrite Ht, Hp.
    cbn [String.eqb Ascii.eqb Bool.eqb]. split.
    + intros f Hf _. rewrite (@processSignal_shape rawSignal _ _ _ _ _ Hf). cbn [bind].
      eexists. split; reflexivity.
    + intros msg Hmsg.
      destruct (JS.processSignal rawSignal samplingRate low high order) as [r | m] eqn:E.
      * destruct (new_ButterworthFilter_outcome samplingRate low high order)
          as [Ht' | [f [Hf _]]]; [| rewrite Hf in Hmsg; discriminate].
        unfold JS.processSignal, JS.processSignal_try in E. rewrite Ht' in E. discriminate.
      * rewrite (processSignal_throws _ _ _ _ _ E). reflexivity.
  - intros Ht signal samplingRate Hp.
    unfold JS.onmessage, JS.onmessage_try. rewrite Ht, Hp.
    cbn [String.eqb Ascii.eqb Bool.eqb]. split.
    + intros ->. reflexivity.
    + intros Hne. destruct (computeFFT_returns samplingRate Hne) as [r Hr].
      rewrite Hr. exists r. split; reflexivity.
  - intros H1 H2. unfold JS.onmessage, JS.onmessage_try.
    apply String.eqb_neq in H1. apply String.eqb_neq in H2. rewrite H1, H2. reflexivity.
Qed.

Lemma X24_onmessage_javascript_witness :
  JS.onmessage {| JS.id := Fin 3; JS.type := "computeFFT";
                  JS.payload := JS.fft_payload [] (Fin 30) |}
  = {| JS.response_id := Fin 3; JS.result := None;
       JS.error := Some "Maximum call stack size exceeded" |}
  /\ JS.onmessage {| JS.id := Fin 4; JS.type := "processSignal";
                     JS.payload := JS.process_payload [Fin 1] (Fin 30) (Fin 0) (Fin 4) 2 |}
     = {| JS.response_id := Fin 4; JS.result := None;
          JS.error := Some "Signal processing failed: Invalid filter frequencies" |}.
Proof.
  split.
  - apply (proj1 (proj1 (proj2 (proj2 (X24_onmessage_javascript
                    {| JS.id := Fin 3; JS.type := "computeFFT";
                       JS.payload := JS.fft_payload [] (Fin 30) |})))
                   eq_refl [] (Fin 30) eq_refl)).
    reflexivity.
  - apply (proj2 (proj1 (proj2 (X24_onmessage_javascript
                    {| JS.id := Fin 4; JS.type := "processSignal";
                       JS.payload := JS.process_payload [Fin 1] (Fin 30) (Fin 0) (Fin 4) 2 |}))
                   eq_refl [Fin 1] (Fin 30) (Fin 0) (Fin 4) 2%Z eq_refl)
             "Invalid filter frequencies").
    apply new_ButterworthFilter_invalid; lra.
Defined.

(** An error message of the JavaScript handler is never empty. *)
Lemma onmessage_try_message (type : string) (payload : JS.Payload) (msg : string) :
  JS.onmessage_try type payload = Throw msg -> msg <> "".
Proof.
  intros E. unfold JS.onmessage_try in E.
  destruct (String.eqb type "processSignal").
  - destruct payload as [rawSignal samplingRate low high order | signal rate].
    + destruct (JS.processSignal rawSignal samplingRate low high order) as [r | m] eqn:E2;
        [discriminate |].
      cbn [bind] in E. injection E as <-.
      rewrite (processSignal_throws _ _ _ _ _ E2). discriminate.
    + injection E as <-. discriminate.
  - destruct (String.eqb type "computeFFT").
    + destruct payload as [rawSignal samplingRate low high order | signal rate].
      * injection E as <-. discriminate.
      * destruct (JS.computeFFT signal rate) as [r | m] eqn:E2; [discriminate |].
        cbn [bind] in E. injection E as <-.
        unfold JS.computeFFT in E2. rewrite (computeFFT_rec_throws _ _ E2). discriminate.
    + injection E as <-. discriminate.
Qed.

(** X25 -- Every answer of the JavaScript worker is either a result or an
    error, never both and never neither, and an error message is never the
    empty string: the test [if (error)] of the client recognises every
    failure. *)
Theorem X25_onmessage_result_xor_error (data : JS.Message) :
  (exists r, JS.result (JS.onmessage data) = Some r /\ JS.error (JS.onmessage data) = None)
  \/ (exists msg,
        JS.result (JS.onmessage data) = None
        /\ JS.error (JS.onmessage data) = Some msg
        /\ msg <> "").
Proof.
  unfold JS.onmessage.
  destruct (JS.onmessage_try (JS.type data) (JS.payload data)) as [r | msg] eqn:E.
  - left. exists r. split; reflexivity.
  - right. exists msg. split; [reflexivity |]. split; [reflexivity |].
    apply (onmessage_try_message _ _ E).
Qed.

End Handlers.

(* ================================================================== *)
(** * The request protocol of the hook *)
(* ================================================================== *)

Section HookProtocol.

Variable Callback : Type.

Local Open Scope R_scope.
Local Open Scope string_scope.

Lemma sameValueZero_eq (x y : num) : Hook.sameValueZero x y = true <-> x = y.
Proof.
  split.
  - destruct x as [a | | |], y as [b | | |]; unfold Hook.sameValueZero, eqb;
      try discriminate; try reflexivity.
    destruct (Req_dec_T a b) as [-> | _]; [reflexivity | discriminate].
  - intros <-. destruct x as [a | | |]; try reflexivity.
    unfold Hook.sameValueZero. apply eqb_Fin_true. reflexivity.
Qed.

Lemma sameValueZero_neq (x y : num) : x <> y -> Hook.sameValueZero x y = false.
Proof.
  intros H. destruct (Hook.sameValueZero x y) eqn:E; [| reflexivity].
  apply sameValueZero_eq in E. contradiction.
Qed.

Lemma of_nat_inj (a b : nat) : of_nat a = of_nat b -> a = b.
Proof.
  intros H. unfold of_nat, of_Z in H. apply Fin_inj in H. apply eq_IZR in H. lia.
Qed.

Lemma Map_get_absent (m : Hook.Map Callback) (key : num) :
  ~ In key (map fst m) -> Hook.Map_get m key = None.
Proof.
  induction m as [| [k v] rest IH]; intros H; [reflexivity |].
  cbn [Hook.Map_get]. cbn [map fst In] in H.
  rewrite sameValueZero_neq by (intros E; apply H; left; exact E).
  apply IH. intros Hin. apply H. right. exact Hin.
Qed.

Lemma Map_get_set_same (m : Hook.Map Callback) (key : num) (value : Callback) :
  Hook.Map_get (Hook.Map_set m key value) key = Some value.
Proof.
  induction m as [| [k v] rest IH]; cbn [Hook.Map_set Hook.Map_get].
  - rewrite (proj2 (sameValueZero_eq key key) eq_refl). reflexivity.
  - destruct (Hook.sameValueZero k key) eqn:E; cbn [Hook.Map_get]; rewrite E;
      [reflexivity | exact IH].
Qed.

Lemma Map_get_set_other (m : Hook.Map Callback) (key key' : num) (value : Callback) :
  key <> key' ->
  Hook.Map_get (Hook.Map_set m key value) key' = Hook.Map_get m key'.
Proof.
  intros Hne. induction m as [| [k v] rest IH]; cbn [Hook.Map_set Hook.Map_get].
  - rewrite sameValueZero_neq by exact Hne. reflexivity.
  - destruct (Hook.sameValueZero k key) eqn:E; cbn [Hook.Map_get].
    + apply sameValueZero_eq in E. subst k.
      rewrite sameValueZero_neq by exact Hne. reflexivity.
    + rewrite IH. reflexivity.
Qed.

Lemma Map_get_delete_other (m : Hook.Map Callback) (key key' : num) :
  key <> key' ->
  Hook.Map_get (Hook.Map_delete m key) key' = Hook.Map_get m key'.
Proof.
  intros Hne. induction m as [| [k v] rest IH]; cbn [Hook.Map_delete Hook.Map_get];
    [reflexivity |].
  destruct (Hook.sameValueZero k key) eqn:E; cbn [Hook.Map_get].
  - apply sameValueZero_eq in E. subst k.
    rewrite sameValueZero_neq by exact Hne. reflexivity.
  - rewrite IH. reflexivity.
Qed.

Lemma Map_set_keys (m : Hook.Map Callback) (key : num) (value : Callback) :
  ~ In key (map fst m) -> map fst (Hook.Map_set m key value) = (map fst m ++ [key])%list.
Proof.
  induction m as [| [k v] rest IH]; intros H; [reflexivity |].
  cbn [Hook.Map_set]. cbn [map fst In] in H.
  rewrite sameValueZero_neq by (intros E; apply H; left; exact E).
  cbn [map fst app]. f_equal. apply IH. intros Hin. apply H. right. exact Hin.
Qed.

Lemma Map_delete_incl (m : Hook.Map Callback) (key k : num) :
  In k (map fst (Hook.Map_delete m key)) -> In k (map fst m).
Proof.
  induction m as [| [k0 v] rest IH]; cbn [Hook.Map_delete]; [trivial |].
  destruct (Hook.sameValueZero k0 key); cbn [map fst In].
  - intros H. right. exact H.
  - intros [H | H]; [left; exact H | right; apply IH; exact H].
Qed.

Lemma Map_delete_NoDup (m : Hook.Map Callback) (key : num) :
  NoDup (map fst m) ->
  NoDup (map fst (Hook.Map_delete m key)) /\ ~ In key (map fst (Hook.Map_delete m key)).
Proof.
  induction m as [| [k v] rest IH]; intros Hnd; cbn [Hook.Map_delete].
  - split; [constructor | intros []].
  - cbn [map fst] in Hnd. inversion Hnd as [| ? ? Hk Hrest]; subst.
    destruct (Hook.sameValueZero k key) eqn:E.
    + apply sameValueZero_eq in E. subst k. split; assumption.
    + destruct (IH Hrest) as [H1 H2]. cbn [map fst]. split.
      * constructor; [| exact H1]. intros Hin. apply Hk. apply (Map_delete_incl _ _ _ Hin).
      * intros [H | H]; [| exact (H2 H)].
        subst k. rewrite (proj2 (sameValueZero_eq key key) eq_refl) in E. discriminate.
Qed.

(** The ids in use are distinct and below the counter. *)
Definition ids_in_order (s : Hook.refs Callback) : Prop :=
  NoDup (map fst (Hook.pendingCallbacksRef s))
  /\ forall k, In k (map fst (Hook.pendingCallbacksRef s)) ->
               exists i, k = of_nat i /\ (i < Hook.messageIdRef s)%nat.

Lemma counter_fresh (s : Hook.refs Callback) (n : nat) :
  ids_in_order s -> (Hook.messageIdRef s <= n)%nat ->
  ~ In (of_nat n) (map fst (Hook.pendingCallbacksRef s)).
Proof.
  intros [_ Hb] Hn Hin. destruct (Hb _ Hin) as [i [Hi Hlt]].
  apply of_nat_inj in Hi. lia.
Qed.

Lemma step_ids_in_order (s : Hook.refs Callback) (e : Hook.event Callback) :
  ids_in_order s ->
  ids_in_order (Hook.step s e) /\ (Hook.messageIdRef s <= Hook.messageIdRef (Hook.step s e))%nat.
Proof.
  intros Hs. pose proof Hs as [Hnd Hb]. destruct e as [type payload callback | data].
  - cbn [Hook.step Hook.postRequest fst]. split; [| cbn; lia].
    pose proof (counter_fresh Hs (le_n _)) as Hfresh.
    unfold ids_in_order. cbn [Hook.pendingCallbacksRef Hook.messageIdRef].
    rewrite Map_set_keys by exact Hfresh. split.
    + apply NoDup_app; [exact Hnd | repeat constructor; intros [] |].
      intros k Hk [<- | []]. exact (Hfresh Hk).
    + intros k Hk. apply in_app_or in Hk. destruct Hk as [Hk | [<- | []]].
      * destruct (Hb k Hk) as [i [Hi Hlt]]. exists i. split; [exact Hi | lia].
      * exists (Hook.messageIdRef s). split; [reflexivity | lia].
  - cbn [Hook.step]. unfold Hook.onmessage.
    destruct (Hook.Map_get _ _); cbn [fst]; [| split; [exact Hs | lia]].
    split; [| cbn; lia].
    unfold ids_in_order. cbn [Hook.pendingCallbacksRef Hook.messageIdRef]. split.
    + apply (Map_delete_NoDup _ _ Hnd).
    + intros k Hk. apply Hb. apply (Map_delete_incl _ _ _ Hk).
Qed.

Lemma run_ids_in_order (events : list (Hook.event Callback)) (s : Hook.refs Callback) :
  ids_in_order s ->
  ids_in_order (fold_left (@Hook.step Callback) events s)
  /\ (Hook.messageIdRef s <= Hook.messageIdRef (fold_left (@Hook.step Callback) events s))%nat.
Proof.
  revert s. induction events as [| e events IH]; intros s Hs; cbn [fold_left].
  - split; [exact Hs | lia].
  - destruct (step_ids_in_order e Hs) as [H1 H2].
    destruct (IH _ H1) as [H3 H4]. split; [exact H3 | lia].
Qed.

Lemma initial_ids_in_order : ids_in_order (Hook.initial Callback).
Proof. split; [constructor | intros k []]. Qed.

(** An event that is not an answer to the request with id [id]. *)
Definition not_answer_to (id : num) (e : Hook.event Callback) : Prop :=
  match e with
  | Hook.request _ _ _ => True
  | Hook.answer _ data => JS.response_id data <> id
  end.

Lemma pending_kept (n : nat) (callback : Callback)
    (events : list (Hook.event Callback)) (s : Hook.refs Callback) :
  ids_in_order s -> (n < Hook.messageIdRef s)%nat ->
  Hook.Map_get (Hook.pendingCallbacksRef s) (of_nat n) = Some callback ->
  Forall (not_answer_to (of_nat n)) events ->
  Hook.Map_get (Hook.pendingCallbacksRef (fold_left (@Hook.step Callback) events s))
    (of_nat n) = Some callback.
Proof.
  revert s. induction events as [| e events IH]; intros s Hs Hn Hget Hq; [exact Hget |].
  cbn [fold_left]. inversion Hq as [| ? ? He Hrest]; subst.
  destruct (step_ids_in_order e Hs) as [Hs' Hmono].
  apply IH; [exact Hs' | lia | | exact Hrest].
  destruct e as [type payload cb | data].
  - cbn [Hook.step Hook.postRequest fst Hook.pendingCallbacksRef].
    rewrite Map_get_set_other; [exact Hget |].
    intros E. apply of_nat_inj in E. lia.
  - cbn [Hook.step]. unfold Hook.onmessage. cbn [not_answer_to] in He.
    destruct (Hook.Map_get _ (JS.response_id data)); cbn [fst Hook.pendingCallbacksRef];
      [| exact Hget].
    rewrite Map_get_delete_other by exact He. exact Hget.
Qed.

Lemma settle_onmessage (data : JS.Message) :
  Hook.settle (JS.onmessage data)
  = match JS.onmessage_try (JS.type data) (JS.payload data) with
    | Return r => Hook.resolve (Some r)
    | Throw msg => Hook.reject msg
    end.
Proof.
  unfold JS.onmessage.
  destruct (JS.onmessage_try (JS.type data) (JS.payload data)) as [r | msg] eqn:E.
  - reflexivity.
  - unfold Hook.settle. cbn [JS.error Hook.truthy].
    pose proof (onmessage_try_message _ _ E) as Hne.
    apply String.eqb_neq in Hne. rewrite Hne. reflexivity.
Qed.

(** X26 -- A request is settled by its own answer.  After any sequence of
    requests and answers, a request stores its callback under a fresh id; as
    long as no answer carries that id, whatever else is requested and
    answered, the callback stays stored, and the answer that carries the id
    calls exactly this callback and deletes it.  With the answer of the
    JavaScript worker to the posted message, the callback resolves the
    promise with the result of the worker, or rejects it with the error
    message of the worker. *)
Theorem X26_request_settled_by_its_answer
    (before between : list (Hook.event Callback))
    (type : string) (payload : JS.Payload) (callback : Callback) (data : JS.Response) :
  let posted := Hook.postRequest type payload callback (Hook.run before) in
  let s := fold_left (@Hook.step Callback) between (fst posted) in
  Forall (not_answer_to (JS.id (snd posted))) between ->
  (JS.response_id data = JS.id (snd posted) ->
   Hook.onmessage data s
   = ({| Hook.messageIdRef := Hook.messageIdRef s;
         Hook.pendingCallbacksRef :=
           Hook.Map_delete (Hook.pendingCallbacksRef s) (JS.id (snd posted)) |},
      Some (callback, Hook.settle data)))
  /\ Hook.onmessage (JS.onmessage (snd posted)) s
     = ({| Hook.messageIdRef := Hook.messageIdRef s;
           Hook.pendingCallbacksRef :=
             Hook.Map_delete (Hook.pendingCallbacksRef s) (JS.id (snd posted)) |},
        Some (callback,
              match JS.onmessage_try type payload with
              | Return r => Hook.resolve (Some r)
              | Throw msg => Hook.reject msg
              end)).
Proof.
  intros posted s Hquiet.
  pose proof (run_ids_in_order before initial_ids_in_order) as [Hinv _].
  fold (Hook.run before) in Hinv.
  set (n := Hook.messageIdRef (Hook.run before)) in *.
  assert (Hid : JS.id (snd posted) = of_nat n) by reflexivity.
  rewrite Hid in *.
  destruct (step_ids_in_order (Hook.request type payload callback) Hinv) as [Hinv1 _].
  change (Hook.step (Hook.run before) (Hook.request type payload callback))
    with (fst posted) in Hinv1.
  assert (Hget : Hook.Map_get (Hook.pendingCallbacksRef s) (of_nat n) = Some callback).
  { apply pending_kept; [exact Hinv1 | cbn; lia | | exact Hquiet].
    cbn [posted Hook.postRequest fst Hook.pendingCallbacksRef]. apply Map_get_set_same. }
  assert (Hdeliver : forall data', JS.response_id data' = of_nat n ->
            Hook.onmessage data' s
            = ({| Hook.messageIdRef := Hook.messageIdRef s;
                  Hook.pendingCallbacksRef :=
                    Hook.Map_delete (Hook.pendingCallbacksRef s) (of_nat n) |},
               Some (callback, Hook.settle data'))).
  { intros data' Hd. unfold Hook.onmessage. rewrite Hd, Hget. reflexivity. }
  split; [exact (Hdeliver data) |].
  rewrite Hdeliver.
  - rewrite settle_onmessage. reflexivity.
  - unfold JS.onmessage. destruct (JS.onmessage_try _ _); reflexivity.
Qed.

Lemma absent_kept (n : nat) (events : list (Hook.event Callback)) (s : Hook.refs Callback) :
  ids_in_order s -> (n < Hook.messageIdRef s)%nat ->
  ~ In (of_nat n) (map fst (Hook.pendingCallbacksRef s)) ->
  ~ In (of_nat n)
      (map fst (Hook.pendingCallbacksRef (fold_left (@Hook.step Callback) events s))).
Proof.
  revert s. induction events as [| e events IH]; intros s Hs Hn Habs; [exact Habs |].
  cbn [fold_left].
  destruct (step_ids_in_order e Hs) as [Hs' Hmono].
  apply IH; [exact Hs' | lia |].
  destruct e as [type payload cb | data].
  - cbn [Hook.step Hook.postRequest fst Hook.pendingCallbacksRef].
    rewrite Map_set_keys by (apply (counter_fresh Hs (le_n _))).
    intros Hin. apply in_app_or in Hin. destruct Hin as [Hin | [E | []]].
    + exact (Habs Hin).
    + apply of_nat_inj in E. lia.
  - cbn [Hook.step]. unfold Hook.onmessage.
    destruct (Hook.Map_get _ (JS.response_id data)); cbn [fst Hook.pendingCallbacksRef];
      [| exact Habs].
    intros Hin. apply Habs. apply (Map_delete_incl _ _ _ Hin).
Qed.

(** X27 -- A callback is called at most once.  Once the answer to a request
    has been handled, every later message that carries the same id is
    dropped, whatever has been requested and answered in the meantime: the
    refs stay as they are and no callback is called.  (Ids are never used
    again: the counter only grows.) *)
Theorem X27_answer_handled_once
    (before between later : list (Hook.event Callback))
    (type : string) (payload : JS.Payload) (callback : Callback)
    (data again : JS.Response) :
  let posted := Hook.postRequest type payload callback (Hook.run before) in
  let s := fold_left (@Hook.step Callback) between (fst posted) in
  let s' := fold_left (@Hook.step Callback) later (fst (Hook.onmessage data s)) in
  Forall (not_answer_to (JS.id (snd posted))) between ->
  JS.response_id data = JS.id (snd posted) ->
  JS.response_id again = JS.id (snd posted) ->
  Hook.onmessage again s' = (s', None).
Proof.
  intros posted s s' Hquiet Hdata Hagain.
  pose proof (run_ids_in_order before initial_ids_in_order) as [Hinv _].
  fold (Hook.run before) in Hinv.
  set (n := Hook.messageIdRef (Hook.run before)) in *.
  assert (Hid : JS.id (snd posted) = of_nat n) by reflexivity.
  rewrite Hid in *.
  destruct (step_ids_in_order (Hook.request type payload callback) Hinv) as [Hinv1 _].
  change (Hook.step (Hook.run before) (Hook.request type payload callback))
    with (fst posted) in Hinv1.
  destruct (run_ids_in_order between Hinv1) as [Hinv2 Hmono2]. fold s in Hinv2, Hmono2.
  destruct (step_ids_in_order (Hook.answer Callback data) Hinv2) as [Hinv3 Hmono3].
  cbn [Hook.step] in Hinv3, Hmono3.
  assert (Habs : ~ In (of_nat n)
                     (map fst (Hook.pendingCallbacksRef (fst (Hook.onmessage data s))))).
  { unfold Hook.onmessage. rewrite Hdata.
    destruct (Hook.Map_get _ (of_nat n)) eqn:E; cbn [fst Hook.pendingCallbacksRef].
    - apply (Map_delete_NoDup _ _ (proj1 Hinv2)).
    - intros Hin. destruct (proj2 Hinv2 _ Hin) as [i [Hi Hlt]].
      clear - E Hin. induction (Hook.pendingCallbacksRef s) as [| [k v] rest IH];
        [destruct Hin |].
      cbn [Hook.Map_get] in E. cbn [map fst In] in Hin.
      destruct (Hook.sameValueZero k (of_nat n)) eqn:Ek; [discriminate |].
      destruct Hin as [Hk | Hin]; [| exact (IH E Hin)].
      subst k. rewrite (proj2 (sameValueZero_eq _ _) eq_refl) in Ek. discriminate. }
  assert (Hn : (n < Hook.messageIdRef (fst (Hook.onmessage data s)))%nat).
  { cbn [posted Hook.postRequest fst Hook.messageIdRef] in Hmono2. lia. }
  pose proof (absent_kept later Hinv3 Hn Habs) as Hfinal. fold s' in Hfinal.
  unfold Hook.onmessage. rewrite Hagain, (Map_get_absent _ _ Hfinal). reflexivity.
Qed.

End HookProtocol.

Lemma X26_request_settled_by_its_answer_witness :
  Hook.onmessage
    (JS.onmessage {| JS.id := of_nat 0; JS.type := "computeFFT";
                     JS.payload := JS.fft_payload [] (Fin 30) |})
    {| Hook.messageIdRef := 1; Hook.pendingCallbacksRef := [(of_nat 0, 0%nat)] |}
  = ({| Hook.messageIdRef := 1; Hook.pendingCallbacksRef := [] |},
     Some (0%nat, Hook.reject "Maximum call stack size exceeded")).
Proof.
  refine (eq_trans
            (proj2 (@X26_request_settled_by_its_answer nat [] [] "computeFFT"
                      (JS.fft_payload [] (Fin 30)) 0%nat
                      {| JS.response_id := Fin 0; JS.result := None; JS.error := None |}
                      (Forall_nil _))) _).
  cbn [Hook.run Hook.initial fold_left Hook.postRequest fst snd JS.id
       Hook.messageIdRef Hook.pendingCallbacksRef Hook.Map_set Hook.Map_delete].
  rewrite (proj2 (sameValueZero_eq (of_nat 0) (of_nat 0)) eq_refl). reflexivity.
Defined.

Lemma X27_answer_handled_once_witness :
  Hook.onmessage
    {| JS.response_id := of_nat 0; JS.result := None; JS.error := Some "late"%string |}
    (fold_left (@Hook.step nat) []
       (fst (Hook.onmessage
               {| JS.response_id := of_nat 0; JS.result := None; JS.error := None |}
               (fold_left (@Hook.step nat) []
                  (fst (Hook.postRequest "computeFFT" (JS.fft_payload [] (Fin 30)) 0%nat
                          (Hook.run [])))))))
  = (fold_left (@Hook.step nat) []
       (fst (Hook.onmessage
               {| JS.response_id := of_nat 0; JS.result := None; JS.error := None |}
               (fold_left (@Hook.step nat) []
                  (fst (Hook.postRequest "computeFFT" (JS.fft_payload [] (Fin 30)) 0%nat
                          (Hook.run [])))))),
     None).
Proof.
  apply (@X27_answer_handled_once nat [] [] [] "computeFFT"
           (JS.fft_payload [] (Fin 30)) 0%nat
           {| JS.response_id := of_nat 0; JS.result := None; JS.error := None |}
           {| JS.response_id := of_nat 0; JS.result := None; JS.error := Some "late"%string |}
           (Forall_nil _) eq_refl eq_refl).
Defined.

Section HookDefaults.

Local Open Scope R_scope.
Local Open Scope string_scope.

(** X28 -- The fallbacks of [processSignalChunk].  A stored setting that is
    missing, 0 or [NaN] is replaced by the default (the band 0.5 to 4.0 Hz,
    order 4); any other number is sent as it is.  With no settings stored,
    the request is answered with the error
    [Signal processing failed: Invalid filter frequencies] for every
    sampling rate of at most 8 Hz, and with processed signals for every
    sampling rate above 8 Hz. *)
Theorem X28_processSignalChunk_defaults
    (Callback : Type) (rawSignal : list num) (fs v : R) (d : num)
    (callback : Callback) (s : Hook.refs Callback) :
  (Hook.setting_or None d = d
   /\ Hook.setting_or (Some (Fin 0)) d = d
   /\ Hook.setting_or (Some NaN) d = d
   /\ (v <> 0 -> Hook.setting_or (Some (Fin v)) d = Fin v))
  /\ (0 < fs ->
      let posted :=
        snd (Hook.processSignalChunk rawSignal (Fin fs) None None None callback s) in
      (fs <= 8 ->
       JS.onmessage posted
       = {| JS.response_id := JS.id posted; JS.result := None;
            JS.error := Some "Signal processing failed: Invalid filter frequencies" |})
      /\ (8 < fs ->
          exists r,
            JS.onmessage posted
            = {| JS.response_id := JS.id posted; JS.result := Some (JS.processed r);
                 JS.error := None |})).
Proof.
  split.
  - split; [reflexivity |]. split; [| split].
    + unfold Hook.setting_or, or_else. rewrite falsy_Fin_true by reflexivity. reflexivity.
    + reflexivity.
    + intros Hv. unfold Hook.setting_or, or_else. rewrite falsy_Fin_false by exact Hv.
      reflexivity.
  - intros Hfs posted. unfold posted, Hook.processSignalChunk, Hook.postRequest.
    cbn [snd Hook.setting_or Hook.order_or JS.id]. unfold JS.onmessage.
    cbn [JS.type JS.payload JS.id]. unfold JS.onmessage_try.
    cbn [String.eqb Ascii.eqb Bool.eqb]. split.
    + intros H8. rewrite processSignal_invalid by (try exact Hfs; lra). reflexivity.
    + intros H8.
      destruct (@new_ButterworthFilter_valid fs 0.5 4.0 4%Z) as [t [Hf _]]; try lra.
      rewrite (@processSignal_shape rawSignal _ _ _ _ _ Hf). cbn [bind].
      eexists. reflexivity.
Qed.

Lemma X28_processSignalChunk_defaults_witness :
  Hook.setting_or (Some (Fin 2)) (Fin 0.5) = Fin 2
  /\ JS.onmessage
       (snd (Hook.processSignalChunk [Fin 1] (Fin 8) None None None 0%nat (Hook.initial nat)))
     = {| JS.response_id :=
            JS.id (snd (Hook.processSignalChunk [Fin 1] (Fin 8) None None None 0%nat
                          (Hook.initial nat)));
          JS.result := None;
          JS.error := Some "Signal processing failed: Invalid filter frequencies" |}.
Proof.
  split.
  - apply (proj2 (proj2 (proj2 (proj1
             (@X28_processSignalChunk_defaults nat [Fin 1] 8 2 (Fin 0.5) 0%nat
                (Hook.initial nat)))))).
    lra.
  - apply (proj1 (proj2 (@X28_processSignalChunk_defaults nat [Fin 1] 8 2 (Fin 0.5) 0%nat
                           (Hook.initial nat)) ltac:(lra))).
    lra.
Defined.

End HookDefaults.

(* ================================================================== *)
(** * The heart-rate estimate and the simulated inference *)
(* ================================================================== *)

Section Screens.

Local Open Scope R_scope.

Lemma div_zero_l (y : num) : div (Fin 0) y = Fin 0 \/ div (Fin 0) y = NaN.
Proof.
  destruct y as [b | | |]; try (left; reflexivity); try (right; reflexivity).
  destruct (Req_dec b 0) as [Hb | Hb].
  - right. apply div_Fin_zero_zero; [reflexivity | exact Hb].
  - left. rewrite div_Fin by exact Hb. apply Fin_eq. unfold Rdiv. ring.
Qed.

(** Without a peak no heart rate is reported. *)
Lemma no_peak_no_rate (secondsElapsed : num) :
  (gtb (Math_round (mul (div (of_nat 0) secondsElapsed) (Fin 60))) (Fin 40)
   && ltb (Math_round (mul (div (of_nat 0) secondsElapsed) (Fin 60))) (Fin 200))%bool
  = false.
Proof.
  change (of_nat 0) with (Fin 0).
  destruct (div_zero_l secondsElapsed) as [-> | ->].
  - cbn [mul]. unfold Math_round, gtb.
    assert (H : IZR (Int_part (0 * 60 + / 2)) = 0).
    { replace (0 * 60 + / 2) with (0 * 10 + / 2) by ring. rewrite Int_part_half. reflexivity. }
    rewrite H. rewrite ltb_Fin_false by lra. reflexivity.
  - reflexivity.
Qed.

Lemma estimateHeartRate_flat (samplingRate : num) (c : R) (n : nat) :
  Capture.estimateHeartRate samplingRate (map Fin (repeat c n)) = None.
Proof.
  unfold Capture.estimateHeartRate.
  destruct (ltb _ (mul samplingRate (Fin 5))); [reflexivity |].
  rewrite length_map, repeat_length.
  set (body := fun '(peaks, wasBelowThreshold) i => _).
  assert (Hloop : fst (for_range 1 n body (0%nat, true)) = 0%nat).
  { apply (for_range_invariant (fun st : nat * bool => fst st = 0%nat)); [reflexivity |].
    intros [peaks was] i Hi Hp. cbn [fst] in Hp. subst peaks. unfold body.
    destruct n as [| n']; [lia |].
    pose proof (@mean_Fin (repeat c (S n')) ltac:(discriminate)) as Hm.
    unfold TS.mean in Hm. rewrite length_map, repeat_length in Hm. rewrite Hm.
    assert (Hmean : meanR (repeat c (S n')) = c).
    { unfold meanR. rewrite acc_sum_repeat. rewrite repeat_length, <- INR_IZR_INZ.
      field. apply not_0_INR. lia. }
    rewrite Hmean. rewrite get_map_Fin by (rewrite repeat_length; lia).
    rewrite nth_repeat_lt by lia. unfold gtb. rewrite ltb_Fin_false by lra.
    cbn [andb]. rewrite leb_Fin_true by lra. reflexivity. }
  destruct (for_range 1 n body (0%nat, true)) as [peaks was]. cbn [fst] in Hloop.
  subst peaks. rewrite no_peak_no_rate. reflexivity.
Qed.

(** X29 -- [estimateHeartRate] reports plausible rates only.  Whatever the
    signal and the sampling rate, a reported heart rate is an integer
    strictly between 40 and 200; a constant finite signal (no sample above
    the mean, hence no peak) yields no heart rate at any sampling rate. *)
Theorem X29_estimateHeartRate_range
    (samplingRate : num) (signal : list num) (hr : num) (c : R) (n : nat) :
  (Capture.estimateHeartRate samplingRate signal = Some hr ->
   exists z : Z, hr = Fin (IZR z) /\ (40 < z < 200)%Z)
  /\ Capture.estimateHeartRate samplingRate (map Fin (repeat c n)) = None.
Proof.
  split; [| apply estimateHeartRate_flat].
  unfold Capture.estimateHeartRate.
  destruct (ltb _ (mul samplingRate (Fin 5))); [discriminate |].
  destruct (for_range 1 (length signal) _ (0%nat, true)) as [peaks was].
  set (x := mul (div (of_nat peaks) (div (of_nat (length signal)) samplingRate)) (Fin 60)).
  destruct (gtb (Math_round x) (Fin 40)) eqn:E1; [| discriminate].
  destruct (ltb (Math_round x) (Fin 200)) eqn:E2; [| discriminate].
  cbn [andb]. intros H. injection H as <-.
  destruct x as [a | | |]; unfold Math_round in *; unfold gtb in E1.
  - exists (Int_part (a + / 2)). split; [reflexivity |].
    apply ltb_Fin_iff in E1. apply ltb_Fin_iff in E2.
    split; apply lt_IZR; assumption.
  - discriminate.
  - discriminate.
  - discriminate.
Qed.

Lemma X29_estimateHeartRate_range_witness :
  Capture.estimateHeartRate (Fin 30) (map Fin (repeat 128 200)) = None.
Proof. apply (proj2 (X29_estimateHeartRate_range (Fin 30) [] NaN 128 200)). Defined.

(** ** The simulated inference *)






End Screens.
